(** * CCKnowledgeExtractor: scanning, routing, output paths, queue and worker pool

    A shallow embedding of the scheduling and routing core of the
    repository (TypeScript, run on a single cooperative execution
    context) together with the properties its specification states.

    Conventions of the embedding:
    - JavaScript strings are [string]s, a string standing for its
      characters in UTF-8; the operations of the code that look for
      ASCII characters ([startsWith], [endsWith], the regular
      expression [/[\/]/g], [node:path]) are written out on
      characters. [String.prototype.toLowerCase] maps the letters of
      every script: it is a parameter of the definitions that call
      it, and nothing is assumed of it; [asciiLowerCase] is what it
      computes on ASCII strings.
    - [obj[key]] on an object literal also finds the properties
      inherited from [Object.prototype].
    - [node:path] is modelled in its POSIX flavour.
    - [Set<string>] is [gset string], [Map<string, QueueItem>] is
      [gmap string QueueItem], arrays are lists.
    - Promises: every queue operation runs to completion without being
      interleaved with another one; a suspended [dequeue] call is a
      waiter token kept in the queue, and resolving it is recorded as a
      delivery. *)

From Stdlib Require Import Ascii String ZArith Lia.
From stdpp Require Import gmap strings list fin_maps pretty sorting.

#[local] Set Warnings "-register-all".

Open Scope string_scope.

(** ** JavaScript string primitives *)

Module JsString.

Definition chars (s : string) : list ascii := list_ascii_of_string s.
Definition ofChars (l : list ascii) : string := string_of_list_ascii l.

Definition lowerChar (c : ascii) : ascii :=
  let n := nat_of_ascii c in
  if (65 <=? n)%nat && (n <=? 90)%nat then ascii_of_nat (n + 32) else c.

(** [s.toLowerCase()] for a string [s] of ASCII characters *)
Definition asciiLowerCase (s : string) : string :=
  ofChars (map lowerChar (chars s)).

(** [s.startsWith(p)] *)
Definition startsWith (s p : string) : bool := String.prefix p s.

(** [s.endsWith(p)] *)
Definition endsWith (s p : string) : bool :=
  String.prefix (ofChars (rev (chars p))) (ofChars (rev (chars s))).

(** [s.slice(0, s.length - n)] for [n <= s.length] *)
Definition dropEnd (n : nat) (s : string) : string :=
  ofChars (take (String.length s - n) (chars s)).

(** [arr.includes(x)] on an array of strings *)
Definition includes (l : list string) (x : string) : bool :=
  bool_decide (x ∈ l).

(** [arr.join(sep)] *)
Fixpoint joinWith (sep : string) (l : list string) : string :=
  match l with
  | [] => ""
  | [x] => x
  | x :: l' => x ++ sep ++ joinWith sep l'
  end.

(** [s.split(c)] for a one-character separator *)
Fixpoint splitChars (c : ascii) (l : list ascii) (cur : list ascii) : list string :=
  match l with
  | [] => [ofChars (rev cur)]
  | x :: l' =>
      if bool_decide (x = c) then ofChars (rev cur) :: splitChars c l' []
      else splitChars c l' (x :: cur)
  end.

Definition split (c : ascii) (s : string) : list string := splitChars c (chars s) [].

(** a string is truthy when it is not empty *)
Definition truthy (s : string) : bool := negb (bool_decide (s = "")).

(** The property names that an object literal inherits from
    [Object.prototype]: [obj[key]] finds them when [obj] has no own
    property [key]. Their values are functions and, for [__proto__],
    the prototype itself: all of them truthy, none with a property
    [skill] or [outputFormat]. *)
Definition objectPrototypeKeys : list string :=
  [ "constructor"; "hasOwnProperty"; "isPrototypeOf"; "propertyIsEnumerable";
    "toLocaleString"; "toString"; "valueOf"; "__proto__"; "__defineGetter__";
    "__defineSetter__"; "__lookupGetter__"; "__lookupSetter__" ].

End JsString.

(** ** [node:path], POSIX flavour *)

Module Path.
Import JsString.

Definition slash : ascii := "/"%char.
Definition dot : ascii := "."%char.

Definition isAbsolute (p : string) : bool := startsWith p "/".

(** [normalizeString(path, allowAboveRoot)]: the segments of [path] with
    empty and [.] segments dropped and [..] resolved against the segment
    before it. [acc] holds the segments kept so far, last one first. *)
Fixpoint normalizeSegments (allowAboveRoot : bool) (segs acc : list string) : list string :=
  match segs with
  | [] => rev acc
  | seg :: segs' =>
      if bool_decide (seg = "") || bool_decide (seg = ".") then
        normalizeSegments allowAboveRoot segs' acc
      else if bool_decide (seg = "..") then
        match acc with
        | last :: acc' =>
            if bool_decide (last = "..") then
              normalizeSegments allowAboveRoot segs' (seg :: acc)
            else normalizeSegments allowAboveRoot segs' acc'
        | [] =>
            if allowAboveRoot then normalizeSegments allowAboveRoot segs' [seg]
            else normalizeSegments allowAboveRoot segs' []
        end
      else normalizeSegments allowAboveRoot segs' (seg :: acc)
  end.

Definition normalizeString (p : string) (allowAboveRoot : bool) : string :=
  joinWith "/" (normalizeSegments allowAboveRoot (split slash p) []).

(** [path.normalize(p)] *)
Definition normalize (p : string) : string :=
  if bool_decide (p = "") then "."
  else
    let absolute := isAbsolute p in
    let trailing := endsWith p "/" in
    let body := normalizeString p (negb absolute) in
    if bool_decide (body = "") then
      if absolute then "/" else if trailing then "./" else "."
    else
      let body' := if trailing then body ++ "/" else body in
      if absolute then "/" ++ body' else body'.

(** [path.join(a, b)] *)
Definition join (a b : string) : string :=
  match truthy a, truthy b with
  | false, false => "."
  | true, false => normalize a
  | false, true => normalize b
  | true, true => normalize (a ++ "/" ++ b)
  end.

(** The segments of [path.resolve(p)] when the process runs in the
    (absolute) working directory [cwd]. *)
Definition resolveSegments (cwd p : string) : list string :=
  if isAbsolute p then normalizeSegments false (split slash p) []
  else normalizeSegments false (split slash (cwd ++ "/" ++ p)) [].

Definition resolve (cwd p : string) : string :=
  "/" ++ joinWith "/" (resolveSegments cwd p).

Fixpoint dropCommon (a b : list string) : list string * list string :=
  match a, b with
  | x :: a', y :: b' => if bool_decide (x = y) then dropCommon a' b' else (a, b)
  | _, _ => (a, b)
  end.

(** [path.relative(from, to)] *)
Definition relative (cwd from to : string) : string :=
  if bool_decide (from = to) then ""
  else
    let '(up, down) := dropCommon (resolveSegments cwd from) (resolveSegments cwd to) in
    joinWith "/" (map (fun _ => "..") up ++ down).

(** The loop of [path.dirname]: scanning from the last character down
    to index 1, the index of the first slash met after a character
    that is not a slash. [rs] is the path reversed, [i] the index of
    its head. *)
Fixpoint dirnameEnd (rs : list ascii) (i : nat) (matchedSlash : bool) : option nat :=
  match rs, i with
  | c :: rs', S i' =>
      if bool_decide (c = slash) then
        if matchedSlash then dirnameEnd rs' i' true else Some i
      else dirnameEnd rs' i' false
  | _, _ => None
  end.

(** [path.dirname(p)] *)
Definition dirname (p : string) : string :=
  if bool_decide (p = "") then "."
  else
    let hasRoot := isAbsolute p in
    match dirnameEnd (rev (chars p)) (String.length p - 1) true with
    | None => if hasRoot then "/" else "."
    | Some e =>
        if hasRoot && bool_decide (e = 1%nat) then "//"
        else ofChars (take e (chars p))
    end.

(** [path.basename(name, suffix)] on a name without directory part, as
    the entries returned by [readdirSync] are. *)
Definition basename (name suffix : string) : string :=
  if truthy suffix && (String.length suffix <=? String.length name)%nat then
    if bool_decide (suffix = name) then ""
    else if endsWith name suffix then dropEnd (String.length suffix) name
    else name
  else name.

(** The state of the scan of [path.extname] over a name without
    directory part: the index of the last dot and [preDotState]. *)
Fixpoint extnameScan (rs : list ascii) (i : nat) (startDot : option nat) (preDotState : Z)
  : option nat * Z :=
  match rs with
  | [] => (startDot, preDotState)
  | c :: rs' =>
      if bool_decide (c = dot) then
        match startDot with
        | None => extnameScan rs' (i - 1) (Some i) preDotState
        | Some _ => extnameScan rs' (i - 1) startDot 1%Z
        end
      else
        match startDot with
        | None => extnameScan rs' (i - 1) startDot preDotState
        | Some _ => extnameScan rs' (i - 1) startDot (-1)%Z
        end
  end.

(** [path.extname(name)] *)
Definition extname (name : string) : string :=
  let n := String.length name in
  match extnameScan (rev (chars name)) (n - 1) None 0%Z with
  | (None, _) => ""
  | (Some d, st) =>
      if bool_decide (n = 0%nat) || bool_decide (st = 0%Z)
         || (bool_decide (st = 1%Z) && bool_decide (d = (n - 1)%nat) && bool_decide (d = 1%nat))
      then ""
      else ofChars (drop d (chars name))
  end.

End Path.

(** ** Types ([src/types/index.ts]) *)

Module Types.

Inductive FileCategory :=
  | CatText | CatCode | CatDocument | CatDatabase | CatArchive
  | CatImage | CatHtml | CatVideo | CatAudio | CatUnknown.

#[global] Instance FileCategory_eq_dec : EqDecision FileCategory.
Proof. solve_decision. Defined.

Record ScannedFile := {
  path : string;
  relativePath : string;
  name : string;
  extension : string;
  size : N;
  category : FileCategory;
  courseId : string;
  coursePath : string;
}.

Inductive QueueItemStatus :=
  | Pending | Scanning | Routing | Processing | Completed | Failed | Skipped.

#[global] Instance QueueItemStatus_eq_dec : EqDecision QueueItemStatus.
Proof. solve_decision. Defined.

Inductive ProcessingStage := StScan | StRoute | StConvert | StValidate | StGenerate.

Inductive RoutingMethod :=
  | MPassthrough | MSkill | MArchive | MSkip | MUnsupported.

#[global] Instance RoutingMethod_eq_dec : EqDecision RoutingMethod.
Proof. solve_decision. Defined.

Record RoutingDecision := {
  method : RoutingMethod;
  skillName : option string;
  outputFormat : option string;
  metadata : list (string * string);
}.

(** [ProcessingError]; the optional [stack] and [context] are never
    written by the code modelled here. *)
Record ProcessingError := {
  code : string;
  message : string;
  recoverable : bool;
}.

(** [QueueItem]. The two [Date] fields [startedAt] and [completedAt] are
    write-only in the code and are left out. *)
Record QueueItem := {
  id : string;
  file : ScannedFile;
  status : QueueItemStatus;
  stage : ProcessingStage;
  priority : Z;
  attempts : nat;
  maxAttempts : nat;
  routedTo : option RoutingDecision;
  outputPath : option string;
  error : option ProcessingError;
}.

Record QueueStats := {
  total : nat;
  pending : nat;
  processing : nat;
  completed : nat;
  failed : nat;
  skipped : nat;
}.

(** [ProcessingResult]. [queueItem] is a reference to the item; it is
    kept as the item's [id]. *)
Record ProcessingResult := {
  queueItem : string;
  success : bool;
  resultPath : option string;
  duration : Z;
  warnings : list string;
}.

Definition setStatus (s : QueueItemStatus) (i : QueueItem) : QueueItem :=
  {| id := id i; file := file i; status := s; stage := stage i;
     priority := priority i; attempts := attempts i; maxAttempts := maxAttempts i;
     routedTo := routedTo i; outputPath := outputPath i; error := error i |}.

Definition setError (e : option ProcessingError) (i : QueueItem) : QueueItem :=
  {| id := id i; file := file i; status := status i; stage := stage i;
     priority := priority i; attempts := attempts i; maxAttempts := maxAttempts i;
     routedTo := routedTo i; outputPath := outputPath i; error := e |}.

Definition setAttempts (n : nat) (i : QueueItem) : QueueItem :=
  {| id := id i; file := file i; status := status i; stage := stage i;
     priority := priority i; attempts := n; maxAttempts := maxAttempts i;
     routedTo := routedTo i; outputPath := outputPath i; error := error i |}.

End Types.

(** ** Constants ([src/core/constants.ts]) *)

Module Constants.
Import Types.

(** [FILE_EXTENSIONS], in the order of its keys. *)
Definition FILE_EXTENSIONS : list (FileCategory * list string) :=
  [ (CatText, [".txt"; ".md"; ".csv"; ".json"; ".xml"; ".srt"; ".vtt"; ".yaml"; ".yml";
               ".toml"; ".ini"; ".cfg"; ".conf"]);
    (CatCode, [".ts"; ".tsx"; ".js"; ".jsx"; ".py"; ".java"; ".c"; ".cpp"; ".h"; ".hpp";
               ".cs"; ".go"; ".rs"; ".rb"; ".php"; ".swift"; ".kt"; ".scala"; ".lua";
               ".sh"; ".bash"; ".ps1"; ".bat"; ".cmd"; ".sql"; ".r"; ".m"; ".f90";
               ".asm"; ".s"; ".pl"; ".pm"; ".tcl"; ".vim"; ".el"; ".clj"; ".ex"; ".exs";
               ".erl"; ".hs"; ".ml"; ".fs"; ".v"; ".sv"; ".vhd"; ".vhdl"]);
    (CatDocument, [".pdf"; ".docx"; ".doc"; ".pptx"; ".ppt"; ".xlsx"; ".xls"; ".odt";
                   ".ods"; ".odp"]);
    (CatDatabase, [".db"; ".sqlite"; ".sqlite3"; ".mdb"; ".accdb"; ".dbf"; ".h2"]);
    (CatArchive, [".zip"; ".rar"; ".7z"; ".tar"; ".gz"; ".tgz"; ".bz2"; ".xz"; ".tar.gz";
                  ".tar.bz2"; ".tar.xz"]);
    (CatImage, [".png"; ".jpg"; ".jpeg"; ".gif"; ".bmp"; ".tiff"; ".tif"; ".webp"; ".svg"]);
    (CatHtml, [".html"; ".htm"; ".xhtml"; ".mhtml"]);
    (CatVideo, [".mp4"; ".mkv"; ".avi"; ".mov"; ".wmv"; ".flv"; ".webm"; ".m4v"; ".mpeg";
                ".mpg"; ".3gp"]);
    (CatAudio, [".mp3"; ".wav"; ".flac"; ".aac"; ".ogg"; ".wma"; ".m4a"; ".opus"; ".aiff"]);
    (CatUnknown, []) ].

(** [FILE_EXTENSIONS.<category>] *)
Definition extensionsOf (c : FileCategory) : list string :=
  match list_find (fun e => fst e = c) FILE_EXTENSIONS with
  | Some (_, (_, exts)) => exts
  | None => []
  end.

(** [SKIP_EXTENSIONS = new Set([...video, ...audio])] *)
Definition SKIP_EXTENSIONS : gset string :=
  list_to_set (extensionsOf CatVideo ++ extensionsOf CatAudio).

(** [TEXT_EXTENSIONS = new Set([...text, ...code])] *)
Definition TEXT_EXTENSIONS : gset string :=
  list_to_set (extensionsOf CatText ++ extensionsOf CatCode).

(** [SKILL_MAPPINGS]: extension to [(skill, outputFormat)]. *)
Definition SKILL_MAPPINGS : gmap string (string * string) :=
  list_to_map
    [ (".pdf", ("pdf", ".md")); (".docx", ("docx", ".md")); (".doc", ("docx", ".md"));
      (".pptx", ("pptx", ".md")); (".ppt", ("pptx", ".md"));
      (".xlsx", ("xlsx-processor", ".csv")); (".xls", ("xlsx-processor", ".csv"));
      (".db", ("db-identify", ".csv")); (".sqlite", ("db-identify", ".csv"));
      (".sqlite3", ("db-identify", ".csv")); (".mdb", ("db-identify", ".csv"));
      (".accdb", ("db-identify", ".csv"));
      (".html", ("html2markdown", ".md")); (".htm", ("html2markdown", ".md"));
      (".png", ("image-ocr", ".txt")); (".jpg", ("image-ocr", ".txt"));
      (".jpeg", ("image-ocr", ".txt")); (".gif", ("image-ocr", ".txt"));
      (".bmp", ("image-ocr", ".txt")); (".tiff", ("image-ocr", ".txt"));
      (".tif", ("image-ocr", ".txt"));
      (".zip", ("archive-extractor", "directory")); (".rar", ("archive-extractor", "directory"));
      (".7z", ("archive-extractor", "directory")); (".tar", ("archive-extractor", "directory"));
      (".gz", ("archive-extractor", "directory")); (".tgz", ("archive-extractor", "directory"));
      (".tar.gz", ("archive-extractor", "directory"));
      (".tar.bz2", ("archive-extractor", "directory")) ].

End Constants.

(** ** Scanner ([src/scanner/scanner.ts]) *)

Module Scanner.
Import JsString Types Constants.

(** What [readdirSync] and [statSync] show of the file system: a
    directory lists its entries in directory order, and each entry
    carries its name and what [statSync] says of it. *)
Inductive FsNode :=
  | FsFile (entry : string) (bytes : N)
  | FsDir (entry : string) (entries : list FsNode)
  | FsUnreadableDir (entry : string)
  | FsOther (entry : string)
  | FsBroken (entry : string).

Definition entryName (n : FsNode) : string :=
  match n with
  | FsFile e _ | FsDir e _ | FsUnreadableDir e | FsOther e | FsBroken e => e
  end.

Record ScanOptions := {
  recursive : bool;
  includeHidden : bool;
}.

(** the default value of the [options] parameter of [scanDirectory] *)
Definition defaultOptions : ScanOptions :=
  {| recursive := true; includeHidden := false |}.

Section Lowering.
(** [String.prototype.toLowerCase] *)
Variable toLowerCase : string -> string.

(** [getExtension] *)
Definition getExtension (filename : string) : string :=
  let lowerName := toLowerCase filename in
  match list_find (fun ext => endsWith lowerName ext = true) [".tar.gz"; ".tar.bz2"; ".tar.xz"] with
  | Some (_, ext) => ext
  | None => toLowerCase (Path.extname filename)
  end.

(** [categorizeFile]: the first category, in key order, whose list
    includes the extension. *)
Definition categorizeFile (ext : string) : FileCategory :=
  match list_find (fun e => includes (snd e) ext = true) FILE_EXTENSIONS with
  | Some (_, (c, _)) => c
  | None => CatUnknown
  end.

Section Scan.
(** the working directory of the process, the compiled
    [excludePatterns] of the scanner (each as its [test] function)
    and the arguments that [scanRecursive] passes down unchanged *)
Variable cwd : string.
Variable excludePatterns : list (string -> bool).
Variable options : ScanOptions.
Variables course root : string.

(** [shouldExclude] *)
Definition shouldExclude (p : string) : bool :=
  existsb (fun pattern => pattern p) excludePatterns.

(** One turn of the loop of [scanRecursive] on an entry of
    [currentPath], and, for a directory, the nested call: the files
    pushed, in order. *)
Fixpoint scanEntry (currentPath : string) (node : FsNode) {struct node}
  : list ScannedFile :=
  let entry := entryName node in
  if negb (includeHidden options) && startsWith entry "." then []
  else if startsWith entry "__cc" then []
  else
    let fullPath := Path.join currentPath entry in
    if shouldExclude fullPath then []
    else
      match node with
      | FsBroken _ => []
      | FsOther _ => []
      | FsUnreadableDir _ => []
      | FsDir _ entries =>
          if recursive options then
            (fix scanEntries (l : list FsNode) : list ScannedFile :=
               match l with
               | [] => []
               | n :: l' => (scanEntry fullPath n ++ scanEntries l')%list
               end) entries
          else []
      | FsFile _ bytes =>
          let ext := getExtension entry in
          let cat := categorizeFile ext in
          if bool_decide (cat = CatVideo) || bool_decide (cat = CatAudio) then []
          else
            [ {| path := fullPath;
                 relativePath := Path.relative cwd root fullPath;
                 name := entry;
                 extension := ext;
                 size := bytes;
                 category := cat;
                 courseId := course;
                 coursePath := root |} ]
      end.

(** [scanRecursive] over the entries of [currentPath] *)
Definition scanRecursive (currentPath : string) (entries : list FsNode)
  : list ScannedFile :=
  flat_map (scanEntry currentPath) entries.

(** [scanDirectory(dirPath, courseId, coursePath, options)]; [node] is
    what the file system holds at [dirPath], [None] when nothing
    exists there. *)
Definition scanDirectory (dirPath : string) (node : option FsNode) : list ScannedFile :=
  match node with
  | Some (FsDir _ entries) => scanRecursive dirPath entries
  | _ => []
  end.

End Scan.

End Lowering.

End Scanner.

(** ** Skill registry ([src/routing/skill-registry.ts]) *)

Module SkillRegistry.
Import JsString Types Constants.

(** The value of [SKILL_MAPPINGS[ext]]: an entry of the table, a
    property inherited from [Object.prototype], or [undefined]. *)
Inductive Mapping :=
  | Entry (skill fmt : string)
  | Inherited
  | Undefined.

Definition lookupMapping (ext : string) : Mapping :=
  match SKILL_MAPPINGS !! ext with
  | Some (skill, fmt) => Entry skill fmt
  | None => if includes objectPrototypeKeys ext then Inherited else Undefined
  end.

Section Lowering.
(** [String.prototype.toLowerCase] *)
Variable toLowerCase : string -> string.

(** [getRoutingDecision(extension)]. An inherited property is truthy,
    and its [outputFormat] and [skill] are [undefined]. *)
Definition getRoutingDecision (extension : string) : RoutingDecision :=
  let ext := toLowerCase extension in
  if bool_decide (ext ∈ SKIP_EXTENSIONS) then
    {| method := MSkip; skillName := None; outputFormat := None;
       metadata := [("reason", "Video/audio files are skipped")] |}
  else if bool_decide (ext ∈ TEXT_EXTENSIONS) then
    {| method := MPassthrough; skillName := None; outputFormat := Some ext;
       metadata := [] |}
  else
    match lookupMapping ext with
    | Entry skill fmt =>
        if bool_decide (fmt = "directory") then
          {| method := MArchive; skillName := Some skill; outputFormat := Some fmt;
             metadata := [] |}
        else
          {| method := MSkill; skillName := Some skill; outputFormat := Some fmt;
             metadata := [] |}
    | Inherited =>
        {| method := MSkill; skillName := None; outputFormat := None; metadata := [] |}
    | Undefined =>
        {| method := MUnsupported; skillName := None; outputFormat := None;
           metadata := [("extension", ext)] |}
    end.

End Lowering.

End SkillRegistry.

(** ** Output paths ([src/output/output-manager.ts], [src/routing/file-router.ts]) *)

Module OutputManager.
Import JsString Types.

(** [s.replace(/[\/]/g, "_")] *)
Definition flattenSeparators (s : string) : string :=
  ofChars (map (fun c => if bool_decide (c = "/"%char) || bool_decide (c = "\"%char)
                         then "_"%char else c) (chars s)).

(** [outputFormat && outputFormat !== "directory" ? outputFormat : currentExt] *)
Definition chooseExtension (outputFormat : option string) (currentExt : string) : string :=
  match outputFormat with
  | Some fmt => if truthy fmt && negb (bool_decide (fmt = "directory")) then fmt else currentExt
  | None => currentExt
  end.

(** [OutputManager.getOutputPath(file, outputDir, outputFormat)]; [cwd]
    is the working directory that [path.relative] resolves against. *)
Definition getOutputPath (cwd : string) (f : ScannedFile) (outputDir : string)
    (outputFormat : option string) : string :=
  let relPath := Path.relative cwd (coursePath f) (path f) in
  let relDir := Path.dirname relPath in
  let prefix :=
    if truthy relDir && negb (bool_decide (relDir = ".")) then flattenSeparators relDir ++ "_"
    else "" in
  let currentExt := extension f in
  let newExt := chooseExtension outputFormat currentExt in
  let baseName := Path.basename (name f) currentExt in
  let outputName := prefix ++ baseName ++ newExt in
  Path.join outputDir outputName.

End OutputManager.

Module FileRouter.
Import JsString Types.

(** [FileRouter.routeByExtension]; [toLowerCase] is
    [String.prototype.toLowerCase] *)
Definition routeByExtension (toLowerCase : string -> string) (f : ScannedFile)
    : RoutingDecision :=
  SkillRegistry.getRoutingDecision toLowerCase (extension f).

(** [FileRouter.getOutputPath(file, decision, validatedFilesPath)] *)
Definition getOutputPath (cwd : string) (f : ScannedFile) (decision : RoutingDecision)
    (validatedFilesPath : string) : string :=
  let relDir := Path.relative cwd (coursePath f) (Path.dirname (path f)) in
  let prefix :=
    if truthy relDir then OutputManager.flattenSeparators relDir ++ "_" else "" in
  let outputExt := OutputManager.chooseExtension (outputFormat decision) (extension f) in
  let baseName := Path.basename (name f) (extension f) in
  let outputName := prefix ++ baseName ++ outputExt in
  Path.join validatedFilesPath outputName.

End FileRouter.

(** ** The priority queue ([src/queue/async-queue.ts]) *)

Module AsyncQueue.
Import Types.

(** [size] is the number of elements of a [Set] or [Map] from here on,
    not the byte size of a scanned file. *)
#[local] Abbreviation size := base.size (only parsing).

(** The [resolve] callback of a suspended [dequeue] call; the worker
    pool uses the index of the suspended worker. *)
Abbreviation Waiter := nat.

(** A call [waiter(x)]: the promise of [waiter] is resolved with [x]
    ([None] is [null]). *)
Definition Delivery : Type := Waiter * option QueueItem.

Record t := {
  items : list QueueItem;
  processing : gset string;
  completed : gmap string QueueItem;
  failed : gmap string QueueItem;
  skipped : gmap string QueueItem;
  closed : bool;
  waiters : list Waiter;
  maxConcurrent : nat;
}.

(** [new AsyncQueue(maxConcurrent)] *)
Definition new (maxConcurrent : nat) : t :=
  {| items := []; processing := ∅; completed := ∅; failed := ∅; skipped := ∅;
     closed := false; waiters := []; maxConcurrent := maxConcurrent |}.

Definition withPending (q : t) (its : list QueueItem) (proc : gset string)
    (ws : list Waiter) : t :=
  {| items := its; processing := proc; completed := completed q; failed := failed q;
     skipped := skipped q; closed := closed q; waiters := ws;
     maxConcurrent := maxConcurrent q |}.

(** [items.sort((a, b) => a.priority - b.priority)]. The sort of the
    language is stable; it is written as the insertion of each element,
    in array order, behind the elements that do not compare greater. *)
Fixpoint insertByPriority (x : QueueItem) (l : list QueueItem) : list QueueItem :=
  match l with
  | [] => [x]
  | y :: l' =>
      if (priority y <=? priority x)%Z then y :: insertByPriority x l'
      else x :: l
  end.

Definition sortByPriority (l : list QueueItem) : list QueueItem :=
  foldl (fun acc x => insertByPriority x acc) [] l.

(** The loop of [notifyWaiters]. *)
Fixpoint notifyLoop (maxC : nat) (ws : list Waiter) (its : list QueueItem)
    (proc : gset string) : list Waiter * list QueueItem * gset string * list Delivery :=
  match ws, its with
  | w :: ws', item :: its' =>
      if (size proc <? maxC)%nat then
        let '(ws2, its2, proc2, ds) := notifyLoop maxC ws' its' ({[id item]} ∪ proc) in
        (ws2, its2, proc2, (w, Some item) :: ds)
      else (ws, its, proc, [])
  | _, _ => (ws, its, proc, [])
  end.

(** [notifyWaiters()] *)
Definition notifyWaiters (q : t) : t * list Delivery :=
  let '(ws, its, proc, ds) := notifyLoop (maxConcurrent q) (waiters q) (items q) (processing q) in
  (withPending q its proc ws, ds).

(** The result of a call that can throw. *)
Inductive Thrown (A : Type) :=
  | Ok (a : A)
  | Throw (msg : string).
Arguments Ok {A} a.
Arguments Throw {A} msg.

(** [enqueueMany(newItems)] *)
Definition enqueueMany (newItems : list QueueItem) (q : t) : Thrown (t * list Delivery) :=
  if closed q then Throw "Queue is closed"
  else
    Ok (notifyWaiters
          (withPending q (sortByPriority (items q ++ newItems)) (processing q) (waiters q))).

(** [enqueue(item)] *)
Definition enqueue (item : QueueItem) (q : t) : Thrown (t * list Delivery) :=
  if closed q then Throw "Queue is closed"
  else
    Ok (notifyWaiters
          (withPending q (sortByPriority (items q ++ [item])) (processing q) (waiters q))).

(** What the promise returned by [dequeue()] is: resolved with an
    item, resolved with [null], or pending with its [resolve] callback
    in [waiters]. *)
Inductive Dequeued :=
  | Got (item : QueueItem)
  | Sentinel
  | Suspended.

(** [dequeue()], called by [w] *)
Definition dequeue (w : Waiter) (q : t) : t * Dequeued :=
  if closed q && bool_decide (items q = []) then (q, Sentinel)
  else
    match items q with
    | item :: rest =>
        if (size (processing q) <? maxConcurrent q)%nat then
          (withPending q rest ({[id item]} ∪ processing q) (waiters q), Got item)
        else if closed q then (q, Sentinel)
        else (withPending q (items q) (processing q) (waiters q ++ [w]), Suspended)
    | [] =>
        if closed q then (q, Sentinel)
        else (withPending q (items q) (processing q) (waiters q ++ [w]), Suspended)
    end.

(** [markCompleted(item)] *)
Definition markCompleted (item : QueueItem) (q : t) : t * list Delivery :=
  notifyWaiters
    {| items := items q; processing := processing q ∖ {[id item]};
       completed := <[id item := setStatus Completed item]> (completed q);
       failed := failed q; skipped := skipped q; closed := closed q;
       waiters := waiters q; maxConcurrent := maxConcurrent q |}.

(** [markFailed(item, error)]; of [error] the code and the message are
    kept, [recoverable] is set to [false]. *)
Definition markFailed (item : QueueItem) (errCode errMessage : string) (q : t)
    : t * list Delivery :=
  let item' :=
    setError (Some {| code := errCode; message := errMessage; recoverable := false |})
             (setStatus Failed item) in
  notifyWaiters
    {| items := items q; processing := processing q ∖ {[id item]};
       completed := completed q;
       failed := <[id item := item']> (failed q);
       skipped := skipped q; closed := closed q;
       waiters := waiters q; maxConcurrent := maxConcurrent q |}.

(** [markSkipped(item, reason)] *)
Definition markSkipped (item : QueueItem) (reason : string) (q : t) : t * list Delivery :=
  let item' :=
    setError (Some {| code := "SKIPPED"; message := reason; recoverable := false |})
             (setStatus Skipped item) in
  notifyWaiters
    {| items := items q; processing := processing q ∖ {[id item]};
       completed := completed q; failed := failed q;
       skipped := <[id item := item']> (skipped q);
       closed := closed q; waiters := waiters q; maxConcurrent := maxConcurrent q |}.

(** [requeue(item)] *)
Definition requeue (item : QueueItem) (q : t) : t * list Delivery :=
  let q1 := withPending q (items q) (processing q ∖ {[id item]}) (waiters q) in
  let item1 := setAttempts (attempts item + 1) item in
  let '(q2, ds1) :=
    if (attempts item1 <? maxAttempts item1)%nat then
      (withPending q1 (sortByPriority (items q1 ++ [setStatus Pending item1]))
                   (processing q1) (waiters q1), [])
    else
      markFailed item1 "MAX_ATTEMPTS"
        ("Exceeded max attempts (" ++ pretty (maxAttempts item1) ++ ")") q1 in
  let '(q3, ds2) := notifyWaiters q2 in
  (q3, (ds1 ++ ds2)%list).

(** [getStats()] *)
Definition getStats (q : t) : QueueStats :=
  {| total := length (items q) + size (processing q) + size (completed q)
              + size (failed q) + size (skipped q);
     pending := length (items q);
     Types.processing := size (processing q);
     Types.completed := size (completed q);
     Types.failed := size (failed q);
     Types.skipped := size (skipped q) |}.

(** [isEmpty()] *)
Definition isEmpty (q : t) : bool :=
  bool_decide (items q = []) && bool_decide (size (processing q) = 0%nat).

(** [isComplete()] *)
Definition isComplete (q : t) : bool := closed q && isEmpty q.

(** [close()] *)
Definition close (q : t) : t * list Delivery :=
  ({| items := items q; processing := processing q; completed := completed q;
      failed := failed q; skipped := skipped q; closed := true;
      waiters := []; maxConcurrent := maxConcurrent q |},
   map (fun w => (w, None)) (waiters q)).

(** [createQueueItem(file, options)]; [uuid] is the value of
    [crypto.randomUUID()], and of [options] the three fields that the
    callers set are taken. *)
Definition createQueueItem (uuid : string) (f : ScannedFile) (optStage : option ProcessingStage)
    (optPriority : option Z) (optMaxAttempts : option nat) : QueueItem :=
  {| id := uuid; file := f; status := Pending;
     stage := default StScan optStage;
     priority := default 0%Z optPriority;
     attempts := 0;
     maxAttempts := default 3%nat optMaxAttempts;
     routedTo := None; outputPath := None; error := None |}.

End AsyncQueue.

(** ** The worker pool ([src/queue/worker-pool.ts]) *)

Module WorkerPool.
Import Types.

#[local] Abbreviation size := base.size (only parsing).

(** How the promise of [this.processor(item)] settles. [item'] is the
    item object as the processor left it (the processor receives a
    reference to it). When the promise is rejected, [elapsed] is the
    value of [Date.now() - startTime] in the [catch] block, in
    milliseconds. *)
Inductive Outcome :=
  | Returned (r : ProcessingResult) (item' : QueueItem)
  | Threw (message : string) (elapsed : Z) (item' : QueueItem).

(** Where a worker loop stands between two turns of the event loop. *)
Inductive Worker :=
  | Waiting                          (* [await dequeue()], promise pending *)
  | Resumed (r : option QueueItem)   (* [await dequeue()], promise resolved with [r] *)
  | Busy (item : QueueItem)          (* [await this.processor(item)] *)
  | Exited.

(** [workers] holds, for each promise pushed by [start], the state of
    its loop; a loop is known to the queue by its index in [workers].
    The progress callback has no effect on the pool and is left out. *)
Record t := {
  queue : AsyncQueue.t;
  workers : list Worker;
  results : list ProcessingResult;
  running : bool;
  workerCount : nat;
}.

(** [new WorkerPool(workerCount, processor)] *)
Definition new (workerCount : nat) : t :=
  {| queue := AsyncQueue.new workerCount; workers := []; results := [];
     running := false; workerCount := workerCount |}.

Definition withQueue (p : t) (q : AsyncQueue.t) (ws : list Worker) : t :=
  {| queue := q; workers := ws; results := results p; running := running p;
     workerCount := workerCount p |}.

(** The promises resolved by a queue operation. *)
Definition deliver (ds : list AsyncQueue.Delivery) (ws : list Worker) : list Worker :=
  foldl (fun acc d => <[fst d := Resumed (snd d)]> acc) ws ds.

(** [submit(item)]; when the queue throws, the pool is unchanged. *)
Definition submit (item : QueueItem) (p : t) : t :=
  match AsyncQueue.enqueue item (queue p) with
  | AsyncQueue.Ok (q, ds) => withQueue p q (deliver ds (workers p))
  | AsyncQueue.Throw _ => p
  end.

(** [submitMany(items)] *)
Definition submitMany (its : list QueueItem) (p : t) : t :=
  match AsyncQueue.enqueueMany its (queue p) with
  | AsyncQueue.Ok (q, ds) => withQueue p q (deliver ds (workers p))
  | AsyncQueue.Throw _ => p
  end.

(** The head of [workerLoop] for the loop at index [i]: the test of
    [this.running] and the call of [dequeue()], up to its [await]. *)
Definition loopHead (i : nat) (p : t) : t :=
  if running p then
    let '(q, d) := AsyncQueue.dequeue i (queue p) in
    let w := match d with
             | AsyncQueue.Got item => Resumed (Some item)
             | AsyncQueue.Sentinel => Resumed None
             | AsyncQueue.Suspended => Waiting
             end in
    withQueue p q (<[i := w]> (workers p))
  else withQueue p (queue p) (<[i := Exited]> (workers p)).

(** [this.workers.push(this.workerLoop(i))] *)
Definition spawn (p : t) : t :=
  let i := length (workers p) in
  loopHead i (withQueue p (queue p) (workers p ++ [Waiting])).

(** [start()] *)
Definition start (p : t) : t :=
  if running p then p
  else
    Nat.iter (workerCount p) spawn
      {| queue := queue p; workers := workers p; results := results p;
         running := true; workerCount := workerCount p |}.

(** The continuation of [await this.queue.dequeue()] in loop [i]. *)
Definition resume (i : nat) (p : t) : t :=
  match workers p !! i with
  | Some (Resumed None) => withQueue p (queue p) (<[i := Exited]> (workers p))
  | Some (Resumed (Some item)) =>
      withQueue p (queue p) (<[i := Busy (setStatus Processing item)]> (workers p))
  | _ => p
  end.

(** The result and the item after the [try]/[catch] around the call of
    the processor. *)
Definition settle (o : Outcome) : ProcessingResult * QueueItem :=
  match o with
  | Returned r item' => (r, item')
  | Threw msg elapsed item' =>
      ({| queueItem := id item'; success := false; resultPath := None;
          duration := elapsed; warnings := [] |},
       setError (Some {| code := "PROCESSOR_ERROR"; message := msg;
                         recoverable := false |}) item')
  end.

Definition isRecoverable (item : QueueItem) : bool :=
  match error item with
  | Some e => recoverable e
  | None => false
  end.

(** "Update queue state based on result" *)
Definition updateQueue (r : ProcessingResult) (item : QueueItem) (q : AsyncQueue.t)
    : AsyncQueue.t * list AsyncQueue.Delivery :=
  if success r then AsyncQueue.markCompleted item q
  else if isRecoverable item && (attempts item <? maxAttempts item)%nat then
    AsyncQueue.requeue item q
  else
    match error item with
    | Some e => AsyncQueue.markFailed item (code e) (message e) q
    | None => AsyncQueue.markFailed item "UNKNOWN" "Unknown error" q
    end.

(** The continuation of [await this.processor(item)] in loop [i], up to
    the next [await]: the rest of the loop body and the head of the
    next turn. *)
Definition finish (i : nat) (o : Outcome) (p : t) : t :=
  match workers p !! i with
  | Some (Busy _) =>
      let '(r, item) := settle o in
      let '(q, ds) := updateQueue r item (queue p) in
      loopHead i
        {| queue := q; workers := deliver ds (workers p);
           results := results p ++ [r]; running := running p;
           workerCount := workerCount p |}
  | _ => p
  end.

(** The synchronous part of [waitForCompletion()] and of [shutdown()]. *)
Definition closeQueue (p : t) : t :=
  let '(q, ds) := AsyncQueue.close (queue p) in
  withQueue p q (deliver ds (workers p)).

Definition stop (p : t) : t :=
  {| queue := queue p; workers := workers p; results := results p;
     running := false; workerCount := workerCount p |}.

Definition allExited (p : t) : bool :=
  forallb (fun w => match w with Exited => true | _ => false end) (workers p).

(** [waitForCompletion()] after [await Promise.all(this.workers)]: the
    pool and the returned list, once every loop has exited. *)
Definition completion (p : t) : option (t * list ProcessingResult) :=
  if allExited p then Some (stop p, results p) else None.

(** [shutdown()] up to its [await] *)
Definition shutdown (p : t) : t := closeQueue (stop p).

(** [getStats()] *)
Definition getStats (p : t) : QueueStats := AsyncQueue.getStats (queue p).

(** What can happen to a pool in one turn of the event loop. *)
Inductive Action :=
  | ASubmit (item : QueueItem)
  | ASubmitMany (its : list QueueItem)
  | AStart
  | AResume (i : nat)
  | AFinish (i : nat) (o : Outcome)
  | AWaitForCompletion
  | AJoin
  | AShutdown.

Definition step (a : Action) (p : t) : t :=
  match a with
  | ASubmit item => submit item p
  | ASubmitMany its => submitMany its p
  | AStart => start p
  | AResume i => resume i p
  | AFinish i o => finish i o p
  | AWaitForCompletion => closeQueue p
  | AJoin => match completion p with Some (p', _) => p' | None => p end
  | AShutdown => shutdown p
  end.

(** What the worker loops observe in one step: an item received from
    [await dequeue()], and a result pushed to [results]. *)
Inductive Event :=
  | Acquired (i : nat) (item : QueueItem)
  | Processed (i : nat) (r : ProcessingResult).

Definition observe (a : Action) (p : t) : list Event :=
  match a with
  | AResume i =>
      match workers p !! i with
      | Some (Resumed (Some item)) => [Acquired i item]
      | _ => []
      end
  | AFinish i o =>
      match workers p !! i with
      | Some (Busy _) => [Processed i (fst (settle o))]
      | _ => []
      end
  | _ => []
  end.

(** A sequence of steps, with what was observed on the way. *)
Fixpoint exec (tr : list Action) (p : t) : t * list Event :=
  match tr with
  | [] => (p, [])
  | a :: tr' =>
      let '(p', evs) := exec tr' (step a p) in
      (p', (observe a p ++ evs)%list)
  end.

Definition isAcquired (e : Event) : bool :=
  match e with Acquired _ _ => true | _ => false end.

Definition isProcessed (e : Event) : bool :=
  match e with Processed _ _ => true | _ => false end.

Definition acquisitionsOf (x : string) (evs : list Event) : nat :=
  length (filter (fun e => match e with
                           | Acquired _ item => bool_decide (id item = x)
                           | _ => false
                           end = true) evs).

(** The loops that hold an item: received and not yet reported. *)
Definition holdsItem (w : Worker) : bool :=
  match w with
  | Resumed (Some _) | Busy _ => true
  | _ => false
  end.

Section Run.
(** the processor of the pool, as the function from the item it is
    called with to how its promise settles *)
Variable processor : QueueItem -> Outcome.

(** The next turn of the event loop under the scheduler that serves
    the runnable loop of least index. *)
Definition nextAction (p : t) : option Action :=
  match list_find (fun w => match w with Resumed _ | Busy _ => true | _ => false end = true)
                  (workers p) with
  | Some (i, Busy item) => Some (AFinish i (processor item))
  | Some (i, _) => Some (AResume i)
  | None => None
  end.

Fixpoint schedule (fuel : nat) (p : t) : list Action :=
  match fuel with
  | O => []
  | S fuel' =>
      match nextAction p with
      | Some a => a :: schedule fuel' (step a p)
      | None => []
      end
  end.

End Run.

End WorkerPool.

(** ** Error log ([src/logging/error-logger.ts]) *)

Module ErrorLogger.

Inductive Level := LInfo | LWarn | LError.

(** [LogEntry], without its timestamp and context *)
Record LogEntry := {
  level : Level;
  code : option string;
  message : string;
  file : option string;
}.

(** [logWarning(message, file)]: the entry appended to the log *)
Definition logWarning (msg filePath : string) (log : list LogEntry) : list LogEntry :=
  log ++ [ {| level := LWarn; code := None; message := msg; file := Some filePath |} ].

End ErrorLogger.

(** ** Per-course processing ([src/core/app.ts]) *)

Module App.
Import Types.

Section ProcessCourse.
(** [String.prototype.toLowerCase], the working directory of the
    process and the successive values of [crypto.randomUUID()] *)
Variable toLowerCase : string -> string.
Variable cwd : string.
Variable uuid : nat -> string.

(** The state of the loop over [course.files]: [queueItems], the
    error log of the course and the number of items created. *)
Record Routed := {
  queueItems : list QueueItem;
  log : list ErrorLogger.LogEntry;
  created : nat;
}.

(** One turn of the loop "Create queue items from files". *)
Definition routeFile (validatedFilesPath : string) (st : Routed) (f : ScannedFile) : Routed :=
  let decision := FileRouter.routeByExtension toLowerCase f in
  if bool_decide (method decision = MUnsupported) then
    {| queueItems := queueItems st;
       log := ErrorLogger.logWarning ("Unsupported file type: " +:+ extension f) (path f)
                                     (log st);
       created := created st |}
  else if bool_decide (method decision = MSkip) then st
  else
    let out := OutputManager.getOutputPath cwd f validatedFilesPath (outputFormat decision) in
    let item := AsyncQueue.createQueueItem (uuid (created st)) f (Some StConvert) None None in
    let item' :=
      {| id := id item; file := file item; status := status item; stage := stage item;
         priority := priority item; attempts := attempts item;
         maxAttempts := maxAttempts item;
         routedTo := Some decision; outputPath := Some out; error := error item |} in
    {| queueItems := queueItems st ++ [item']; log := log st; created := S (created st) |}.

Definition routeFiles (validatedFilesPath : string) (files : list ScannedFile) : Routed :=
  foldl (routeFile validatedFilesPath) {| queueItems := []; log := []; created := 0 |} files.

(** [processCourse] outside dry-run mode, up to the return of
    [workerPool.start()]: the pool with the items submitted and the
    loops started, and the error log. *)
Definition processCourse (workers : nat) (validatedFilesPath : string)
    (files : list ScannedFile) : WorkerPool.t * list ErrorLogger.LogEntry :=
  let st := routeFiles validatedFilesPath files in
  (WorkerPool.start (WorkerPool.submitMany (queueItems st) (WorkerPool.new workers)),
   log st).

End ProcessCourse.

End App.

(** * Checks of the embedding on concrete inputs *)

Module PathTests.
Import JsString Path.

Example join_trailing : join "out/" "a_b.cpp" = "out/a_b.cpp".
Proof. vm_compute. reflexivity. Qed.

Example relative_nested :
  relative "/home" "/courses/Course1" "/courses/Course1/CODE/project1/main.cpp"
  = "CODE/project1/main.cpp".
Proof. vm_compute. reflexivity. Qed.

Example relative_up : relative "/w" "/a/b/c" "/a/d" = "../../d".
Proof. vm_compute. reflexivity. Qed.

Example dirname_nested : dirname "CODE/project1/main.cpp" = "CODE/project1".
Proof. vm_compute. reflexivity. Qed.

Example dirname_flat : dirname "main.cpp" = ".".
Proof. vm_compute. reflexivity. Qed.

Example extname_cases :
  map extname ["index.html"; "index.coffee.md"; "index."; "index"; ".index"; ".index.md"; ".."; "a.."]
  = [".html"; ".md"; "."; ""; ""; ".md"; ""; "."].
Proof. vm_compute. reflexivity. Qed.

Example basename_cases :
  map (fun n => basename n ".cpp") ["main.cpp"; "Main.CPP"; ".cpp"; "cpp"]
  = ["main"; "Main.CPP"; ""; "cpp"].
Proof. vm_compute. reflexivity. Qed.

End PathTests.

Module ScannerTests.
Import Types Constants Scanner.

Definition course1 : FsNode :=
  FsDir "Course1"
    [ FsFile "lesson1.srt" 10;
      FsFile "intro.MP4" 999;
      FsDir ".git" [FsFile "config" 1];
      FsDir "CODE"
        [ FsDir "__cc_validated_files" [FsFile "old.md" 3];
          FsDir "project1" [FsFile "main.cpp" 42; FsFile "song.mp3" 7;
                            FsFile "data.tar.gz" 8] ] ].

Example scan_course1 :
  map (fun f => (relativePath f, extension f, category f))
      (scanDirectory JsString.asciiLowerCase "/w" [] defaultOptions "Course1"
                     "/courses/Course1" "/courses/Course1" (Some course1))
  = [ ("lesson1.srt", ".srt", CatText);
      ("CODE/project1/main.cpp", ".cpp", CatCode);
      ("CODE/project1/data.tar.gz", ".tar.gz", CatArchive) ].
Proof. vm_compute. reflexivity. Qed.

End ScannerTests.

Module OutputTests.
Import Types.

Definition mainCpp : ScannedFile :=
  {| path := "/courses/Course1/CODE/project1/main.cpp";
     relativePath := "CODE/project1/main.cpp";
     name := "main.cpp"; extension := ".cpp"; size := 42;
     category := CatCode; courseId := "Course1";
     coursePath := "/courses/Course1" |}.

Example flat_file :
  OutputManager.getOutputPath "/w"
    {| path := "/c/C1/notes.md"; relativePath := "notes.md"; name := "notes.md";
       extension := ".md"; size := 1; category := CatText; courseId := "C1";
       coursePath := "/c/C1" |} "/c/C1/CODE/__cc_validated_files" (Some ".md")
  = "/c/C1/CODE/__cc_validated_files/notes.md".
Proof. vm_compute. reflexivity. Qed.

Example override_pdf :
  OutputManager.getOutputPath "/w"
    {| path := "/c/C1/docs/a/slides.pdf"; relativePath := "docs/a/slides.pdf";
       name := "slides.pdf"; extension := ".pdf"; size := 1; category := CatDocument;
       courseId := "C1"; coursePath := "/c/C1" |} "out" (Some ".md")
  = "out/docs_a_slides.md".
Proof. vm_compute. reflexivity. Qed.

Example routes :
  map (fun e => method (SkillRegistry.getRoutingDecision JsString.asciiLowerCase e))
      [".mp4"; ".MP3"; ".cpp"; ".pdf"; ".zip"; ".tar.xz"; ".xyz"; ""; ".webp"]
  = [MSkip; MSkip; MPassthrough; MSkill; MArchive; MUnsupported; MUnsupported;
     MUnsupported; MUnsupported].
Proof. vm_compute. reflexivity. Qed.

(** A property name of [Object.prototype] is found by
    [SKILL_MAPPINGS[ext]] when lower-casing leaves it as it is. *)
Example routes_inherited :
  map (fun e => let d := SkillRegistry.getRoutingDecision JsString.asciiLowerCase e in
                (method d, skillName d, outputFormat d))
      ["constructor"; "__proto__"; "toString"; ".constructor"]
  = [(MSkill, None, None); (MSkill, None, None); (MUnsupported, None, None);
     (MUnsupported, None, None)].
Proof. vm_compute. reflexivity. Qed.

End OutputTests.

(** * Properties *)

(** ** Scanner: media files are dropped at the source *)

Module ScannerSpec.
Import JsString Types Constants Scanner.

(** Induction on a file-system tree, with the hypothesis available for
    every entry of a directory. *)
Fixpoint FsNode_nested_ind (P : FsNode -> Prop)
    (Hfile : forall e b, P (FsFile e b))
    (Hdir : forall e entries, Forall P entries -> P (FsDir e entries))
    (Hunreadable : forall e, P (FsUnreadableDir e))
    (Hother : forall e, P (FsOther e))
    (Hbroken : forall e, P (FsBroken e))
    (n : FsNode) {struct n} : P n :=
  match n with
  | FsFile e b => Hfile e b
  | FsDir e entries =>
      Hdir e entries
        ((fix all (l : list FsNode) : Forall P l :=
            match l with
            | [] => @List.Forall_nil _ P
            | x :: l' =>
                @List.Forall_cons _ P x l'
                  (FsNode_nested_ind P Hfile Hdir Hunreadable Hother Hbroken x) (all l')
            end) entries)
  | FsUnreadableDir e => Hunreadable e
  | FsOther e => Hother e
  | FsBroken e => Hbroken e
  end.

(** Every extension of the skip-set is categorised as video or audio:
    no earlier key of [FILE_EXTENSIONS] lists one of them. *)
Lemma categorizeFile_skip ext :
  ext ∈ SKIP_EXTENSIONS -> categorizeFile ext = CatVideo \/ categorizeFile ext = CatAudio.
Proof.
  unfold SKIP_EXTENSIONS. rewrite elem_of_list_to_set.
  cbv [extensionsOf list_find FILE_EXTENSIONS fst snd decide decide_rel
       FileCategory_eq_dec FileCategory_rec FileCategory_rect fmap option_fmap option_map
       prod_map app].
  intros H.
  repeat (apply elem_of_cons in H as [-> | H]; [vm_compute; auto |]).
  by apply elem_of_nil in H.
Qed.

Definition keptByScanner (f : ScannedFile) : Prop :=
  category f = categorizeFile (extension f)
  /\ category f <> CatVideo /\ category f <> CatAudio.

Lemma keptByScanner_not_skipped f :
  keptByScanner f -> extension f ∉ SKIP_EXTENSIONS.
Proof.
  intros (Hc & Hv & Ha) Hin.
  destruct (categorizeFile_skip _ Hin); congruence.
Qed.

Section Scan.
Variable toLowerCase : string -> string.
Variable cwd : string.
Variable excludePatterns : list (string -> bool).
Variable options : ScanOptions.
Variables course root : string.

Lemma scanEntry_kept node :
  forall currentPath,
    Forall keptByScanner
           (scanEntry toLowerCase cwd excludePatterns options course root currentPath node).
Proof.
  induction node as [e b | e entries IH | e | e | e] using FsNode_nested_ind;
    intros currentPath; simpl;
    destruct (negb (includeHidden options) && startsWith _ ".")%bool; try constructor;
    destruct (startsWith _ "__cc"); try constructor;
    destruct (shouldExclude _ _); try constructor.
  - destruct (bool_decide (categorizeFile (getExtension toLowerCase e) = CatVideo)) eqn:Hv;
      [constructor |].
    destruct (bool_decide (categorizeFile (getExtension toLowerCase e) = CatAudio)) eqn:Ha;
      [constructor |].
    simpl. constructor; [| constructor].
    apply bool_decide_eq_false in Hv, Ha. by repeat split.
  - destruct (recursive options); [| constructor].
    induction IH as [| n l Hn _ IHl]; [constructor |].
    apply Forall_app. split; [apply Hn | apply IHl].
Qed.

Lemma scanDirectory_kept dirPath node :
  Forall keptByScanner
         (scanDirectory toLowerCase cwd excludePatterns options course root dirPath node).
Proof.
  destruct node as [[e b | e entries | e | e | e] |]; simpl; try constructor.
  unfold scanRecursive. induction entries as [| n l IH]; simpl; [constructor |].
  apply Forall_app. split; [apply scanEntry_kept | apply IH].
Qed.

End Scan.

(** [path.extname] returns the empty string or a suffix that begins
    with the last dot of the name. *)
Lemma extnameScan_dot (l : list ascii) :
  forall rs tail i startDot preDotState d st,
    l = (rev rs ++ tail)%list -> i = (length rs - 1)%nat ->
    (forall d0, startDot = Some d0 -> l !! d0 = Some Path.dot) ->
    Path.extnameScan rs i startDot preDotState = (Some d, st) ->
    l !! d = Some Path.dot.
Proof.
  induction rs as [| c rs IH]; intros tail i startDot preDotState d st Hl Hi Hsd Hscan.
  - cbn in Hscan. injection Hscan as -> _. by apply Hsd.
  - cbn [Path.extnameScan] in Hscan.
    assert (Hl' : l = (rev rs ++ c :: tail)%list).
    { rewrite Hl. cbn [rev]. by rewrite <- app_assoc. }
    assert (Hc : l !! i = Some c).
    { assert (Hlen : i = length (rev rs)) by (rewrite length_rev, Hi; cbn [length]; lia).
      rewrite Hl', Hlen, lookup_app_r by lia. by rewrite Nat.sub_diag. }
    assert (Hi' : (i - 1)%nat = (length rs - 1)%nat) by (rewrite Hi; cbn [length]; lia).
    case_bool_decide as Hdot.
    + subst c. destruct startDot as [d0 |].
      * by apply (IH (Path.dot :: tail) _ _ _ _ _ Hl' Hi' Hsd Hscan).
      * apply (IH (Path.dot :: tail) _ _ _ _ _ Hl' Hi') in Hscan; [done |].
        by intros d0 [= <-].
    + destruct startDot as [d0 |];
        by apply (IH (c :: tail) _ _ _ _ _ Hl' Hi' Hsd Hscan).
Qed.

Lemma chars_length s : length (chars s) = String.length s.
Proof. unfold chars. induction s as [| c s IH]; [done |]. cbn. by rewrite IH. Qed.

Lemma extname_dotted name :
  Path.extname name = "" \/ startsWith (Path.extname name) "." = true.
Proof.
  unfold Path.extname.
  destruct (Path.extnameScan _ _ None 0%Z) as [[d |] st] eqn:Hscan; [| by left].
  destruct (_ || _ || _)%bool; [by left |]. right.
  apply (extnameScan_dot (chars name) _ [] _ _ _ _ _) in Hscan.
  - rewrite (drop_S _ _ _ Hscan). unfold startsWith, ofChars, Path.dot. cbn.
    by destruct (string_of_list_ascii _).
  - by rewrite rev_involutive, app_nil_r.
  - by rewrite length_rev, chars_length.
  - done.
Qed.

(** The extension that the scanner records is empty or begins with a
    dot, given that lower-casing keeps the empty string and a leading
    dot. *)
Lemma getExtension_dotted (toLowerCase : string -> string) filename :
  toLowerCase "" = "" ->
  (forall s, startsWith s "." = true -> startsWith (toLowerCase s) "." = true) ->
  getExtension toLowerCase filename = ""
  \/ startsWith (getExtension toLowerCase filename) "." = true.
Proof.
  intros Hempty Hdot. unfold getExtension.
  destruct (list_find _ _) as [[i ext] |] eqn:Hf.
  - apply list_find_Some in Hf as (Hl & _ & _). right.
    destruct i as [| [| [| i]]]; cbn in Hl; try done; by injection Hl as <-.
  - destruct (extname_dotted filename) as [-> | Hs]; [by left | right; by apply Hdot].
Qed.

(** The lower-casing of ASCII strings keeps the empty string and a
    leading dot, and lower-casing twice is lower-casing once. *)
Lemma lowerChar_idempotent c : lowerChar (lowerChar c) = lowerChar c.
Proof. by destruct c as [[] [] [] [] [] [] [] []]. Qed.

Lemma asciiLowerCase_idempotent s : asciiLowerCase (asciiLowerCase s) = asciiLowerCase s.
Proof.
  unfold asciiLowerCase, chars, ofChars.
  rewrite list_ascii_of_string_of_list_ascii. f_equal.
  induction (list_ascii_of_string s) as [| c l IH]; [done |].
  cbn [map]. by rewrite lowerChar_idempotent, IH.
Qed.

Lemma asciiLowerCase_dot s :
  startsWith s "." = true -> startsWith (asciiLowerCase s) "." = true.
Proof.
  destruct s as [| c s]; [done |]. unfold startsWith. cbn [String.prefix].
  destruct (Ascii.ascii_dec "." c) as [<- |]; [| done]. intros _.
  unfold asciiLowerCase, chars, ofChars.
  cbn [list_ascii_of_string map string_of_list_ascii].
  change (lowerChar ".") with "."%char. cbn [String.prefix].
  destruct (Ascii.ascii_dec "." "."); [| done].
  by destruct (string_of_list_ascii _).
Qed.

(** C7. Whatever the directory tree, the exclusion patterns and the
    options (and whatever the lower-casing of names does outside
    ASCII), no file returned by [scanDirectory] has an extension of
    the skip-set (the video and audio extensions), and none has the
    category video or audio: such files are dropped while scanning. *)
Theorem scanner_output_has_no_media
    toLowerCase cwd excludePatterns options course root dirPath node :
  Forall (fun f => (extension f ∉ SKIP_EXTENSIONS)
                   /\ category f <> CatVideo /\ category f <> CatAudio)
         (scanDirectory toLowerCase cwd excludePatterns options course root dirPath node).
Proof.
  eapply Forall_impl; [apply scanDirectory_kept |].
  intros f Hf. split; [by apply keptByScanner_not_skipped | apply Hf].
Qed.

End ScannerSpec.

(** ** Router: precedence of the tables, and what reaches the queue *)

Module RouterSpec.
Import JsString Types Constants SkillRegistry.

#[local] Arguments getRoutingDecision : simpl never.
#[local] Arguments OutputManager.getOutputPath : simpl never.
#[local] Arguments FileRouter.routeByExtension : simpl never.

(** No key of a table is a property name of [Object.prototype], and
    no such name is empty or begins with a dot. *)
Lemma prototypeKey_cases (P : string -> Prop) :
  Forall P objectPrototypeKeys -> forall e, e ∈ objectPrototypeKeys -> P e.
Proof. intros H e He. by apply (proj1 (Forall_forall _ _) H). Qed.

Lemma prototypeKey_untabled e :
  e ∈ objectPrototypeKeys ->
  (e ∉ SKIP_EXTENSIONS) /\ (e ∉ TEXT_EXTENSIONS) /\ SKILL_MAPPINGS !! e = None.
Proof.
  revert e. apply prototypeKey_cases.
  repeat (apply Forall_cons; split;
          [ split; [| split];
            [ intros Hin; apply (bool_decide_eq_true_2 _) in Hin; vm_compute in Hin;
              discriminate
            | intros Hin; apply (bool_decide_eq_true_2 _) in Hin; vm_compute in Hin;
              discriminate
            | vm_compute; reflexivity ] |]).
  apply Forall_nil_2.
Qed.

Lemma dotted_not_prototypeKey e :
  e = "" \/ startsWith e "." = true -> e ∉ objectPrototypeKeys.
Proof.
  intros He Hin. revert e Hin He.
  refine (prototypeKey_cases (fun e => e = "" \/ startsWith e "." = true -> False) _).
  repeat (apply Forall_cons; split; [by intros [? | ?] |]).
  apply Forall_nil_2.
Qed.

Section Lowering.
Variable toLowerCase : string -> string.

Lemma decision_skip ext :
  toLowerCase ext ∈ SKIP_EXTENSIONS ->
  method (getRoutingDecision toLowerCase ext) = MSkip.
Proof. intros H. unfold getRoutingDecision. by rewrite bool_decide_eq_true_2. Qed.

Lemma decision_passthrough ext :
  toLowerCase ext ∉ SKIP_EXTENSIONS -> toLowerCase ext ∈ TEXT_EXTENSIONS ->
  method (getRoutingDecision toLowerCase ext) = MPassthrough.
Proof.
  intros Hs Ht. unfold getRoutingDecision.
  rewrite bool_decide_eq_false_2 by done. by rewrite bool_decide_eq_true_2.
Qed.

Lemma decision_mapped ext skill fmt :
  toLowerCase ext ∉ SKIP_EXTENSIONS -> toLowerCase ext ∉ TEXT_EXTENSIONS ->
  SKILL_MAPPINGS !! toLowerCase ext = Some (skill, fmt) ->
  method (getRoutingDecision toLowerCase ext)
  = (if bool_decide (fmt = "directory") then MArchive else MSkill)
  /\ skillName (getRoutingDecision toLowerCase ext) = Some skill
  /\ outputFormat (getRoutingDecision toLowerCase ext) = Some fmt.
Proof.
  intros Hs Ht Hm. unfold getRoutingDecision, lookupMapping.
  rewrite !bool_decide_eq_false_2 by done. rewrite Hm.
  by destruct (bool_decide (fmt = "directory")).
Qed.

Lemma decision_unsupported ext :
  toLowerCase ext ∉ SKIP_EXTENSIONS -> toLowerCase ext ∉ TEXT_EXTENSIONS ->
  SKILL_MAPPINGS !! toLowerCase ext = None ->
  toLowerCase ext ∉ objectPrototypeKeys ->
  method (getRoutingDecision toLowerCase ext) = MUnsupported.
Proof.
  intros Hs Ht Hm Hk. unfold getRoutingDecision, lookupMapping, includes.
  rewrite !bool_decide_eq_false_2 by done. by rewrite Hm.
Qed.

Lemma decision_inherited ext :
  toLowerCase ext ∈ objectPrototypeKeys ->
  method (getRoutingDecision toLowerCase ext) = MSkill
  /\ skillName (getRoutingDecision toLowerCase ext) = None
  /\ outputFormat (getRoutingDecision toLowerCase ext) = None.
Proof.
  intros Hk. destruct (prototypeKey_untabled _ Hk) as (Hs & Ht & Hm).
  unfold getRoutingDecision, lookupMapping, includes.
  rewrite !bool_decide_eq_false_2 by done. rewrite Hm.
  by rewrite bool_decide_eq_true_2.
Qed.

(** The loop of [processCourse] as two filters of [course.files]. *)
Definition isUnsupported (f : ScannedFile) : bool :=
  bool_decide (method (FileRouter.routeByExtension toLowerCase f) = MUnsupported).

Definition isQueued (f : ScannedFile) : bool :=
  negb (isUnsupported f)
  && negb (bool_decide (method (FileRouter.routeByExtension toLowerCase f) = MSkip)).

Definition warningFor (f : ScannedFile) : ErrorLogger.LogEntry :=
  {| ErrorLogger.level := ErrorLogger.LWarn; ErrorLogger.code := None;
     ErrorLogger.message := "Unsupported file type: " +:+ extension f;
     ErrorLogger.file := Some (path f) |}.

Section ProcessCourse.
Variable cwd : string.
Variable uuid : nat -> string.
Variable validatedFilesPath : string.

Lemma routeFiles_from st files :
  let st' := foldl (App.routeFile toLowerCase cwd uuid validatedFilesPath) st files in
  map file (App.queueItems st')
    = (map file (App.queueItems st) ++ filter (fun f => isQueued f = true) files)%list
  /\ App.log st' = (App.log st ++ map warningFor (filter (fun f => isUnsupported f = true) files))%list.
Proof.
  revert st. induction files as [| f files IH]; intros st.
  - cbn [foldl]. by rewrite !filter_nil, !app_nil_r.
  - cbn [foldl].
    destruct (IH (App.routeFile toLowerCase cwd uuid validatedFilesPath st f)) as [Hq Hl].
    cbv zeta. rewrite Hq, Hl. clear IH Hq Hl.
    rewrite !filter_cons.
    unfold App.routeFile, isQueued, isUnsupported.
    remember (FileRouter.routeByExtension toLowerCase f) as decision eqn:Hd.
    destruct (decide (method decision = MUnsupported)) as [Hu | Hu].
    + rewrite (bool_decide_eq_true_2 _ Hu).
      cbn [negb andb App.queueItems App.log].
      rewrite decide_False, decide_True by done.
      split; [done |].
      unfold ErrorLogger.logWarning. cbn [map]. by rewrite <- app_assoc.
    + rewrite (bool_decide_eq_false_2 _ Hu). cbn [negb andb].
      rewrite (decide_False (P := false = true)) by done.
      destruct (decide (method decision = MSkip)) as [Hs | Hs].
      * rewrite (bool_decide_eq_true_2 _ Hs). cbn [negb].
        by rewrite decide_False by done.
      * rewrite (bool_decide_eq_false_2 _ Hs). cbn [negb App.queueItems App.log].
        rewrite decide_True by done.
        split; [| done].
        rewrite map_app. cbn [map file]. by rewrite <- app_assoc.
Qed.

Lemma routeFiles_spec files :
  map file (App.queueItems (App.routeFiles toLowerCase cwd uuid validatedFilesPath files))
    = filter (fun f => isQueued f = true) files
  /\ App.log (App.routeFiles toLowerCase cwd uuid validatedFilesPath files)
    = map warningFor (filter (fun f => isUnsupported f = true) files).
Proof. apply (routeFiles_from {| App.queueItems := []; App.log := []; App.created := 0 |}). Qed.

End ProcessCourse.

End Lowering.

End RouterSpec.

(** ** Queue: ordering of the pending items *)

Module QueueOrder.
Import Types AsyncQueue.

Definition byPriority (a b : QueueItem) : Prop := (priority a <= priority b)%Z.

(** the items of priority [p], in the order in which the list holds them *)
Definition ofPriority (p : Z) (l : list QueueItem) : list QueueItem :=
  filter (fun x => priority x = p) l.

Lemma filter_none {A} (P : A -> Prop) `{forall x, Decision (P x)} (l : list A) :
  Forall (fun x => ~ P x) l -> filter P l = [].
Proof.
  induction 1 as [| x l Hx _ IH]; [done |].
  by rewrite filter_cons, decide_False.
Qed.

Lemma ofPriority_app p l1 l2 :
  ofPriority p (l1 ++ l2) = (ofPriority p l1 ++ ofPriority p l2)%list.
Proof. apply filter_app. Qed.

Lemma insertByPriority_perm x l : insertByPriority x l ≡ₚ x :: l.
Proof.
  induction l as [| y l IH]; simpl; [done |].
  destruct (priority y <=? priority x)%Z; [| done].
  rewrite IH. apply Permutation_swap.
Qed.

Lemma foldl_insert_perm l acc :
  foldl (fun acc x => insertByPriority x acc) acc l ≡ₚ acc ++ l.
Proof.
  revert acc. induction l as [| x l IH]; intros acc; simpl.
  - by rewrite app_nil_r.
  - rewrite IH, insertByPriority_perm. simpl. apply Permutation_middle.
Qed.

Lemma sortByPriority_perm l : sortByPriority l ≡ₚ l.
Proof. apply (foldl_insert_perm l []). Qed.

Lemma insertByPriority_sorted x l :
  StronglySorted byPriority l -> StronglySorted byPriority (insertByPriority x l).
Proof.
  induction 1 as [| y l Hl IH Hy]; simpl.
  - repeat constructor.
  - destruct (priority y <=? priority x)%Z eqn:Hc.
    + constructor; [done |].
      rewrite insertByPriority_perm. constructor; [| done].
      unfold byPriority. lia.
    + constructor; [by constructor |].
      constructor; [unfold byPriority; lia |].
      eapply Forall_impl; [exact Hy |]. unfold byPriority. intros z Hz. lia.
Qed.

Lemma foldl_insert_sorted l acc :
  StronglySorted byPriority acc ->
  StronglySorted byPriority (foldl (fun acc x => insertByPriority x acc) acc l).
Proof.
  revert acc. induction l as [| x l IH]; intros acc Hacc; simpl; [done |].
  by apply IH, insertByPriority_sorted.
Qed.

Lemma sortByPriority_sorted l : StronglySorted byPriority (sortByPriority l).
Proof. apply foldl_insert_sorted. constructor. Qed.

(** Inserting into a sorted list puts the item behind every item of its
    own priority. *)
Lemma insertByPriority_stable p x l :
  StronglySorted byPriority l ->
  ofPriority p (insertByPriority x l) = ofPriority p (l ++ [x]).
Proof.
  unfold ofPriority. induction 1 as [| y l Hl IH Hy]; simpl; [done |].
  destruct (priority y <=? priority x)%Z eqn:Hc.
  - rewrite !filter_cons, IH. done.
  - rewrite !filter_cons, filter_app, !filter_cons, filter_nil.
    assert (Hnone : forall q, (q <= priority x)%Z ->
                              filter (fun z => priority z = q) l = []).
    { intros q Hq. apply filter_none.
      eapply Forall_impl; [exact Hy |]. unfold byPriority. intros z Hz. lia. }
    apply Z.leb_gt in Hc.
    repeat case_decide; subst; rewrite ?app_nil_r; try lia; try done.
    by rewrite (Hnone (priority x)) by lia.
Qed.

Lemma foldl_insert_stable p l acc :
  StronglySorted byPriority acc ->
  ofPriority p (foldl (fun acc x => insertByPriority x acc) acc l)
  = ofPriority p (acc ++ l).
Proof.
  revert acc. induction l as [| x l IH]; intros acc Hacc; simpl.
  - by rewrite app_nil_r.
  - rewrite IH by by apply insertByPriority_sorted.
    change (x :: l) with ([x] ++ l)%list.
    rewrite !ofPriority_app, insertByPriority_stable, ofPriority_app by done.
    by rewrite <- app_assoc.
Qed.

(** The sort keeps the items of each priority in the order of the
    array it is applied to. *)
Lemma sortByPriority_stable p l : ofPriority p (sortByPriority l) = ofPriority p l.
Proof. apply (foldl_insert_stable p l []). constructor. Qed.

(** A sorted list is determined by its items of each priority: two
    stable sorts of the same array agree, whatever the algorithm. *)
Lemma sorted_stable_unique l1 l2 :
  StronglySorted byPriority l1 -> StronglySorted byPriority l2 ->
  (forall p, ofPriority p l1 = ofPriority p l2) ->
  l1 = l2.
Proof.
  intros H1. revert l2. induction H1 as [| x l1 Hl1 IH Hx]; intros l2 H2 Heq.
  - destruct l2 as [| y l2]; [done |].
    specialize (Heq (priority y)). unfold ofPriority in Heq.
    rewrite filter_nil, filter_cons, decide_True in Heq by done. done.
  - destruct H2 as [| y l2 Hl2 Hy].
    { specialize (Heq (priority x)). unfold ofPriority in Heq.
      rewrite filter_nil, filter_cons, decide_True in Heq by done. done. }
    assert (Hxy : priority x = priority y).
    { assert (Hxin : x ∈ y :: l2).
      { pose proof (Heq (priority x)) as E. unfold ofPriority in E.
        rewrite (filter_cons _ x), decide_True in E by done.
        assert (Hin : x ∈ filter (fun z => priority z = priority x) (y :: l2))
          by (rewrite <- E; left).
        by apply list_elem_of_filter in Hin as [_ ?]. }
      assert (Hyin : y ∈ x :: l1).
      { pose proof (Heq (priority y)) as E. unfold ofPriority in E.
        rewrite (filter_cons _ y), decide_True in E by done.
        assert (Hin : y ∈ filter (fun z => priority z = priority y) (x :: l1))
          by (rewrite E; left).
        by apply list_elem_of_filter in Hin as [_ ?]. }
      assert (priority y <= priority x)%Z.
      { apply elem_of_cons in Hxin as [-> | Hin]; [lia |].
        rewrite Forall_forall in Hy. apply (Hy _ Hin). }
      assert (priority x <= priority y)%Z.
      { apply elem_of_cons in Hyin as [-> | Hin]; [lia |].
        rewrite Forall_forall in Hx. apply (Hx _ Hin). }
      lia. }
    pose proof (Heq (priority x)) as E. unfold ofPriority in E.
    rewrite !filter_cons, !decide_True in E by done.
    injection E as -> Etail. f_equal.
    apply IH; [done |]. intros p. specialize (Heq p). unfold ofPriority in *.
    rewrite !filter_cons in Heq.
    destruct (decide (priority y = p)); [by injection Heq | done].
Qed.

End QueueOrder.

(** ** Queue: the concurrency limit *)

Module QueueBound.
Import Types AsyncQueue.

#[local] Abbreviation size := base.size (only parsing).

(** The limit is the one the queue was built with, and no more ids
    than the limit are in [processing]. *)
Definition within (limit : nat) (q : t) : Prop :=
  maxConcurrent q = limit /\ size (processing q) <= limit.

Lemma size_add_le (x : string) (X : gset string) : size ({[x]} ∪ X) <= S (size X).
Proof.
  rewrite size_union_alt, size_singleton.
  assert (Hsub : X ∖ {[x]} ⊆ X) by by apply subseteq_difference_l.
  apply subseteq_size in Hsub. lia.
Qed.

Lemma size_remove_le (x : string) (X : gset string) : size (X ∖ {[x]}) <= size X.
Proof. by apply subseteq_size, subseteq_difference_l. Qed.

Lemma notifyLoop_bounded maxC ws its proc :
  size proc <= maxC -> size (notifyLoop maxC ws its proc).1.2 <= maxC.
Proof.
  revert its proc. induction ws as [| w ws IH]; intros its proc Hle; simpl; [done |].
  destruct its as [| item its]; simpl; [done |].
  destruct (size proc <? maxC)%nat eqn:Hlt; simpl; [| done].
  apply Nat.ltb_lt in Hlt.
  specialize (IH its ({[id item]} ∪ proc)).
  destruct (notifyLoop maxC ws its ({[id item]} ∪ proc)) as [[[ws2 its2] proc2] ds].
  simpl in *. apply IH. pose proof (size_add_le (id item) proc). lia.
Qed.

Lemma notifyWaiters_within limit q :
  within limit q -> within limit (notifyWaiters q).1.
Proof.
  intros [Hmax Hle]. unfold notifyWaiters.
  pose proof (notifyLoop_bounded (maxConcurrent q) (waiters q) (items q) (processing q)) as H.
  destruct (notifyLoop _ _ _ _) as [[[ws2 its2] proc2] ds]. simpl in *.
  split; [done |]. rewrite <- Hmax. apply H. lia.
Qed.

(** Changing the pending items and the waiters does not touch the bound. *)
Lemma withPending_within limit q its proc ws :
  maxConcurrent q = limit -> size proc <= limit -> within limit (withPending q its proc ws).
Proof. by split. Qed.

Lemma enqueueMany_within limit its q q' ds :
  within limit q -> enqueueMany its q = Ok (q', ds) -> within limit q'.
Proof.
  intros [Hmax Hle]. unfold enqueueMany. destruct (closed q); [done |].
  intros [= E]. change q' with (q', ds).1. rewrite <- E.
  by apply notifyWaiters_within, withPending_within.
Qed.

Lemma enqueue_within limit item q q' ds :
  within limit q -> enqueue item q = Ok (q', ds) -> within limit q'.
Proof.
  intros [Hmax Hle]. unfold enqueue. destruct (closed q); [done |].
  intros [= E]. change q' with (q', ds).1. rewrite <- E.
  by apply notifyWaiters_within, withPending_within.
Qed.

Lemma dequeue_within limit w q : within limit q -> within limit (dequeue w q).1.
Proof.
  intros [Hmax Hle]. unfold dequeue.
  destruct (closed q && bool_decide (items q = [])); [done |].
  destruct (items q) as [| item rest].
  - destruct (closed q); by split.
  - destruct (size (processing q) <? maxConcurrent q)%nat eqn:Hlt.
    + apply Nat.ltb_lt in Hlt. split; [done |]. simpl.
      pose proof (size_add_le (id item) (processing q)). lia.
    + destruct (closed q); by split.
Qed.

Lemma markCompleted_within limit item q :
  within limit q -> within limit (markCompleted item q).1.
Proof.
  intros [Hmax Hle]. apply notifyWaiters_within. split; [done |]. simpl.
  pose proof (size_remove_le (id item) (processing q)). lia.
Qed.

Lemma markFailed_within limit item c m q :
  within limit q -> within limit (markFailed item c m q).1.
Proof.
  intros [Hmax Hle]. apply notifyWaiters_within. split; [done |]. simpl.
  pose proof (size_remove_le (id item) (processing q)). lia.
Qed.

Lemma markSkipped_within limit item reason q :
  within limit q -> within limit (markSkipped item reason q).1.
Proof.
  intros [Hmax Hle]. apply notifyWaiters_within. split; [done |]. simpl.
  pose proof (size_remove_le (id item) (processing q)). lia.
Qed.

Lemma requeue_within limit item q : within limit q -> within limit (requeue item q).1.
Proof.
  intros [Hmax Hle]. unfold requeue.
  set (q1 := withPending q (items q) (processing q ∖ {[id item]}) (waiters q)).
  assert (H1 : within limit q1).
  { split; [done |]. simpl. pose proof (size_remove_le (id item) (processing q)). lia. }
  destruct (_ <? _)%nat.
  - match goal with
    | |- context [notifyWaiters ?q2] =>
        pose proof (notifyWaiters_within limit q2 H1) as H3;
        by destruct (notifyWaiters q2) as [q3 ds2]
    end.
  - pose proof (markFailed_within limit (setAttempts (attempts item + 1) item)
                  "MAX_ATTEMPTS"
                  ("Exceeded max attempts ("
                   +:+ pretty (maxAttempts (setAttempts (attempts item + 1) item)) +:+ ")")
                  q1 H1) as H2.
    destruct (markFailed _ _ _ q1) as [q2 ds1]. simpl in H2.
    pose proof (notifyWaiters_within limit q2 H2) as H3.
    by destruct (notifyWaiters q2) as [q3 ds2].
Qed.

Lemma close_within limit q : within limit q -> within limit (close q).1.
Proof. by intros [Hmax Hle]. Qed.

Lemma new_within limit : within limit (new limit).
Proof.
  split; [done |]. unfold new, processing. rewrite size_empty. lia.
Qed.

(** The calls a client can make on a queue, and their effect on it. *)
Inductive Call :=
  | CEnqueue (item : QueueItem)
  | CEnqueueMany (its : list QueueItem)
  | CDequeue (w : Waiter)
  | CMarkCompleted (item : QueueItem)
  | CMarkFailed (item : QueueItem) (errCode errMessage : string)
  | CMarkSkipped (item : QueueItem) (reason : string)
  | CRequeue (item : QueueItem)
  | CClose.

Definition call (c : Call) (q : t) : t :=
  match c with
  | CEnqueue item => match enqueue item q with Ok r => r.1 | Throw _ => q end
  | CEnqueueMany its => match enqueueMany its q with Ok r => r.1 | Throw _ => q end
  | CDequeue w => (dequeue w q).1
  | CMarkCompleted item => (markCompleted item q).1
  | CMarkFailed item errCode errMessage => (markFailed item errCode errMessage q).1
  | CMarkSkipped item reason => (markSkipped item reason q).1
  | CRequeue item => (requeue item q).1
  | CClose => (close q).1
  end.

Definition calls (cs : list Call) (q : t) : t := foldl (fun q c => call c q) q cs.

Lemma call_within limit c q : within limit q -> within limit (call c q).
Proof.
  intros H. destruct c; simpl.
  - destruct (enqueue item q) as [[q' ds] |] eqn:E; [| done].
    by eapply enqueue_within.
  - destruct (enqueueMany its q) as [[q' ds] |] eqn:E; [| done].
    by eapply enqueueMany_within.
  - by apply dequeue_within.
  - by apply markCompleted_within.
  - by apply markFailed_within.
  - by apply markSkipped_within.
  - by apply requeue_within.
  - by apply close_within.
Qed.

Lemma calls_within limit cs q : within limit q -> within limit (calls cs q).
Proof.
  revert q. induction cs as [| c cs IH]; intros q H; simpl; [done |].
  by apply IH, call_within.
Qed.

End QueueBound.

(** ** Queue: what is handed to suspended callers *)

Module QueueDelivery.
Import Types AsyncQueue.

(** the items handed out by a list of deliveries, in order *)
Definition delivered (ds : list Delivery) : list QueueItem := omap snd ds.

(** [ds] resolves the first waiters of [q], and [q'] keeps the others. *)
Definition resolves (q q' : t) (ds : list Delivery) : Prop :=
  waiters q = (map fst ds ++ waiters q')%list.

Lemma notifyLoop_waiters maxC ws its proc :
  ws = (map fst (notifyLoop maxC ws its proc).2 ++ (notifyLoop maxC ws its proc).1.1.1)%list.
Proof.
  revert its proc. induction ws as [| w ws IH]; intros its proc; simpl; [done |].
  destruct its as [| item its]; simpl; [done |].
  destruct (base.size proc <? maxC)%nat; simpl; [| done].
  specialize (IH its ({[id item]} ∪ proc)).
  destruct (notifyLoop maxC ws its ({[id item]} ∪ proc)) as [[[ws2 its2] proc2] ds].
  simpl in *. by f_equal.
Qed.

Lemma notifyLoop_items maxC ws its proc :
  its = (delivered (notifyLoop maxC ws its proc).2 ++ (notifyLoop maxC ws its proc).1.1.2)%list.
Proof.
  revert its proc. induction ws as [| w ws IH]; intros its proc; simpl; [done |].
  destruct its as [| item its]; simpl; [done |].
  destruct (base.size proc <? maxC)%nat; simpl; [| done].
  specialize (IH its ({[id item]} ∪ proc)).
  destruct (notifyLoop maxC ws its ({[id item]} ∪ proc)) as [[[ws2 its2] proc2] ds].
  simpl in *. unfold delivered in *. simpl. by f_equal.
Qed.

(** With nobody suspended, [notifyWaiters] changes nothing. *)
Lemma notifyWaiters_idle q : waiters q = [] -> notifyWaiters q = (q, []).
Proof.
  intros Hw. unfold notifyWaiters. rewrite Hw. simpl. by destruct q; simpl in *; subst.
Qed.

Lemma notifyWaiters_resolves q : resolves q (notifyWaiters q).1 (notifyWaiters q).2.
Proof.
  unfold resolves, notifyWaiters.
  pose proof (notifyLoop_waiters (maxConcurrent q) (waiters q) (items q) (processing q)) as H.
  by destruct (notifyLoop _ _ _ _) as [[[ws2 its2] proc2] ds].
Qed.

Lemma notifyWaiters_items q :
  items q = (delivered (notifyWaiters q).2 ++ items (notifyWaiters q).1)%list.
Proof.
  unfold notifyWaiters.
  pose proof (notifyLoop_items (maxConcurrent q) (waiters q) (items q) (processing q)) as H.
  by destruct (notifyLoop _ _ _ _) as [[[ws2 its2] proc2] ds].
Qed.

(** An operation that ends with [notifyWaiters] and leaves [waiters]
    alone before. *)
Ltac by_notifyWaiters :=
  match goal with
  | |- context [notifyWaiters ?r] => exact (notifyWaiters_resolves r)
  end.

Lemma markCompleted_resolves item q :
  resolves q (markCompleted item q).1 (markCompleted item q).2.
Proof. unfold markCompleted. by_notifyWaiters. Qed.

Lemma markFailed_resolves item c m q :
  resolves q (markFailed item c m q).1 (markFailed item c m q).2.
Proof. unfold markFailed. by_notifyWaiters. Qed.

Lemma resolves_trans q1 q2 q3 ds1 ds2 :
  resolves q1 q2 ds1 -> resolves q2 q3 ds2 -> resolves q1 q3 (ds1 ++ ds2).
Proof. unfold resolves. intros -> ->. by rewrite map_app, app_assoc. Qed.

Lemma requeue_resolves item q : resolves q (requeue item q).1 (requeue item q).2.
Proof.
  unfold requeue.
  set (q1 := withPending q (items q) (processing q ∖ {[id item]}) (waiters q)).
  destruct (_ <? _)%nat.
  - match goal with
    | |- context [notifyWaiters ?q2] =>
        pose proof (notifyWaiters_resolves q2) as H;
        by destruct (notifyWaiters q2) as [q3 ds2]
    end.
  - pose proof (markFailed_resolves (setAttempts (attempts item + 1) item)
                  "MAX_ATTEMPTS"
                  ("Exceeded max attempts ("
                   +:+ pretty (maxAttempts (setAttempts (attempts item + 1) item)) +:+ ")")
                  q1) as H1.
    destruct (markFailed _ _ _ q1) as [q2 ds1].
    pose proof (notifyWaiters_resolves q2) as H2.
    destruct (notifyWaiters q2) as [q3 ds2]. simpl in *.
    by apply (resolves_trans q1 q2 q3).
Qed.

Lemma enqueue_resolves item q q' ds : enqueue item q = Ok (q', ds) -> resolves q q' ds.
Proof.
  unfold enqueue. destruct (closed q); [done |]. intros [= E].
  change q' with (q', ds).1. change ds with (q', ds).2 at 2. rewrite <- E.
  by_notifyWaiters.
Qed.

Lemma enqueueMany_resolves its q q' ds :
  enqueueMany its q = Ok (q', ds) -> resolves q q' ds.
Proof.
  unfold enqueueMany. destruct (closed q); [done |]. intros [= E].
  change q' with (q', ds).1. change ds with (q', ds).2 at 2. rewrite <- E.
  by_notifyWaiters.
Qed.

Lemma close_resolves q : resolves q (close q).1 (close q).2.
Proof.
  unfold resolves, close. simpl. rewrite app_nil_r, map_map. simpl. by rewrite map_id.
Qed.

End QueueDelivery.

(** ** Worker pool: the queue of a pool stays within the worker count *)

Module PoolBound.
Import Types WorkerPool.
Import QueueBound.

(** The limit of the queue is the worker count of the pool (the
    constructor makes them equal and nothing changes either), and the
    queue is within it. *)
Definition sound (W : nat) (p : t) : Prop :=
  workerCount p = W /\ within W (queue p).

Lemma new_sound W : sound W (new W).
Proof. split; [done |]. apply new_within. Qed.

Lemma submit_sound W item p : sound W p -> sound W (submit item p).
Proof.
  intros [Hw Hq]. unfold submit.
  destruct (AsyncQueue.enqueue item (queue p)) as [[q ds] |] eqn:E; [| done].
  split; [done |]. by eapply enqueue_within.
Qed.

Lemma submitMany_sound W its p : sound W p -> sound W (submitMany its p).
Proof.
  intros [Hw Hq]. unfold submitMany.
  destruct (AsyncQueue.enqueueMany its (queue p)) as [[q ds] |] eqn:E; [| done].
  split; [done |]. by eapply enqueueMany_within.
Qed.

Lemma loopHead_sound W i p : sound W p -> sound W (loopHead i p).
Proof.
  intros [Hw Hq]. unfold loopHead. destruct (running p); [| done].
  pose proof (dequeue_within W i (queue p) Hq) as H.
  by destruct (AsyncQueue.dequeue i (queue p)) as [q d].
Qed.

Lemma spawn_sound W p : sound W p -> sound W (spawn p).
Proof. intros [Hw Hq]. by apply loopHead_sound. Qed.

Lemma iter_spawn_sound W n p : sound W p -> sound W (Nat.iter n spawn p).
Proof. intros H. induction n as [| n IH]; simpl; [done |]. by apply spawn_sound. Qed.

Lemma start_sound W p : sound W p -> sound W (start p).
Proof.
  intros [Hw Hq]. unfold start. destruct (running p); [done |].
  by apply iter_spawn_sound.
Qed.

Lemma resume_sound W i p : sound W p -> sound W (resume i p).
Proof.
  intros [Hw Hq]. unfold resume.
  destruct (workers p !! i) as [[| [item |] | |] |]; done.
Qed.

Lemma updateQueue_within W r item q :
  within W q -> within W (updateQueue r item q).1.
Proof.
  intros H. unfold updateQueue. destruct (success r); [by apply markCompleted_within |].
  destruct (_ && _); [by apply requeue_within |].
  destruct (error item); by apply markFailed_within.
Qed.

Lemma finish_sound W i o p : sound W p -> sound W (finish i o p).
Proof.
  intros [Hw Hq]. unfold finish.
  destruct (workers p !! i) as [[| | item |] |]; try done.
  destruct (settle o) as [r item'].
  pose proof (updateQueue_within W r item' (queue p) Hq) as H.
  destruct (updateQueue r item' (queue p)) as [q ds].
  by apply loopHead_sound.
Qed.

Lemma closeQueue_sound W p : sound W p -> sound W (closeQueue p).
Proof. by intros [Hw [Hm Hs]]. Qed.

Lemma step_sound W a p : sound W p -> sound W (step a p).
Proof.
  intros H. destruct a; simpl.
  - by apply submit_sound.
  - by apply submitMany_sound.
  - by apply start_sound.
  - by apply resume_sound.
  - by apply finish_sound.
  - by apply closeQueue_sound.
  - unfold completion. by destruct (allExited p).
  - by apply (closeQueue_sound W (stop p)).
Qed.

Lemma exec_sound W tr p : sound W p -> sound W (exec tr p).1.
Proof.
  revert p. induction tr as [| a tr IH]; intros p H; simpl; [done |].
  specialize (IH (step a p) (step_sound W a p H)).
  by destruct (exec tr (step a p)) as [p' evs].
Qed.

End PoolBound.

Module ConcurrencyLimit.
Import Types.

(** C1. A pool built with worker count [W] owns a queue of limit [W],
    and in every state that the pool reaches, by whatever sequence of
    submissions, starts, loop turns, processor results and closes, at
    most [W] ids are in [processing]. The same holds of a queue on its
    own: from [new AsyncQueue(W)], every sequence of calls of
    [enqueue], [enqueueMany], [dequeue], [markCompleted], [markFailed],
    [markSkipped], [requeue] and [close], with arbitrary arguments,
    leaves at most [W] ids in [processing]. *)
Theorem processing_within_worker_count :
  (forall (W : nat) (tr : list WorkerPool.Action),
      let p := (WorkerPool.exec tr (WorkerPool.new W)).1 in
      AsyncQueue.maxConcurrent (WorkerPool.queue p) = W
      /\ WorkerPool.workerCount p = W
      /\ base.size (AsyncQueue.processing (WorkerPool.queue p)) <= W
      /\ Types.processing (WorkerPool.getStats p) <= W)
  /\ (forall (W : nat) (cs : list QueueBound.Call),
        base.size (AsyncQueue.processing (QueueBound.calls cs (AsyncQueue.new W))) <= W).
Proof.
  split.
  - intros W tr p.
    destruct (PoolBound.exec_sound W tr _ (PoolBound.new_sound W)) as (Hw & Hm & Hs).
    by repeat split.
  - intros W cs.
    by destruct (QueueBound.calls_within W cs _ (QueueBound.new_within W)).
Qed.

End ConcurrencyLimit.

(** ** Sample data for the concrete checks below *)

Module Samples.
Import Types.

Definition lesson : ScannedFile :=
  {| path := "/courses/Course1/lesson1.srt"; relativePath := "lesson1.srt";
     name := "lesson1.srt"; extension := ".srt"; size := 10; category := CatText;
     courseId := "Course1"; coursePath := "/courses/Course1" |}.

(** a fresh queue item as [createQueueItem] builds it, with the given
    id, priority and maximum of attempts *)
Definition item (uuid : string) (prio : Z) (maxTries : nat) : QueueItem :=
  AsyncQueue.createQueueItem uuid lesson (Some StConvert) (Some prio) (Some maxTries).

End Samples.

(** ** Queue: when [dequeue] answers with the sentinel *)

Module Sentinel.
Import Types AsyncQueue.

#[local] Abbreviation size := base.size (only parsing).

Lemma notifyLoop_hands_items maxC ws its proc :
  Forall (fun d : Delivery => is_Some d.2) (notifyLoop maxC ws its proc).2.
Proof.
  revert its proc. induction ws as [| w ws IH]; intros its proc; simpl; [constructor |].
  destruct its as [| item its]; simpl; [constructor |].
  destruct (size proc <? maxC)%nat; simpl; [| constructor].
  specialize (IH its ({[id item]} ∪ proc)).
  destruct (notifyLoop maxC ws its ({[id item]} ∪ proc)) as [[[ws2 its2] proc2] ds].
  simpl in *. constructor; [by eexists | done].
Qed.

(** A queue of limit 2 in which one item was submitted and acquired,
    and which was then closed: the item is still in [processing]. *)
Definition closedWhileProcessing : t :=
  QueueBound.calls
    [QueueBound.CEnqueue (Samples.item "X" 0 3); QueueBound.CDequeue 0; QueueBound.CClose]
    (new 2).

(** Counterexample to C2 as stated: the queue is closed, nothing is
    pending, one item is in [processing] and one more could be
    processed, and a call of [dequeue] receives the sentinel. *)
Lemma sentinel_while_item_in_processing :
  closed closedWhileProcessing = true
  /\ items closedWhileProcessing = []
  /\ size (processing closedWhileProcessing) = 1
  /\ maxConcurrent closedWhileProcessing = 2
  /\ (dequeue 1 closedWhileProcessing).2 = Sentinel.
Proof. vm_compute. by repeat split. Qed.

(** C2, amended. [dequeue] answers at once with the sentinel exactly
    when the queue has been closed and no pending item can be handed
    out: nothing is pending, or the number of ids in [processing] has
    reached the limit. Whether items are still in [processing] plays
    no part: a closed queue with nothing pending answers with the
    sentinel and is left unchanged. Suspended callers receive the
    sentinel from [close] only, which resolves all of them with it;
    [notifyWaiters] hands out items only. *)
Theorem dequeue_sentinel_iff :
  (forall (w : Waiter) (q : t),
      (dequeue w q).2 = Sentinel
      <-> closed q = true /\ (items q = [] \/ maxConcurrent q <= size (processing q)))
  /\ (forall (w : Waiter) (q : t),
        closed q && bool_decide (items q = []) = true -> dequeue w q = (q, Sentinel))
  /\ (forall q : t,
        closed (close q).1 = true
        /\ (close q).2 = map (fun w => (w, None)) (waiters q)
        /\ Forall (fun d : Delivery => is_Some d.2) (notifyWaiters q).2).
Proof.
  split; [| split].
  - intros w q. unfold dequeue.
    destruct (closed q) eqn:Hc; simpl.
    + destruct (items q) as [| item rest] eqn:Hi; simpl.
      * split; [intros _; split; [done | by left] | done].
      * destruct (size (processing q) <? maxConcurrent q)%nat eqn:Hlt; simpl.
        -- apply Nat.ltb_lt in Hlt. split; [done |]. intros [_ [H | H]]; [done | lia].
        -- apply Nat.ltb_ge in Hlt. split; [| done]. intros _. split; [done | by right].
    + destruct (items q) as [| item rest] eqn:Hi; simpl.
      * split; [done | by intros [? _]].
      * destruct (size (processing q) <? maxConcurrent q)%nat; simpl;
          (split; [done | by intros [? _]]).
  - intros w q H. unfold dequeue. by rewrite H.
  - intros q. split; [done |]. split; [done |].
    unfold notifyWaiters.
    pose proof (notifyLoop_hands_items (maxConcurrent q) (waiters q) (items q)
                  (processing q)) as H.
    by destruct (notifyLoop _ _ _ _) as [[[ws2 its2] proc2] ds].
Qed.

(** The amended statement at the queue of the counterexample. *)
Lemma dequeue_sentinel_closed_witness :
  closed closedWhileProcessing && bool_decide (items closedWhileProcessing = []) = true
  /\ dequeue 1 closedWhileProcessing = (closedWhileProcessing, Sentinel).
Proof.
  split; [vm_compute; reflexivity |].
  apply (proj1 (proj2 dequeue_sentinel_iff) 1 closedWhileProcessing).
  vm_compute. reflexivity.
Defined.

End Sentinel.

(** ** Queue: priority order of acquisition *)

Module PendingOrder.
Import Types AsyncQueue QueueOrder QueueDelivery.

#[local] Abbreviation size := base.size (only parsing).

(** A client that asks for an item [n] times and completes each item
    before it asks for the next, as a lone worker loop does: what its
    calls of [dequeue] answer. *)
Fixpoint acquireEach (n : nat) (w : Waiter) (q : t) : list Dequeued :=
  match n with
  | O => []
  | S n' =>
      let '(q1, d) := dequeue w q in
      match d with
      | Got item => d :: acquireEach n' w (markCompleted item q1).1
      | _ => [d]
      end
  end.

Lemma acquire_then_complete_frees (x : string) : ({[x]} ∪ (∅ : gset string)) ∖ {[x]} = ∅.
Proof. rewrite (right_id_L ∅ (∪)). apply difference_diag_L. Qed.

(** With nothing in [processing] and nobody suspended, the client
    receives the pending items in the order of the array. *)
Lemma acquireEach_pending its :
  forall w q,
    items q = its -> waiters q = [] -> processing q = ∅ -> 0 < maxConcurrent q ->
    acquireEach (length its) w q = map Got its.
Proof.
  induction its as [| item rest IH]; intros w q Hi Hw Hp Hmax; [done |].
  simpl. unfold dequeue. rewrite Hi, Hp, size_empty.
  rewrite bool_decide_eq_false_2, andb_false_r by done.
  destruct (0 <? maxConcurrent q)%nat eqn:Hlt; [| apply Nat.ltb_ge in Hlt; lia].
  f_equal. unfold markCompleted. rewrite notifyWaiters_idle by done.
  apply IH; simpl; try done. apply acquire_then_complete_frees.
Qed.

Lemma enqueueMany_new limit its :
  enqueueMany its (new limit) = Ok (withPending (new limit) (sortByPriority its) ∅ [], []).
Proof. unfold enqueueMany. simpl. by rewrite notifyWaiters_idle. Qed.

(** What [enqueueMany] leaves pending, together with what it handed to
    suspended callers, is the stable sort of the old pending items
    followed by the new ones. *)
Lemma enqueueMany_sorts its q q' ds :
  enqueueMany its q = Ok (q', ds) ->
  (delivered ds ++ items q')%list = sortByPriority (items q ++ its).
Proof.
  unfold enqueueMany. destruct (closed q); [done |]. intros [= E].
  change q' with (q', ds).1. change ds with (q', ds).2 at 1. rewrite <- E.
  symmetry. match goal with
  | |- context [notifyWaiters ?r] => apply (notifyWaiters_items r)
  end.
Qed.

Lemma enqueue_as_many item q : enqueue item q = enqueueMany [item] q.
Proof. reflexivity. Qed.

Lemma insert_last x : insertByPriority x [] = [x].
Proof. reflexivity. Qed.

Lemma insert_behind x y l :
  (priority y <= priority x)%Z -> insertByPriority x (y :: l) = y :: insertByPriority x l.
Proof. intros H. simpl. by rewrite (proj2 (Z.leb_le _ _) H). Qed.

Lemma insert_before x y l :
  (priority x < priority y)%Z -> insertByPriority x (y :: l) = x :: y :: l.
Proof. intros H. simpl. by rewrite (proj2 (Z.leb_gt _ _) H). Qed.

(** Runs the insertions of [sortByPriority] once the priorities are
    known from the hypotheses. *)
Ltac run_sort :=
  unfold sortByPriority;
  repeat (progress (cbn [foldl app];
                    repeat first [ rewrite insert_last
                                 | rewrite insert_behind by lia
                                 | rewrite insert_before by lia ])).

Lemma five_sorted a b c d e :
  priority a = 3%Z -> priority b = 1%Z -> priority c = 2%Z ->
  priority d = 1%Z -> priority e = 0%Z ->
  sortByPriority [a; b; c; d; e] = [e; b; d; c; a].
Proof. intros Ha Hb Hc Hd He. by run_sort. Qed.

(** Successive calls of [enqueue] on an open queue with nobody
    suspended sort the array after each push. *)
Lemma enqueue_each xs :
  forall q,
    closed q = false -> waiters q = [] ->
    QueueBound.calls (map QueueBound.CEnqueue xs) q
    = withPending q (foldl (fun acc x => sortByPriority (acc ++ [x])) (items q) xs)
                  (processing q) [].
Proof.
  induction xs as [| x xs IH]; intros q Hc Hw.
  - simpl. destruct q; simpl in *; by subst.
  - cbn [map]. unfold QueueBound.calls in *. cbn [foldl QueueBound.call].
    unfold enqueue. rewrite Hc. rewrite notifyWaiters_idle by done. cbn [fst].
    by rewrite IH.
Qed.

Lemma five_enqueued a b c d e :
  priority a = 3%Z -> priority b = 1%Z -> priority c = 2%Z ->
  priority d = 1%Z -> priority e = 0%Z ->
  QueueBound.calls
    [QueueBound.CEnqueue a; QueueBound.CEnqueue b; QueueBound.CEnqueue c;
     QueueBound.CEnqueue d; QueueBound.CEnqueue e] (new 1)
  = withPending (new 1) [e; b; d; c; a] ∅ [].
Proof.
  intros Ha Hb Hc Hd He.
  change [QueueBound.CEnqueue a; QueueBound.CEnqueue b; QueueBound.CEnqueue c;
          QueueBound.CEnqueue d; QueueBound.CEnqueue e]
    with (map QueueBound.CEnqueue [a; b; c; d; e]).
  rewrite enqueue_each by done.
  cbn [new items processing]. by run_sort.
Qed.

(** C3. Five items of priorities 3, 1, 2, 1, 0 submitted in this order
    to a queue of limit 1, one by one or in one call, are pending in
    the order 0, 1, 1, 2, 3, the first of the two items of priority 1
    before the second, and five successive acquisitions (each item
    completed before the next call) return them in that order. In
    general, after [enqueueMany] (and [enqueue]) the items handed out
    by the call followed by the pending items are the old pending
    items and the new ones, sorted by ascending priority, and the items
    of any one priority are the old pending ones followed by the new
    ones, each in their order of arrival; on a closed queue the call
    throws. *)
Theorem pending_sorted_stable :
  (forall (a b c d e : QueueItem) (w : Waiter),
      priority a = 3%Z -> priority b = 1%Z -> priority c = 2%Z ->
      priority d = 1%Z -> priority e = 0%Z ->
      let one_by_one :=
        QueueBound.calls
          [QueueBound.CEnqueue a; QueueBound.CEnqueue b; QueueBound.CEnqueue c;
           QueueBound.CEnqueue d; QueueBound.CEnqueue e] (new 1) in
      let at_once := QueueBound.calls [QueueBound.CEnqueueMany [a; b; c; d; e]] (new 1) in
      items one_by_one = [e; b; d; c; a]
      /\ acquireEach 5 w one_by_one = [Got e; Got b; Got d; Got c; Got a]
      /\ items at_once = [e; b; d; c; a]
      /\ acquireEach 5 w at_once = [Got e; Got b; Got d; Got c; Got a])
  /\ (forall (its : list QueueItem) (q : t),
        match enqueueMany its q with
        | Ok (q', ds) =>
            let handled := (delivered ds ++ items q')%list in
            handled ≡ₚ items q ++ its
            /\ StronglySorted byPriority handled
            /\ StronglySorted byPriority (items q')
            /\ forall p, ofPriority p handled
                         = (ofPriority p (items q) ++ ofPriority p its)%list
        | Throw _ => closed q = true
        end)
  /\ (forall (item : QueueItem) (q : t), enqueue item q = enqueueMany [item] q).
Proof.
  split; [| split].
  - intros a b c d e w Ha Hb Hc Hd He one_by_one at_once.
    assert (H1 : one_by_one = withPending (new 1) [e; b; d; c; a] ∅ [])
      by by apply five_enqueued.
    assert (H2 : at_once = withPending (new 1) [e; b; d; c; a] ∅ []).
    { unfold at_once, QueueBound.calls. cbn [foldl QueueBound.call].
      rewrite enqueueMany_new. cbn [fst]. by rewrite five_sorted. }
    rewrite H1, H2. repeat split; try done;
      apply (acquireEach_pending [e; b; d; c; a]); try done; cbn; lia.
  - intros its q. destruct (enqueueMany its q) as [[q' ds] | msg] eqn:E.
    + pose proof (enqueueMany_sorts its q q' ds E) as Hs. simpl. rewrite Hs.
      split; [apply sortByPriority_perm |].
      split; [apply sortByPriority_sorted |].
      split.
      * pose proof (sortByPriority_sorted (items q ++ its)) as H. rewrite <- Hs in H.
        by apply StronglySorted_app_1_r in H.
      * intros p. by rewrite sortByPriority_stable, ofPriority_app.
    + unfold enqueueMany in E. by destruct (closed q).
  - intros item q. reflexivity.
Qed.

(** The scenario of C3 on five sample items. *)
Lemma pending_sorted_stable_witness :
  let a := Samples.item "a" 3 3 in
  let b := Samples.item "b" 1 3 in
  let c := Samples.item "c" 2 3 in
  let d := Samples.item "d" 1 3 in
  let e := Samples.item "e" 0 3 in
  (priority a = 3%Z /\ priority b = 1%Z /\ priority c = 2%Z
   /\ priority d = 1%Z /\ priority e = 0%Z)
  /\ acquireEach 5 0
       (QueueBound.calls
          [QueueBound.CEnqueue a; QueueBound.CEnqueue b; QueueBound.CEnqueue c;
           QueueBound.CEnqueue d; QueueBound.CEnqueue e] (new 1))
     = [Got e; Got b; Got d; Got c; Got a].
Proof.
  intros a b c d e. split; [by repeat split |].
  apply (proj1 pending_sorted_stable a b c d e 0); reflexivity.
Defined.

End PendingOrder.

(** ** Output paths *)

Module OutputPaths.
Import Types.

#[local] Arguments OutputManager.getOutputPath : simpl never.
#[local] Arguments FileRouter.getOutputPath : simpl never.

(** A course directory that holds [CODE/project1/main.cpp]. *)
Definition courseWithProject : Scanner.FsNode :=
  Scanner.FsDir "Course1"
    [ Scanner.FsDir "CODE"
        [ Scanner.FsDir "project1" [ Scanner.FsFile "main.cpp" 42 ] ] ].

(** the file as [createCourse] has it scanned: the course directory is
    both the directory scanned and the course root *)
Definition scannedMain (cwd : string) : list ScannedFile :=
  Scanner.scanDirectory JsString.asciiLowerCase cwd [] Scanner.defaultOptions "Course1"
                        "/courses/Course1" "/courses/Course1" (Some courseWithProject).

(** C5, what the code does on scenario D. The scanner records the file
    under the relative path [CODE/project1/main.cpp], and the resolver
    flattens the whole directory part of that path: with destination
    root [out/] and no override the result is
    [out/CODE_project1_main.cpp], not [out/project1_main.cpp]. *)
Theorem scenario_D_keeps_CODE_segment (cwd : string) :
  map relativePath (scannedMain cwd) = ["CODE/project1/main.cpp"]
  /\ map (fun f => OutputManager.getOutputPath cwd f "out/" None) (scannedMain cwd)
     = ["out/CODE_project1_main.cpp"]
  /\ map (fun f => OutputManager.getOutputPath cwd f "out/" None) (scannedMain cwd)
     <> ["out/project1_main.cpp"].
Proof. vm_compute. by repeat split. Qed.

(** For absolute paths the working directory plays no part in
    [path.relative]. *)
Lemma relative_absolute cwd1 cwd2 from to :
  Path.isAbsolute from = true -> Path.isAbsolute to = true ->
  Path.relative cwd1 from to = Path.relative cwd2 from to.
Proof. intros Hf Ht. unfold Path.relative, Path.resolveSegments. by rewrite Hf, Ht. Qed.

Lemma getOutputPath_absolute cwd1 cwd2 f outputDir fmt :
  Path.isAbsolute (coursePath f) = true -> Path.isAbsolute (path f) = true ->
  OutputManager.getOutputPath cwd1 f outputDir fmt
  = OutputManager.getOutputPath cwd2 f outputDir fmt.
Proof.
  intros Hc Hp. unfold OutputManager.getOutputPath.
  by rewrite (relative_absolute cwd1 cwd2).
Qed.

(** C8. The result of the output path resolver is a function of its
    arguments, and of the file it reads four fields only (path, course
    root, name and extension): two calls whose files agree on these
    fields and whose destination root and override are equal return
    the same string. The same holds of the resolver of the file
    router, which reads the output format of the decision. *)
Theorem getOutputPath_deterministic
    (cwd : string) (f1 f2 : ScannedFile) (dir1 dir2 : string) (fmt1 fmt2 : option string)
    (d1 d2 : RoutingDecision) :
  path f1 = path f2 -> coursePath f1 = coursePath f2 ->
  name f1 = name f2 -> extension f1 = extension f2 ->
  dir1 = dir2 -> fmt1 = fmt2 -> outputFormat d1 = outputFormat d2 ->
  OutputManager.getOutputPath cwd f1 dir1 fmt1 = OutputManager.getOutputPath cwd f2 dir2 fmt2
  /\ FileRouter.getOutputPath cwd f1 d1 dir1 = FileRouter.getOutputPath cwd f2 d2 dir2.
Proof.
  intros Hp Hc Hn He -> -> Hd.
  unfold OutputManager.getOutputPath, FileRouter.getOutputPath.
  by rewrite Hp, Hc, Hn, He, Hd.
Qed.

(** Two records of the same file that differ in the fields the
    resolver does not read. *)
Definition slides : ScannedFile :=
  {| path := "/c/C1/docs/a/slides.pdf"; relativePath := "docs/a/slides.pdf";
     name := "slides.pdf"; extension := ".pdf"; size := 1; category := CatDocument;
     courseId := "C1"; coursePath := "/c/C1" |}.

Definition slidesAgain : ScannedFile :=
  {| path := "/c/C1/docs/a/slides.pdf"; relativePath := "";
     name := "slides.pdf"; extension := ".pdf"; size := 77; category := CatUnknown;
     courseId := "other"; coursePath := "/c/C1" |}.

Lemma getOutputPath_deterministic_witness :
  OutputManager.getOutputPath "/w" slides "out" (Some ".md")
  = OutputManager.getOutputPath "/w" slidesAgain "out" (Some ".md")
  /\ FileRouter.getOutputPath "/w" slides
       (SkillRegistry.getRoutingDecision JsString.asciiLowerCase ".pdf") "out"
     = FileRouter.getOutputPath "/w" slidesAgain
         (SkillRegistry.getRoutingDecision JsString.asciiLowerCase ".PDF") "out".
Proof.
  apply (getOutputPath_deterministic "/w" slides slidesAgain "out" "out"
           (Some ".md") (Some ".md")); reflexivity.
Defined.

End OutputPaths.

(** ** Unsupported files never reach the queue *)

Module UnsupportedFiles.
Import JsString Types Constants SkillRegistry RouterSpec.

#[local] Arguments getRoutingDecision : simpl never.
#[local] Arguments FileRouter.routeByExtension : simpl never.

Lemma queued_supported toLowerCase cwd uuid validatedFilesPath files :
  Forall (fun item => isQueued toLowerCase (file item) = true)
         (App.queueItems (App.routeFiles toLowerCase cwd uuid validatedFilesPath files)).
Proof.
  destruct (routeFiles_spec toLowerCase cwd uuid validatedFilesPath files) as [Hq _].
  apply Forall_forall. intros item Hi.
  assert (Hf : file item ∈ map file
                 (App.queueItems
                    (App.routeFiles toLowerCase cwd uuid validatedFilesPath files)))
    by by apply list_elem_of_fmap_2.
  rewrite Hq in Hf. by apply list_elem_of_filter in Hf as [? _].
Qed.

Lemma isQueued_methods toLowerCase f :
  isQueued toLowerCase f = true ->
  method (FileRouter.routeByExtension toLowerCase f) <> MUnsupported
  /\ method (FileRouter.routeByExtension toLowerCase f) <> MSkip.
Proof.
  unfold isQueued, isUnsupported. intros H.
  apply andb_true_iff in H as [H1 H2].
  apply negb_true_iff in H1, H2. by apply bool_decide_eq_false in H1, H2.
Qed.


(** A course with a subtitle file, a source file, a video-like name
    that the scanner would have dropped, and a file of unknown type. *)
Definition mixedFiles : list ScannedFile :=
  [ Samples.lesson;
    {| path := "/courses/Course1/CODE/project1/main.cpp";
       relativePath := "CODE/project1/main.cpp"; name := "main.cpp"; extension := ".cpp";
       size := 42; category := CatCode; courseId := "Course1";
       coursePath := "/courses/Course1" |};
    {| path := "/courses/Course1/blob.xyz"; relativePath := "blob.xyz"; name := "blob.xyz";
       extension := ".xyz"; size := 5; category := CatUnknown; courseId := "Course1";
       coursePath := "/courses/Course1" |} ].


End UnsupportedFiles.

(** ** Worker pool: loops, waiters and counting *)

Module PoolCounting.
Import Types WorkerPool.
Import QueueDelivery.

Definition isBusy (w : Worker) : bool :=
  match w with Busy _ => true | _ => false end.

(** the number of loops that await their processor *)
Definition busyCount (ws : list Worker) : nat :=
  length (filter (fun w => isBusy w = true) ws).

Definition acquiredCount (evs : list Event) : nat :=
  length (filter (fun e => isAcquired e = true) evs).

(** the results reported by the events, in order *)
Definition processedResults (evs : list Event) : list ProcessingResult :=
  omap (fun e => match e with Processed _ r => Some r | _ => None end) evs.

(** Every waiter of the queue is the index of a loop that is suspended
    in [dequeue], and no loop waits twice. *)
Definition tidy (q : AsyncQueue.t) (ws : list Worker) : Prop :=
  NoDup (AsyncQueue.waiters q)
  /\ forall w, w ∈ AsyncQueue.waiters q -> ws !! w = Some Waiting.

Definition one (b : bool) : nat := if b then 1 else 0.

Lemma busyCount_app ws1 ws2 : busyCount (ws1 ++ ws2) = busyCount ws1 + busyCount ws2.
Proof. unfold busyCount. by rewrite filter_app, length_app. Qed.

Lemma busyCount_cons w ws : busyCount (w :: ws) = one (isBusy w) + busyCount ws.
Proof.
  unfold busyCount. rewrite filter_cons.
  case_decide as H; [by rewrite H |].
  apply not_true_is_false in H. by rewrite H.
Qed.

Lemma busyCount_insert ws i w0 w :
  ws !! i = Some w0 ->
  busyCount (<[i := w]> ws) + one (isBusy w0) = busyCount ws + one (isBusy w).
Proof.
  revert i. induction ws as [| x ws IH]; intros i Hi; [done |].
  destruct i as [| i]; simpl in *.
  - injection Hi as ->. rewrite !busyCount_cons. lia.
  - rewrite !busyCount_cons. specialize (IH i Hi). lia.
Qed.

Lemma deliver_cons d ds ws : deliver (d :: ds) ws = deliver ds (<[d.1 := Resumed d.2]> ws).
Proof. reflexivity. Qed.

Lemma deliver_lookup_other ds :
  forall ws j, j ∉ map fst ds -> deliver ds ws !! j = ws !! j.
Proof.
  induction ds as [| d ds IH]; intros ws j Hj; [done |].
  rewrite deliver_cons. cbn [map] in Hj. apply not_elem_of_cons in Hj as [Hne Hj].
  rewrite IH by done. by rewrite list_lookup_insert_ne.
Qed.

Lemma deliver_length ds : forall ws, length (deliver ds ws) = length ws.
Proof.
  induction ds as [| d ds IH]; intros ws; [done |].
  by rewrite deliver_cons, IH, length_insert.
Qed.

(** Resolving promises of loops that are not busy leaves the number of
    busy loops as it is. *)
Lemma deliver_busy ds :
  forall ws,
    (forall d, d ∈ ds -> exists w0, ws !! d.1 = Some w0 /\ isBusy w0 = false) ->
    busyCount (deliver ds ws) = busyCount ws.
Proof.
  induction ds as [| d ds IH]; intros ws Hds; [done |].
  rewrite deliver_cons.
  destruct (Hds d) as (w0 & Hw0 & Hb); [left |].
  pose proof (busyCount_insert ws d.1 w0 (Resumed d.2) Hw0) as Hc.
  rewrite Hb in Hc. simpl in Hc.
  rewrite IH; [by rewrite !Nat.add_0_r in Hc |].
  intros d' Hd'. destruct (decide (d'.1 = d.1)) as [-> | Hne].
  - exists (Resumed d.2). split; [| done].
    apply list_lookup_insert_eq. by eapply lookup_lt_Some.
  - destruct (Hds d') as (w1 & Hw1 & Hb1); [by right |].
    exists w1. split; [| done]. by rewrite list_lookup_insert_ne.
Qed.

(** A queue operation that resolves the first waiters keeps the pool
    tidy and changes no busy loop. *)
Lemma deliver_tidy q q' ds ws :
  tidy q ws -> resolves q q' ds ->
  tidy q' (deliver ds ws) /\ busyCount (deliver ds ws) = busyCount ws.
Proof.
  intros [Hnd Hw] Hr. unfold resolves in Hr. rewrite Hr in Hnd, Hw.
  apply NoDup_app in Hnd as (Hnd1 & Hdisj & Hnd2).
  split; [split; [done |] |].
  - intros w Hin. rewrite deliver_lookup_other.
    + apply Hw, elem_of_app. by right.
    + intros Hin'. by apply (Hdisj w).
  - apply deliver_busy. intros d Hd. exists Waiting. split; [| done].
    apply Hw, elem_of_app. left. by apply list_elem_of_fmap_2.
Qed.

Lemma dequeue_waiters i q :
  AsyncQueue.waiters (AsyncQueue.dequeue i q).1
  = match (AsyncQueue.dequeue i q).2 with
    | AsyncQueue.Suspended => (AsyncQueue.waiters q ++ [i])%list
    | _ => AsyncQueue.waiters q
    end.
Proof.
  unfold AsyncQueue.dequeue.
  destruct (AsyncQueue.closed q && bool_decide (AsyncQueue.items q = [])); [done |].
  destruct (AsyncQueue.items q) as [| item rest].
  - by destruct (AsyncQueue.closed q).
  - destruct (_ <? _)%nat; [done |]. by destruct (AsyncQueue.closed q).
Qed.

Definition good (p : t) : Prop := tidy (queue p) (workers p).

(** A loop that is not suspended reaches the head of its next turn. *)
Lemma loopHead_good i p w0 :
  good p -> workers p !! i = Some w0 -> i ∉ AsyncQueue.waiters (queue p) ->
  good (loopHead i p)
  /\ busyCount (workers (loopHead i p)) + one (isBusy w0) = busyCount (workers p)
  /\ results (loopHead i p) = results p.
Proof.
  intros [Hnd Hw] Hi Hni. unfold loopHead, good. destruct (running p).
  - pose proof (dequeue_waiters i (queue p)) as Hws.
    destruct (AsyncQueue.dequeue i (queue p)) as [q d]. cbn [fst snd] in Hws.
    cbn [queue workers results withQueue].
    assert (Hother : forall w v, w ∈ AsyncQueue.waiters (queue p) ->
                                 <[i := v]> (workers p) !! w = Some Waiting).
    { intros w v Hin. rewrite list_lookup_insert_ne; [by apply Hw |].
      intros ->. by apply Hni. }
    destruct d as [item | |].
    + split; [| split; [| done]].
      * split; rewrite Hws; [done |]. intros w Hin. by apply Hother.
      * pose proof (busyCount_insert (workers p) i w0 (Resumed (Some item)) Hi) as H.
        simpl in H. lia.
    + split; [| split; [| done]].
      * split; rewrite Hws; [done |]. intros w Hin. by apply Hother.
      * pose proof (busyCount_insert (workers p) i w0 (Resumed None) Hi) as H.
        simpl in H. lia.
    + split; [| split; [| done]].
      * split; rewrite Hws.
        -- apply NoDup_app. split; [done |]. split; [| apply NoDup_singleton].
           intros w Hin Hin'. apply list_elem_of_singleton in Hin' as ->. by apply Hni.
        -- intros w Hin. apply elem_of_app in Hin as [Hin | Hin]; [by apply Hother |].
           apply list_elem_of_singleton in Hin as ->.
           apply list_lookup_insert_eq. by eapply lookup_lt_Some.
      * pose proof (busyCount_insert (workers p) i w0 Waiting Hi) as H.
        simpl in H. lia.
  - cbn [queue workers results withQueue]. split; [| split; [| done]].
    + split; [done |]. intros w Hin. rewrite list_lookup_insert_ne; [by apply Hw |].
      intros ->. by apply Hni.
    + pose proof (busyCount_insert (workers p) i w0 Exited Hi) as H.
      simpl in H. lia.
Qed.

Lemma spawn_good p :
  good p ->
  good (spawn p) /\ busyCount (workers (spawn p)) = busyCount (workers p)
  /\ results (spawn p) = results p.
Proof.
  intros [Hnd Hw]. unfold spawn.
  set (p1 := withQueue p (queue p) (workers p ++ [Waiting])).
  assert (Hg : good p1).
  { split; [done |]. intros w Hin. cbn [workers p1 withQueue].
    rewrite lookup_app_l; [by apply Hw |]. eapply lookup_lt_Some. by apply Hw. }
  assert (Hi : workers p1 !! length (workers p) = Some Waiting).
  { cbn [workers p1 withQueue]. by rewrite list_lookup_middle. }
  assert (Hni : length (workers p) ∉ AsyncQueue.waiters (queue p1)).
  { intros Hin. apply Hw in Hin. apply lookup_lt_Some in Hin. lia. }
  destruct (loopHead_good _ p1 Waiting Hg Hi Hni) as (H1 & H2 & H3).
  split; [done |]. split; [| done].
  rewrite Nat.add_0_r in H2. rewrite H2. cbn [workers p1 withQueue].
  rewrite busyCount_app, busyCount_cons. cbn. lia.
Qed.

Lemma iter_spawn_good n p :
  good p ->
  good (Nat.iter n spawn p)
  /\ busyCount (workers (Nat.iter n spawn p)) = busyCount (workers p)
  /\ results (Nat.iter n spawn p) = results p.
Proof.
  intros Hg. induction n as [| n (IH1 & IH2 & IH3)]; [done |]. rewrite Nat.iter_succ.
  destruct (spawn_good _ IH1) as (H1 & H2 & H3).
  split; [done |]. split; [by rewrite H2 | by rewrite H3].
Qed.

Lemma updateQueue_resolves r item q :
  resolves q (updateQueue r item q).1 (updateQueue r item q).2.
Proof.
  unfold updateQueue. destruct (success r); [apply markCompleted_resolves |].
  destruct (_ && _); [apply requeue_resolves |].
  destruct (error item); apply markFailed_resolves.
Qed.

(** A queue operation followed by the delivery of what it resolved. *)
Lemma delivered_good p q ds rs run :
  good p -> resolves (queue p) q ds ->
  let p' := {| queue := q; workers := deliver ds (workers p); results := rs;
               running := run; workerCount := workerCount p |} in
  good p' /\ busyCount (workers p') = busyCount (workers p).
Proof. intros Hg Hr. by apply (deliver_tidy (queue p)). Qed.

Lemma step_counts a p :
  good p ->
  good (step a p)
  /\ busyCount (workers (step a p)) + length (processedResults (observe a p))
     = busyCount (workers p) + acquiredCount (observe a p)
  /\ results (step a p) = (results p ++ processedResults (observe a p))%list.
Proof.
  intros Hg. destruct a as [item | its | | i | i o | | |];
    cbn [step observe processedResults acquiredCount omap filter length];
    rewrite ?app_nil_r, ?Nat.add_0_r.
  - unfold submit.
    destruct (AsyncQueue.enqueue item (queue p)) as [[q ds] |] eqn:E; [| done].
    apply enqueue_resolves in E.
    destruct (delivered_good p q ds (results p) (running p) Hg E).
    unfold withQueue. split; [done |]. by split.
  - unfold submitMany.
    destruct (AsyncQueue.enqueueMany its (queue p)) as [[q ds] |] eqn:E; [| done].
    apply enqueueMany_resolves in E.
    destruct (delivered_good p q ds (results p) (running p) Hg E).
    unfold withQueue. split; [done |]. by split.
  - unfold start. destruct (running p); [done |].
    apply (iter_spawn_good (workerCount p)
             {| queue := queue p; workers := workers p; results := results p;
                running := true; workerCount := workerCount p |}).
    exact Hg.
  - unfold resume. destruct Hg as [Hnd Hw].
    assert (Hni : forall v, workers p !! i = Some v -> v <> Waiting ->
                            forall w, w ∈ AsyncQueue.waiters (queue p) ->
                                      forall v', <[i := v']> (workers p) !! w = Some Waiting).
    { intros v Hv Hne w Hin v'. rewrite list_lookup_insert_ne; [by apply Hw |].
      intros ->. apply Hw in Hin. congruence. }
    destruct (workers p !! i) as [[| [item |] | held |] |] eqn:Hi;
      cbn [processedResults acquiredCount omap filter length];
      rewrite ?app_nil_r, ?Nat.add_0_r; try done.
    + cbn [queue workers results withQueue].
      split; [split; [done | intros w Hin; by eapply Hni] |].
      split; [| done].
      pose proof (busyCount_insert (workers p) i _ (Busy (setStatus Processing item)) Hi) as H.
      unfold acquiredCount. rewrite filter_cons, decide_True by done.
      cbn in *. lia.
    + cbn [queue workers results withQueue].
      split; [split; [done | intros w Hin; by eapply Hni] |].
      split; [| done].
      pose proof (busyCount_insert (workers p) i _ Exited Hi) as H. cbn in *. lia.
  - unfold finish.
    destruct (workers p !! i) as [[| r0 | held |] |] eqn:Hi;
      cbn [processedResults acquiredCount omap filter length];
      rewrite ?app_nil_r, ?Nat.add_0_r; try done.
    destruct (settle o) as [r item] eqn:Hs. cbn [fst].
    pose proof (updateQueue_resolves r item (queue p)) as Hr.
    destruct (updateQueue r item (queue p)) as [q ds]. cbn [fst snd] in Hr.
    destruct (delivered_good p q ds (results p ++ [r]) (running p) Hg Hr) as [Hg1 Hb1].
    set (p1 := {| queue := q; workers := deliver ds (workers p);
                  results := results p ++ [r]; running := running p;
                  workerCount := workerCount p |}) in *.
    destruct Hg as [Hnd Hw].
    assert (Hnw : i ∉ AsyncQueue.waiters (queue p)).
    { intros Hin. apply Hw in Hin. congruence. }
    unfold resolves in Hr.
    assert (Hi1 : workers p1 !! i = Some (Busy held)).
    { cbn [workers p1]. rewrite deliver_lookup_other; [done |].
      intros Hin. apply Hnw. rewrite Hr. apply elem_of_app. by left. }
    assert (Hni1 : i ∉ AsyncQueue.waiters (queue p1)).
    { intros Hin. apply Hnw. rewrite Hr. apply elem_of_app. by right. }
    destruct (loopHead_good i p1 _ Hg1 Hi1 Hni1) as (H1 & H2 & H3).
    split; [done |]. split; [| by rewrite H3].
    cbn [one isBusy] in H2. cbn [list_omap length]. lia.
  - unfold closeQueue.
    pose proof (close_resolves (queue p)) as Hr.
    destruct (AsyncQueue.close (queue p)) as [q ds]. cbn [fst snd] in Hr.
    destruct (delivered_good p q ds (results p) (running p) Hg Hr).
    unfold withQueue. split; [done |]. by split.
  - unfold completion. by destruct (allExited p).
  - unfold shutdown, closeQueue.
    pose proof (close_resolves (queue (stop p))) as Hr.
    destruct (AsyncQueue.close (queue (stop p))) as [q ds]. cbn [fst snd] in Hr.
    destruct (delivered_good (stop p) q ds (results p) false Hg Hr).
    unfold withQueue. split; [done |]. by split.
Qed.

Lemma acquiredCount_app evs1 evs2 :
  acquiredCount (evs1 ++ evs2) = acquiredCount evs1 + acquiredCount evs2.
Proof. unfold acquiredCount. by rewrite filter_app, length_app. Qed.

Lemma processedResults_app evs1 evs2 :
  processedResults (evs1 ++ evs2) = (processedResults evs1 ++ processedResults evs2)%list.
Proof. apply omap_app. Qed.

Lemma exec_counts tr :
  forall p,
    good p ->
    good (exec tr p).1
    /\ busyCount (workers (exec tr p).1) + length (processedResults (exec tr p).2)
       = busyCount (workers p) + acquiredCount (exec tr p).2
    /\ results (exec tr p).1 = (results p ++ processedResults (exec tr p).2)%list.
Proof.
  induction tr as [| a tr IH]; intros p Hg; cbn [exec].
  - cbn. rewrite app_nil_r. by split.
  - destruct (step_counts a p Hg) as (Hg1 & Hb1 & Hr1).
    destruct (IH (step a p) Hg1) as (Hg2 & Hb2 & Hr2).
    destruct (exec tr (step a p)) as [p' evs]. cbn [fst snd] in *.
    rewrite acquiredCount_app, processedResults_app, length_app.
    split; [done |]. split; [lia |]. by rewrite Hr2, Hr1, app_assoc.
Qed.

Lemma new_good W : good (new W).
Proof. split; [apply NoDup_nil_2 | by intros w Hin%elem_of_nil]. Qed.

Lemma allExited_not_busy p : allExited p = true -> busyCount (workers p) = 0.
Proof.
  unfold allExited. intros H.
  induction (workers p) as [| w ws IH]; [done |].
  cbn [forallb] in H. apply andb_true_iff in H as [Hw Hws].
  rewrite busyCount_cons, IH by done. by destruct w.
Qed.

End PoolCounting.

(** ** Worker pool: retries of a failing item *)

Module RetryRun.
Import Types WorkerPool.
Import QueueDelivery.

#[local] Abbreviation size := base.size (only parsing).

(** A processor that, whatever the item, returns a result without
    success and leaves a recoverable error on the item. *)
Definition failsRecoverably (processor : QueueItem -> Outcome) : Prop :=
  forall item, exists r e,
    processor item = Returned r (setError (Some e) item)
    /\ success r = false /\ recoverable e = true.

(** A queue of limit 1 with nobody suspended, and a started pool with
    one loop around it. *)
Definition soloQueue (its : list QueueItem) (proc : gset string)
    (c f s : gmap string QueueItem) (isClosed : bool) : AsyncQueue.t :=
  {| AsyncQueue.items := its; AsyncQueue.processing := proc;
     AsyncQueue.completed := c; AsyncQueue.failed := f; AsyncQueue.skipped := s;
     AsyncQueue.closed := isClosed; AsyncQueue.waiters := [];
     AsyncQueue.maxConcurrent := 1 |}.

Definition solo (q : AsyncQueue.t) (w : Worker) (rs : list ProcessingResult) : t :=
  {| queue := q; workers := [w]; results := rs; running := true; workerCount := 1 |}.

(** the item as [requeue] puts it back *)
Definition retried (item : QueueItem) : QueueItem :=
  setStatus Pending (setAttempts (attempts item + 1) item).

(** the item as [requeue] fails it *)
Definition exhausted (item : QueueItem) : QueueItem :=
  setError (Some {| code := "MAX_ATTEMPTS";
                    message := "Exceeded max attempts (" +:+ pretty (maxAttempts item) +:+ ")";
                    recoverable := false |})
           (setStatus Failed (setAttempts (attempts item + 1) item)).

Lemma released (x : string) : ({[x]} : gset string) ∖ {[x]} = ∅.
Proof. apply difference_diag_L. Qed.

Lemma taken (x : string) : {[x]} ∪ (∅ : gset string) = {[x]}.
Proof. apply (right_id_L ∅ (∪)). Qed.

Lemma sort_one x : AsyncQueue.sortByPriority [x] = [x].
Proof. reflexivity. Qed.

(** [requeue] of the only item in flight while attempts remain. *)
Lemma requeue_solo_retry item c f s isClosed :
  attempts item + 1 < maxAttempts item ->
  AsyncQueue.requeue item (soloQueue [] {[id item]} c f s isClosed)
  = (soloQueue [retried item] ∅ c f s isClosed, []).
Proof.
  intros Hlt. unfold AsyncQueue.requeue.
  cbn [soloQueue AsyncQueue.items AsyncQueue.processing AsyncQueue.waiters
       AsyncQueue.withPending AsyncQueue.completed AsyncQueue.failed AsyncQueue.skipped
       AsyncQueue.closed AsyncQueue.maxConcurrent attempts maxAttempts setAttempts app].
  rewrite released, (proj2 (Nat.ltb_lt _ _) Hlt), sort_one.
  by rewrite notifyWaiters_idle.
Qed.

(** [requeue] of the only item in flight at its last attempt. *)
Lemma requeue_solo_exhausted item c f s isClosed :
  maxAttempts item <= attempts item + 1 ->
  AsyncQueue.requeue item (soloQueue [] {[id item]} c f s isClosed)
  = (soloQueue [] ∅ c (<[id item := exhausted item]> f) s isClosed, []).
Proof.
  intros Hge. unfold AsyncQueue.requeue.
  cbn [soloQueue AsyncQueue.items AsyncQueue.processing AsyncQueue.waiters
       AsyncQueue.withPending AsyncQueue.completed AsyncQueue.failed AsyncQueue.skipped
       AsyncQueue.closed AsyncQueue.maxConcurrent attempts maxAttempts setAttempts app].
  rewrite released, (proj2 (Nat.ltb_ge _ _) Hge).
  unfold AsyncQueue.markFailed.
  cbn [soloQueue AsyncQueue.withPending
       AsyncQueue.items AsyncQueue.processing AsyncQueue.waiters
       AsyncQueue.completed AsyncQueue.failed AsyncQueue.skipped
       AsyncQueue.closed AsyncQueue.maxConcurrent id setAttempts].
  rewrite (empty_difference_L (C := gset string)) by done.
  rewrite notifyWaiters_idle by done. by rewrite notifyWaiters_idle.
Qed.

Lemma dequeue_solo_got w x rest c f s isClosed :
  AsyncQueue.dequeue w (soloQueue (x :: rest) ∅ c f s isClosed)
  = (soloQueue rest {[id x]} c f s isClosed, AsyncQueue.Got x).
Proof.
  unfold AsyncQueue.dequeue.
  cbn [soloQueue AsyncQueue.items AsyncQueue.processing AsyncQueue.closed
       AsyncQueue.maxConcurrent AsyncQueue.waiters AsyncQueue.withPending
       AsyncQueue.completed AsyncQueue.failed AsyncQueue.skipped].
  rewrite bool_decide_eq_false_2, andb_false_r by done.
  rewrite size_empty. cbn [Nat.ltb Nat.leb]. by rewrite taken.
Qed.

Lemma dequeue_solo_sentinel w proc c f s :
  AsyncQueue.dequeue w (soloQueue [] proc c f s true)
  = (soloQueue [] proc c f s true, AsyncQueue.Sentinel).
Proof. reflexivity. Qed.

(** The loop fails an item that can be retried: the item is pending
    again, and the head of the next turn takes it at once. *)
Lemma finish_solo_retry held r e item c f s isClosed rs :
  success r = false -> recoverable e = true ->
  attempts item + 1 < maxAttempts item ->
  finish 0 (Returned r (setError (Some e) item))
         (solo (soloQueue [] {[id item]} c f s isClosed) (Busy held) rs)
  = solo (soloQueue [] {[id item]} c f s isClosed)
         (Resumed (Some (retried (setError (Some e) item)))) (rs ++ [r]).
Proof.
  intros Hs He Hlt. unfold finish.
  cbn [solo workers lookup list_lookup settle queue results running workerCount].
  unfold updateQueue, isRecoverable. rewrite Hs.
  cbn [error setError attempts maxAttempts]. rewrite He.
  assert (Ha : (attempts item <? maxAttempts item)%nat = true)
    by (apply Nat.ltb_lt; lia).
  rewrite Ha. cbn [andb].
  pose proof (requeue_solo_retry (setError (Some e) item) c f s isClosed Hlt) as Hq.
  cbn [id setError] in Hq. rewrite Hq.
  unfold loopHead. cbn [deliver foldl running queue workers results workerCount].
  rewrite dequeue_solo_got. reflexivity.
Qed.

(** The loop fails an item at its last attempt on a closed queue: the
    item is failed for good and the loop receives the sentinel. *)
Lemma finish_solo_exhausted held r e item c f s rs :
  success r = false -> recoverable e = true ->
  attempts item < maxAttempts item -> maxAttempts item <= attempts item + 1 ->
  finish 0 (Returned r (setError (Some e) item))
         (solo (soloQueue [] {[id item]} c f s true) (Busy held) rs)
  = solo (soloQueue [] ∅ c (<[id item := exhausted (setError (Some e) item)]> f) s true)
         (Resumed None) (rs ++ [r]).
Proof.
  intros Hs He Hlt Hge. unfold finish.
  cbn [solo workers lookup list_lookup settle queue results running workerCount].
  unfold updateQueue, isRecoverable. rewrite Hs.
  cbn [error setError attempts maxAttempts]. rewrite He.
  rewrite (proj2 (Nat.ltb_lt _ _) Hlt). cbn [andb].
  pose proof (requeue_solo_exhausted (setError (Some e) item) c f s true Hge) as Hq.
  cbn [id setError] in Hq. rewrite Hq.
  unfold loopHead. cbn [deliver foldl running queue workers results workerCount].
  rewrite dequeue_solo_sentinel. reflexivity.
Qed.

Lemma resume_solo_some q item rs :
  resume 0 (solo q (Resumed (Some item)) rs) = solo q (Busy (setStatus Processing item)) rs.
Proof. reflexivity. Qed.

Lemma resume_solo_none q rs :
  resume 0 (solo q (Resumed None) rs) = solo q Exited rs.
Proof. reflexivity. Qed.

Section Scheduler.
Variable processor : QueueItem -> Outcome.

Lemma next_busy q item rs :
  nextAction processor (solo q (Busy item) rs) = Some (AFinish 0 (processor item)).
Proof. reflexivity. Qed.

Lemma next_resumed q r rs :
  nextAction processor (solo q (Resumed r) rs) = Some (AResume 0).
Proof. reflexivity. Qed.

Lemma next_exited q rs : nextAction processor (solo q Exited rs) = None.
Proof. reflexivity. Qed.

Lemma schedule_next fuel p a :
  nextAction processor p = Some a ->
  schedule processor (S fuel) p = a :: schedule processor fuel (step a p).
Proof. intros H. cbn [schedule]. by rewrite H. Qed.

Lemma schedule_over fuel p :
  nextAction processor p = None -> schedule processor fuel p = [].
Proof. intros H. destruct fuel; [done |]. cbn [schedule]. by rewrite H. Qed.

End Scheduler.

Lemma exec_cons a tr p :
  exec (a :: tr) p = ((exec tr (step a p)).1, (observe a p ++ (exec tr (step a p)).2)%list).
Proof. cbn [exec]. by destruct (exec tr (step a p)). Qed.

Lemma acquisitionsOf_app x evs1 evs2 :
  acquisitionsOf x (evs1 ++ evs2) = acquisitionsOf x evs1 + acquisitionsOf x evs2.
Proof. unfold acquisitionsOf. by rewrite filter_app, length_app. Qed.

Lemma acquisitionsOf_acquired x i item :
  id item = x -> acquisitionsOf x [Acquired i item] = 1.
Proof.
  intros H. unfold acquisitionsOf. rewrite filter_cons, decide_True; [done |].
  by apply bool_decide_eq_true_2.
Qed.

Lemma acquisitionsOf_processed x i r : acquisitionsOf x [Processed i r] = 0.
Proof. reflexivity. Qed.

(** What the run leaves of an item that used up its attempts. *)
Definition failedForGood (item failedItem : QueueItem) : Prop :=
  id failedItem = id item
  /\ status failedItem = Failed
  /\ code <$> error failedItem = Some "MAX_ATTEMPTS"
  /\ recoverable <$> error failedItem = Some false
  /\ attempts failedItem = maxAttempts item
  /\ maxAttempts failedItem = maxAttempts item
  /\ priority failedItem = priority item.

(** From a lone loop that holds an item with [k] attempts left, on a
    closed queue, the scheduler runs [k] failing attempts, of which
    [k - 1] start with a new acquisition of the item, and the loop
    exits. *)
Lemma busy_run processor k :
  failsRecoverably processor ->
  forall fuel item c f s rs,
    attempts item + k = maxAttempts item -> 1 <= k -> 2 * k <= fuel ->
    let p := solo (soloQueue [] {[id item]} c f s true) (Busy item) rs in
    exists failedItem rs' evs,
      exec (schedule processor fuel p) p
      = (solo (soloQueue [] ∅ c (<[id item := failedItem]> f) s true) Exited rs', evs)
      /\ acquisitionsOf (id item) evs = k - 1
      /\ failedForGood item failedItem
      /\ length rs' = length rs + k.
Proof.
  intros Hp. induction k as [| k IH]; intros fuel item c f s rs Hk Hk1 Hfuel p; [lia |].
  destruct fuel as [| [| fuel]]; try lia.
  destruct (Hp item) as (r & e & Ho & Hs & He).
  unfold p. rewrite (schedule_next processor _ _ _ (next_busy processor _ _ _)).
  rewrite exec_cons. cbn [step observe solo workers lookup list_lookup].
  rewrite Ho. cbn [settle fst].
  destruct k as [| k].
  - rewrite finish_solo_exhausted by (done || lia).
    rewrite (schedule_next processor _ _ _ (next_resumed processor _ _ _)).
    rewrite exec_cons. cbn [step observe solo workers lookup list_lookup].
    rewrite resume_solo_none.
    rewrite (schedule_over processor _ _ (next_exited processor _ _)).
    cbn [exec fst snd app].
    eexists _, _, _. split; [reflexivity |].
    split; [reflexivity |]. split.
    + unfold failedForGood, exhausted. cbn. repeat split; done || lia.
    + rewrite length_app. cbn. lia.
  - rewrite finish_solo_retry by (done || lia).
    rewrite (schedule_next processor _ _ _ (next_resumed processor _ _ _)).
    rewrite exec_cons. cbn [step observe solo workers lookup list_lookup].
    rewrite resume_solo_some.
    set (next := setStatus Processing (retried (setError (Some e) item))).
    destruct (IH fuel next c f s (rs ++ [r])%list)
      as (fi & rs' & evs & Hrun & Hacq & Hfi & Hlen).
    { unfold next. cbn. lia. }
    { lia. }
    { lia. }
    change (id next) with (id item) in Hrun, Hacq.
    rewrite Hrun. cbn [fst snd].
    eexists fi, rs', _. split; [reflexivity |].
    split; [| split].
    + change ([Processed 0 r] ++ [Acquired 0 (retried (setError (Some e) item))] ++ evs)%list
        with ([Processed 0 r] ++ ([Acquired 0 (retried (setError (Some e) item))] ++ evs))%list.
      rewrite !acquisitionsOf_app, acquisitionsOf_processed, Hacq.
      rewrite acquisitionsOf_acquired by done. lia.
    + unfold failedForGood in *. unfold next in Hfi. cbn in Hfi.
      destruct Hfi as (? & ? & ? & ? & ? & ? & ?). by repeat split.
    + rewrite Hlen, length_app. cbn. lia.
Qed.

(** The pool of scenario B before its loop runs: one item submitted,
    the pool started and [waitForCompletion] called. *)
Definition opening (item : QueueItem) : list Action :=
  [ASubmit item; AStart; AWaitForCompletion].

Lemma submit_new item :
  submit item (new 1)
  = {| queue := soloQueue [item] ∅ ∅ ∅ ∅ false; workers := []; results := [];
       running := false; workerCount := 1 |}.
Proof.
  unfold submit. cbn [new queue].
  by rewrite PendingOrder.enqueue_as_many, PendingOrder.enqueueMany_new, sort_one.
Qed.

Lemma start_submitted item :
  start {| queue := soloQueue [item] ∅ ∅ ∅ ∅ false; workers := []; results := [];
           running := false; workerCount := 1 |}
  = solo (soloQueue [] {[id item]} ∅ ∅ ∅ false) (Resumed (Some item)) [].
Proof.
  unfold start. cbn [running workerCount queue workers results Nat.iter nat_rect].
  unfold spawn, loopHead.
  cbn [withQueue running workerCount queue workers results app length].
  by rewrite dequeue_solo_got.
Qed.

Lemma closeQueue_solo its proc c f s isClosed w rs :
  closeQueue (solo (soloQueue its proc c f s isClosed) w rs)
  = solo (soloQueue its proc c f s true) w rs.
Proof. reflexivity. Qed.

Lemma opening_state item :
  exec (opening item) (new 1)
  = (solo (soloQueue [] {[id item]} ∅ ∅ ∅ true) (Resumed (Some item)) [], []).
Proof.
  unfold opening. rewrite !exec_cons. cbn [exec fst snd observe app step].
  by rewrite submit_new, start_submitted, closeQueue_solo.
Qed.

(** Nothing is pending, nobody waits, the queue is closed and no loop
    holds or awaits an item: no item can be acquired any more. *)
Definition drained (p : t) : Prop :=
  AsyncQueue.closed (queue p) = true
  /\ AsyncQueue.items (queue p) = []
  /\ AsyncQueue.waiters (queue p) = []
  /\ Forall (fun w => w = Exited \/ w = Resumed None) (workers p).

Lemma loopHead_drained i p : drained p -> drained (loopHead i p).
Proof.
  intros (Hc & Hi & Hw & Hws). unfold loopHead, AsyncQueue.dequeue.
  rewrite Hc, Hi. cbn [andb]. rewrite bool_decide_eq_true_2 by done.
  destruct (running p); (split; [done |]; split; [done |]; split; [done |]);
    cbn [workers withQueue]; apply Forall_insert; auto.
Qed.

Lemma spawn_drained p : drained p -> drained (spawn p).
Proof.
  intros (Hc & Hi & Hw & Hws).
  assert (Hd : AsyncQueue.dequeue (length (workers p)) (queue p)
               = (queue p, AsyncQueue.Sentinel)).
  { unfold AsyncQueue.dequeue. rewrite Hc, Hi. cbn [andb].
    by rewrite bool_decide_eq_true_2. }
  unfold spawn, loopHead. cbn [withQueue queue running workers].
  rewrite Hd.
  destruct (running p); (split; [done |]; split; [done |]; split; [done |]);
    cbn [workers withQueue];
    rewrite insert_app_r_alt, Nat.sub_diag by done;
    apply Forall_app; (split; [done |]); apply Forall_singleton; auto.
Qed.

Lemma iter_spawn_drained n p : drained p -> drained (Nat.iter n spawn p).
Proof.
  intros H. induction n as [| n IH]; [done |]. rewrite Nat.iter_succ.
  by apply spawn_drained.
Qed.

Lemma step_drained a p : drained p -> drained (step a p) /\ observe a p = [].
Proof.
  intros (Hc & Hi & Hw & Hws).
  assert (Hno : forall i, match workers p !! i with
                          | Some (Resumed (Some _)) | Some (Busy _) => False
                          | _ => True
                          end).
  { intros i. destruct (workers p !! i) as [w |] eqn:Hl; [| done].
    rewrite Forall_forall in Hws.
    destruct (Hws w) as [-> | ->]; [by eapply list_elem_of_lookup_2 | done | done]. }
  destruct a as [item | its | | i | i o | | |]; cbn [step observe].
  - unfold submit, AsyncQueue.enqueue. by rewrite Hc.
  - unfold submitMany, AsyncQueue.enqueueMany. by rewrite Hc.
  - split; [| done]. unfold start. destruct (running p); [done |].
    by apply iter_spawn_drained.
  - unfold resume. specialize (Hno i).
    destruct (workers p !! i) as [[| [item |] | held |] |] eqn:Hl; try done.
    split; [| done]. repeat split; try done.
    cbn [workers withQueue]. apply Forall_insert; auto.
  - unfold finish. specialize (Hno i).
    by destruct (workers p !! i) as [[| [item |] | held |] |] eqn:Hl.
  - split; [| done]. unfold closeQueue, AsyncQueue.close. rewrite Hw. by cbn.
  - split; [| done]. unfold completion. by destruct (allExited p).
  - split; [| done]. unfold shutdown, closeQueue, AsyncQueue.close, stop.
    cbn [queue]. rewrite Hw. by cbn.
Qed.

Lemma exec_drained tr : forall p, drained p -> (exec tr p).2 = [].
Proof.
  induction tr as [| a tr IH]; intros p Hd; [done |].
  rewrite exec_cons. cbn [snd].
  destruct (step_drained a p Hd) as [Hd' ->]. by rewrite IH.
Qed.

Lemma notifyWaiters_failed q :
  AsyncQueue.failed (AsyncQueue.notifyWaiters q).1 = AsyncQueue.failed q.
Proof.
  unfold AsyncQueue.notifyWaiters.
  by destruct (AsyncQueue.notifyLoop _ _ _ _) as [[[ws2 its2] proc2] ds].
Qed.

(** [requeue] while attempts remain: the item, its counter incremented,
    is sorted into the pending items under its unchanged priority. *)
Lemma requeue_retry item q :
  attempts item + 1 < maxAttempts item ->
  (delivered (AsyncQueue.requeue item q).2 ++ AsyncQueue.items (AsyncQueue.requeue item q).1)%list
  = AsyncQueue.sortByPriority (AsyncQueue.items q ++ [retried item])
  /\ AsyncQueue.failed (AsyncQueue.requeue item q).1 = AsyncQueue.failed q.
Proof.
  intros Hlt. unfold AsyncQueue.requeue.
  cbn [attempts maxAttempts setAttempts]. rewrite (proj2 (Nat.ltb_lt _ _) Hlt).
  match goal with
  | |- context [AsyncQueue.notifyWaiters ?q2] =>
      pose proof (notifyWaiters_items q2) as Hi;
      pose proof (notifyWaiters_failed q2) as Hf;
      destruct (AsyncQueue.notifyWaiters q2) as [q3 ds2]
  end.
  cbn [fst snd app] in *. by rewrite <- Hi, Hf.
Qed.

(** [requeue] at the last attempt: the item is failed with the code
    [MAX_ATTEMPTS] and the pending items are as before. *)
Lemma requeue_exhaust item q :
  maxAttempts item <= attempts item + 1 ->
  (delivered (AsyncQueue.requeue item q).2 ++ AsyncQueue.items (AsyncQueue.requeue item q).1)%list
  = AsyncQueue.items q
  /\ AsyncQueue.failed (AsyncQueue.requeue item q).1
     = <[id item := exhausted item]> (AsyncQueue.failed q).
Proof.
  intros Hge. unfold AsyncQueue.requeue.
  cbn [attempts maxAttempts setAttempts]. rewrite (proj2 (Nat.ltb_ge _ _) Hge).
  unfold AsyncQueue.markFailed.
  match goal with
  | |- context [AsyncQueue.notifyWaiters ?q1] =>
      pose proof (notifyWaiters_items q1) as Hi1;
      pose proof (notifyWaiters_failed q1) as Hf1;
      destruct (AsyncQueue.notifyWaiters q1) as [q2 ds1]
  end.
  pose proof (notifyWaiters_items q2) as Hi2.
  pose proof (notifyWaiters_failed q2) as Hf2.
  destruct (AsyncQueue.notifyWaiters q2) as [q3 ds2].
  cbn [fst snd AsyncQueue.items AsyncQueue.failed AsyncQueue.withPending] in *.
  unfold delivered in *. rewrite omap_app, <- app_assoc, <- Hi2, <- Hi1, Hf2, Hf1.
  done.
Qed.

(** Scenario B for any maximum of attempts: a lone loop, one fresh
    item, a processor that always fails recoverably. *)
Lemma exhaustion_run processor item m fuel :
  failsRecoverably processor ->
  attempts item = 0 -> maxAttempts item = m -> 1 <= m -> 2 * m + 1 <= fuel ->
  let p0 := (exec (opening item) (new 1)).1 in
  exists failedItem rs evs,
    exec (schedule processor fuel p0) p0
    = (solo (soloQueue [] ∅ ∅ (<[id item := failedItem]> ∅) ∅ true) Exited rs, evs)
    /\ acquisitionsOf (id item) evs = m
    /\ failedForGood item failedItem
    /\ length rs = m.
Proof.
  intros Hp Ha Hm Hm1 Hfuel p0. unfold p0. rewrite opening_state. cbn [fst].
  destruct fuel as [| fuel]; [lia |].
  rewrite (schedule_next processor _ _ _ (next_resumed processor _ _ _)).
  rewrite exec_cons. cbn [step observe solo workers lookup list_lookup].
  rewrite resume_solo_some.
  set (held := setStatus Processing item).
  destruct (busy_run processor m Hp fuel held ∅ ∅ ∅ [])
    as (fi & rs & evs & Hrun & Hacq & Hfi & Hlen).
  { unfold held. cbn. lia. }
  { lia. }
  { lia. }
  change (id held) with (id item) in Hrun, Hacq.
  rewrite Hrun. cbn [fst snd].
  exists fi, rs, ([Acquired 0 item] ++ evs)%list. split; [done |].
  split; [| split; [| done]].
  - rewrite acquisitionsOf_app, Hacq, acquisitionsOf_acquired by done. lia.
  - unfold failedForGood in *. unfold held in Hfi. cbn in Hfi.
    destruct Hfi as (? & ? & ? & ? & ? & ? & ?). by repeat split.
Qed.

End RetryRun.

(** ** Retries of a failing item under every interleaving *)

Module RetryInterleavings.
Import Types WorkerPool RetryRun.

(** Where the lone loop of the pool stands with the item. *)
Inductive Phase :=
  | PhResumed (item : QueueItem)   (* the loop received the item from [dequeue] *)
  | PhBusy (item : QueueItem)      (* the processor runs on the item *)
  | PhWaiting                      (* item failed for good; loop suspended, queue open *)
  | PhSentinel                     (* item failed for good; loop received [null] *)
  | PhExited.                      (* item failed for good; loop ended *)

(** the open queue with the loop suspended in it *)
Definition waitingQueue (f : gmap string QueueItem) : AsyncQueue.t :=
  {| AsyncQueue.items := []; AsyncQueue.processing := ∅; AsyncQueue.completed := ∅;
     AsyncQueue.failed := f; AsyncQueue.skipped := ∅; AsyncQueue.closed := false;
     AsyncQueue.waiters := [0]; AsyncQueue.maxConcurrent := 1 |}.

(** The pool in a given phase. *)
Definition stage (ph : Phase) (isClosed : bool) (f : gmap string QueueItem)
    (rs : list ProcessingResult) : t :=
  match ph with
  | PhResumed item =>
      solo (soloQueue [] {[id item]} ∅ f ∅ isClosed) (Resumed (Some item)) rs
  | PhBusy item => solo (soloQueue [] {[id item]} ∅ f ∅ isClosed) (Busy item) rs
  | PhWaiting => solo (waitingQueue f) Waiting rs
  | PhSentinel => solo (soloQueue [] ∅ ∅ f ∅ true) (Resumed None) rs
  | PhExited => solo (soloQueue [] ∅ ∅ f ∅ true) Exited rs
  end.

(** the acquisitions still to come *)
Definition toCome (m : nat) (ph : Phase) : nat :=
  match ph with
  | PhResumed item => m - attempts item
  | PhBusy item => m - attempts item - 1
  | _ => 0
  end.

(** the results still to come *)
Definition toReport (m : nat) (ph : Phase) : nat :=
  match ph with
  | PhResumed item | PhBusy item => m - attempts item
  | _ => 0
  end.

(** What holds of a phase for the item of id [x], priority [prio] and
    maximum of attempts [m]. *)
Definition coherent (x : string) (prio : Z) (m : nat) (ph : Phase) (isClosed : bool)
    (f : gmap string QueueItem) : Prop :=
  match ph with
  | PhResumed item | PhBusy item =>
      id item = x /\ priority item = prio /\ maxAttempts item = m /\ attempts item < m
  | PhWaiting | PhSentinel | PhExited =>
      (match ph with PhWaiting => isClosed = false | _ => isClosed = true end)
      /\ exists failedItem,
          f !! x = Some failedItem
          /\ status failedItem = Failed
          /\ code <$> error failedItem = Some "MAX_ATTEMPTS"
          /\ attempts failedItem = m
          /\ priority failedItem = prio
  end.

(** A turn that the pool can take: [waitForCompletion] is called (it
    may come at any time), or the loop takes its next turn, the
    processor settling as [processor] says. *)
Definition allowed (processor : QueueItem -> Outcome) (a : Action) (p : t) : Prop :=
  a = AWaitForCompletion \/ nextAction processor p = Some a.

Fixpoint allowedTrace (processor : QueueItem -> Outcome) (tr : list Action) (p : t) : Prop :=
  match tr with
  | [] => True
  | a :: tr' => allowed processor a p /\ allowedTrace processor tr' (step a p)
  end.

(** The loop fails the item at its last attempt on an open queue: the
    item is failed for good and the loop is suspended. *)
Lemma finish_solo_exhausted_open held r e item c f s rs :
  success r = false -> recoverable e = true ->
  attempts item < maxAttempts item -> maxAttempts item <= attempts item + 1 ->
  finish 0 (Returned r (setError (Some e) item))
         (solo (soloQueue [] {[id item]} c f s false) (Busy held) rs)
  = solo {| AsyncQueue.items := []; AsyncQueue.processing := ∅;
            AsyncQueue.completed := c;
            AsyncQueue.failed := <[id item := exhausted (setError (Some e) item)]> f;
            AsyncQueue.skipped := s; AsyncQueue.closed := false;
            AsyncQueue.waiters := [0]; AsyncQueue.maxConcurrent := 1 |}
         Waiting (rs ++ [r]).
Proof.
  intros Hs He Hlt Hge. unfold finish.
  cbn [solo workers lookup list_lookup settle queue results running workerCount].
  unfold updateQueue, isRecoverable. rewrite Hs.
  cbn [error setError attempts maxAttempts]. rewrite He.
  rewrite (proj2 (Nat.ltb_lt _ _) Hlt). cbn [andb].
  pose proof (requeue_solo_exhausted (setError (Some e) item) c f s false Hge) as Hq.
  cbn [id setError] in Hq. rewrite Hq. reflexivity.
Qed.

Lemma closeQueue_waiting f rs :
  closeQueue (stage PhWaiting false f rs) = stage PhSentinel true f rs.
Proof. reflexivity. Qed.

Section Steps.
Variable processor : QueueItem -> Outcome.
Hypothesis Hprocessor : failsRecoverably processor.
Variable x : string.
Variable prio : Z.
Variable m : nat.

(** One allowed turn leads from a phase to a phase; an acquisition is
    observed exactly when the loop looks at a received item, a result
    exactly when the processor settles. *)
Lemma allowed_step ph isClosed f rs a :
  coherent x prio m ph isClosed f ->
  allowed processor a (stage ph isClosed f rs) ->
  exists ph' isClosed' f' rs',
    step a (stage ph isClosed f rs) = stage ph' isClosed' f' rs'
    /\ coherent x prio m ph' isClosed' f'
    /\ acquisitionsOf x (observe a (stage ph isClosed f rs)) + toCome m ph' = toCome m ph
    /\ length rs' + toReport m ph' = length rs + toReport m ph.
Proof.
  intros Hc [-> | Hnext].
  - (* waitForCompletion *)
    destruct ph as [item | item | | |]; cbn [step observe stage].
    + exists (PhResumed item), true, f, rs. rewrite closeQueue_solo.
      split; [done |]. split; [exact Hc |]. by split.
    + exists (PhBusy item), true, f, rs. rewrite closeQueue_solo.
      split; [done |]. split; [exact Hc |]. by split.
    + exists PhSentinel, true, f, rs. split; [apply closeQueue_waiting |].
      destruct Hc as [_ Hf]. split; [by split |]. by split.
    + exists PhSentinel, true, f, rs. rewrite closeQueue_solo.
      destruct Hc as [_ Hf]. split; [done |]. split; [by split |]. by split.
    + exists PhExited, true, f, rs. rewrite closeQueue_solo.
      destruct Hc as [_ Hf]. split; [done |]. split; [by split |]. by split.
  - destruct ph as [item | item | | |]; cbn [stage] in Hnext.
    + (* the loop looks at the item it received *)
      rewrite next_resumed in Hnext. injection Hnext as <-.
      destruct Hc as (Hid & Hprio & Hmax & Hlt).
      exists (PhBusy (setStatus Processing item)), isClosed, f, rs.
      cbn [step observe stage solo workers lookup list_lookup].
      rewrite resume_solo_some. split; [done |]. split; [by repeat split |].
      rewrite acquisitionsOf_acquired by done. cbn [toCome toReport attempts setStatus].
      split; lia.
    + (* the processor settles *)
      rewrite next_busy in Hnext. injection Hnext as <-.
      destruct Hc as (Hid & Hprio & Hmax & Hlt).
      destruct (Hprocessor item) as (r & e & Ho & Hs & He). rewrite Ho.
      cbn [step observe stage solo workers lookup list_lookup settle fst].
      rewrite acquisitionsOf_processed.
      destruct (decide (attempts item + 1 < m)) as [Hmore | Hlast].
      * exists (PhResumed (retried (setError (Some e) item))), isClosed, f, (rs ++ [r])%list.
        rewrite finish_solo_retry by (done || lia).
        split; [done |]. split; [cbn; repeat split; done || lia |].
        rewrite length_app. cbn. split; lia.
      * destruct isClosed.
        -- exists PhSentinel, true,
             (<[id item := exhausted (setError (Some e) item)]> f), (rs ++ [r])%list.
           rewrite finish_solo_exhausted by (done || lia).
           split; [done |]. split.
           ++ split; [done |]. eexists. rewrite <- Hid, lookup_insert_eq.
              split; [done |]. cbn. repeat split; done || lia.
           ++ rewrite length_app. cbn. split; lia.
        -- exists PhWaiting, false,
             (<[id item := exhausted (setError (Some e) item)]> f), (rs ++ [r])%list.
           rewrite finish_solo_exhausted_open by (done || lia).
           split; [done |]. split.
           ++ split; [done |]. eexists. rewrite <- Hid, lookup_insert_eq.
              split; [done |]. cbn. repeat split; done || lia.
           ++ rewrite length_app. cbn. split; lia.
    + done.
    + rewrite next_resumed in Hnext. injection Hnext as <-.
      exists PhExited, true, f, rs. cbn [step observe stage solo workers lookup list_lookup].
      rewrite resume_solo_none. destruct Hc as [_ Hf]. by repeat split.
    + done.
Qed.

Lemma allowed_run tr :
  forall ph isClosed f rs,
    coherent x prio m ph isClosed f ->
    allowedTrace processor tr (stage ph isClosed f rs) ->
    exists ph' isClosed' f' rs',
      (exec tr (stage ph isClosed f rs)).1 = stage ph' isClosed' f' rs'
      /\ coherent x prio m ph' isClosed' f'
      /\ acquisitionsOf x (exec tr (stage ph isClosed f rs)).2 + toCome m ph' = toCome m ph
      /\ length rs' + toReport m ph' = length rs + toReport m ph.
Proof.
  induction tr as [| a tr IH]; intros ph isClosed f rs Hc Htr.
  - exists ph, isClosed, f, rs. by repeat split.
  - destruct Htr as [Ha Htr].
    destruct (allowed_step ph isClosed f rs a Hc Ha) as (ph1 & b1 & f1 & rs1 & Hs & Hc1 & Hn1 & Hr1).
    rewrite Hs in Htr.
    destruct (IH ph1 b1 f1 rs1 Hc1 Htr) as (ph2 & b2 & f2 & rs2 & He & Hc2 & Hn2 & Hr2).
    exists ph2, b2, f2, rs2. rewrite exec_cons, Hs. cbn [fst snd].
    split; [done |]. split; [done |].
    rewrite acquisitionsOf_app. split; lia.
Qed.

End Steps.

(** the pool once the item is submitted and the loop started *)
Lemma started_state item :
  exec [ASubmit item; AStart] (new 1) = (stage (PhResumed item) false ∅ [], []).
Proof.
  rewrite !exec_cons. cbn [exec fst snd observe app step].
  by rewrite submit_new, start_submitted.
Qed.

Lemma stage_allExited ph isClosed f rs :
  allExited (stage ph isClosed f rs) = true -> ph = PhExited.
Proof. by destruct ph. Qed.

(** The run of the scheduler is one of the allowed runs. *)
Lemma schedule_allowed processor fuel :
  forall p, allowedTrace processor (schedule processor fuel p) p.
Proof.
  induction fuel as [| fuel IH]; intros p; [done |]. cbn [schedule].
  destruct (nextAction processor p) as [a |] eqn:Hn; [| done].
  split; [by right | apply IH].
Qed.

End RetryInterleavings.

(** ** Retries of a failing item in a pool of any size *)

Module RetryAnyPool.
Import Types WorkerPool RetryRun.

#[local] Abbreviation size := base.size (only parsing).

Lemma dequeue_got w q it rest :
  AsyncQueue.items q = it :: rest ->
  size (AsyncQueue.processing q) < AsyncQueue.maxConcurrent q ->
  AsyncQueue.dequeue w q
  = (AsyncQueue.withPending q rest ({[id it]} ∪ AsyncQueue.processing q)
                            (AsyncQueue.waiters q), AsyncQueue.Got it).
Proof.
  intros Hi Hlt. unfold AsyncQueue.dequeue. rewrite Hi.
  rewrite bool_decide_eq_false_2, andb_false_r by done.
  by rewrite (proj2 (Nat.ltb_lt _ _) Hlt).
Qed.

Lemma dequeue_closed_empty w q :
  AsyncQueue.items q = [] -> AsyncQueue.closed q = true ->
  AsyncQueue.dequeue w q = (q, AsyncQueue.Sentinel).
Proof.
  intros Hi Hc. unfold AsyncQueue.dequeue. rewrite Hi, Hc.
  by rewrite bool_decide_eq_true_2.
Qed.

Lemma dequeue_open_empty w q :
  AsyncQueue.items q = [] -> AsyncQueue.closed q = false ->
  AsyncQueue.dequeue w q
  = (AsyncQueue.withPending q [] (AsyncQueue.processing q) (AsyncQueue.waiters q ++ [w]),
     AsyncQueue.Suspended).
Proof. intros Hi Hc. unfold AsyncQueue.dequeue. by rewrite Hi, Hc. Qed.

(** [notifyWaiters] with one pending item and room for it: the first
    waiter, if there is one, receives the item. *)
Lemma notifyWaiters_one q it :
  AsyncQueue.items q = [it] -> AsyncQueue.processing q = ∅ ->
  1 <= AsyncQueue.maxConcurrent q ->
  AsyncQueue.notifyWaiters q
  = match AsyncQueue.waiters q with
    | [] => (AsyncQueue.withPending q [it] ∅ [], [])
    | w :: ws => (AsyncQueue.withPending q [] {[id it]} ws, [(w, Some it)])
    end.
Proof.
  intros Hi Hp Hmax. unfold AsyncQueue.notifyWaiters. rewrite Hi, Hp.
  destruct (AsyncQueue.waiters q) as [| w ws]; [done |].
  cbn [AsyncQueue.notifyLoop]. rewrite size_empty.
  rewrite (proj2 (Nat.ltb_lt 0 _)) by lia.
  rewrite taken. by destruct ws.
Qed.

(** [notifyWaiters] with nothing pending changes nothing. *)
Lemma notifyWaiters_none q :
  AsyncQueue.items q = [] ->
  AsyncQueue.notifyWaiters q
  = (AsyncQueue.withPending q [] (AsyncQueue.processing q) (AsyncQueue.waiters q), []).
Proof.
  intros Hi. unfold AsyncQueue.notifyWaiters. rewrite Hi.
  by destruct (AsyncQueue.waiters q).
Qed.

(** [requeue] of the only item in the system while attempts remain:
    the first waiter, if there is one, receives the item at once. *)
Lemma requeue_one_retry q it :
  AsyncQueue.items q = [] -> AsyncQueue.processing q = {[id it]} ->
  1 <= AsyncQueue.maxConcurrent q ->
  attempts it + 1 < maxAttempts it ->
  AsyncQueue.requeue it q
  = match AsyncQueue.waiters q with
    | [] => (AsyncQueue.withPending q [retried it] ∅ [], [])
    | w :: ws => (AsyncQueue.withPending q [] {[id it]} ws, [(w, Some (retried it))])
    end.
Proof.
  intros Hi Hp Hmax Hlt. unfold AsyncQueue.requeue.
  cbn [AsyncQueue.items AsyncQueue.processing AsyncQueue.waiters
       AsyncQueue.withPending attempts maxAttempts setAttempts].
  rewrite (proj2 (Nat.ltb_lt _ _) Hlt), Hi, Hp, released. cbn [app]. rewrite sort_one.
  rewrite (notifyWaiters_one _ (retried it)) by done.
  cbn [AsyncQueue.waiters AsyncQueue.withPending AsyncQueue.completed AsyncQueue.failed
       AsyncQueue.skipped AsyncQueue.closed AsyncQueue.maxConcurrent id setStatus setAttempts].
  by destruct (AsyncQueue.waiters q).
Qed.

(** [requeue] of the only item in the system at its last attempt. *)
Lemma requeue_one_exhausted q it :
  AsyncQueue.items q = [] -> AsyncQueue.processing q = {[id it]} ->
  maxAttempts it <= attempts it + 1 ->
  AsyncQueue.requeue it q
  = ({| AsyncQueue.items := []; AsyncQueue.processing := ∅;
        AsyncQueue.completed := AsyncQueue.completed q;
        AsyncQueue.failed := <[id it := exhausted it]> (AsyncQueue.failed q);
        AsyncQueue.skipped := AsyncQueue.skipped q;
        AsyncQueue.closed := AsyncQueue.closed q;
        AsyncQueue.waiters := AsyncQueue.waiters q;
        AsyncQueue.maxConcurrent := AsyncQueue.maxConcurrent q |}, []).
Proof.
  intros Hi Hp Hge. unfold AsyncQueue.requeue.
  cbn [AsyncQueue.items AsyncQueue.processing AsyncQueue.waiters
       AsyncQueue.withPending attempts maxAttempts setAttempts].
  rewrite (proj2 (Nat.ltb_ge _ _) Hge), Hi, Hp, released.
  unfold AsyncQueue.markFailed.
  cbn [AsyncQueue.withPending AsyncQueue.items AsyncQueue.processing AsyncQueue.waiters
       AsyncQueue.completed AsyncQueue.failed AsyncQueue.skipped AsyncQueue.closed
       AsyncQueue.maxConcurrent id setAttempts].
  rewrite (empty_difference_L (C := gset string)) by done.
  rewrite notifyWaiters_none by done.
  cbn [AsyncQueue.withPending AsyncQueue.items AsyncQueue.processing AsyncQueue.waiters
       AsyncQueue.completed AsyncQueue.failed AsyncQueue.skipped AsyncQueue.closed
       AsyncQueue.maxConcurrent].
  rewrite notifyWaiters_none by done. reflexivity.
Qed.

(** The head of a loop's turn when nothing is pending: the sentinel on
    a closed queue, a suspended [dequeue] on an open one. *)
Lemma loopHead_empty i p :
  running p = true -> AsyncQueue.items (queue p) = [] ->
  loopHead i p
  = if AsyncQueue.closed (queue p)
    then withQueue p (queue p) (<[i := Resumed None]> (workers p))
    else withQueue p (AsyncQueue.withPending (queue p) [] (AsyncQueue.processing (queue p))
                        (AsyncQueue.waiters (queue p) ++ [i]))
                   (<[i := Waiting]> (workers p)).
Proof.
  intros Hr Hi. unfold loopHead. rewrite Hr.
  destruct (AsyncQueue.closed (queue p)) eqn:Hc.
  - by rewrite dequeue_closed_empty.
  - by rewrite dequeue_open_empty.
Qed.

(** The head of a loop's turn when one item is pending and nothing is
    in processing. *)
Lemma loopHead_one i p it :
  running p = true -> AsyncQueue.items (queue p) = [it] ->
  AsyncQueue.processing (queue p) = ∅ -> 1 <= AsyncQueue.maxConcurrent (queue p) ->
  loopHead i p
  = withQueue p (AsyncQueue.withPending (queue p) [] {[id it]} (AsyncQueue.waiters (queue p)))
              (<[i := Resumed (Some it)]> (workers p)).
Proof.
  intros Hr Hi Hp Hm. unfold loopHead. rewrite Hr.
  rewrite (dequeue_got i (queue p) it []); [| done | rewrite Hp, size_empty; lia].
  by rewrite Hp, taken.
Qed.

(** the loops that have not exited *)
Definition isAlive (w : Worker) : bool :=
  match w with Exited => false | _ => true end.

Definition alive (ws : list Worker) : nat :=
  length (filter (fun w => isAlive w = true) ws).

Lemma alive_cons w ws : alive (w :: ws) = PoolCounting.one (isAlive w) + alive ws.
Proof.
  unfold alive. rewrite filter_cons.
  case_decide as H; [by rewrite H |].
  apply not_true_is_false in H. by rewrite H.
Qed.

Lemma alive_insert ws i w0 w :
  ws !! i = Some w0 ->
  alive (<[i := w]> ws) + PoolCounting.one (isAlive w0)
  = alive ws + PoolCounting.one (isAlive w).
Proof.
  revert i. induction ws as [| v ws IH]; intros i Hi; [done |].
  destruct i as [| i]; simpl in *.
  - injection Hi as ->. rewrite !alive_cons. lia.
  - rewrite !alive_cons. specialize (IH i Hi). lia.
Qed.

Lemma alive_swap ws i w0 w :
  ws !! i = Some w0 -> isAlive w0 = true -> isAlive w = true ->
  alive (<[i := w]> ws) = alive ws.
Proof.
  intros Hi H0 Hw. pose proof (alive_insert ws i w0 w Hi) as H.
  rewrite H0, Hw in H. lia.
Qed.

Lemma alive_none p : alive (workers p) = 0 -> allExited p = true.
Proof.
  unfold allExited. induction (workers p) as [| w ws IH]; [done |].
  rewrite alive_cons. intros H. cbn [forallb].
  destruct w; cbn in H; try lia. by apply IH.
Qed.

(** A pool on a closed queue in which no loop is suspended. *)
Definition awake (p : t) : Prop :=
  AsyncQueue.closed (queue p) = true /\ Forall (fun w => w <> Waiting) (workers p).

Lemma resume_awake i p : awake p -> awake (resume i p).
Proof.
  intros [Hc Hf]. unfold resume.
  destruct (workers p !! i) as [[| [it |] | held |] |]; try done;
    (split; [done |]); by apply Forall_insert.
Qed.

Lemma deliver_lookup ds :
  forall ws j w,
    deliver ds ws !! j = Some w ->
    (ws !! j = Some w /\ j ∉ map fst ds) \/ exists d, d ∈ ds /\ w = Resumed d.2.
Proof.
  induction ds as [| d ds IH]; intros ws j w Hj.
  { left. split; [done |]. by intros Hin%elem_of_nil. }
  rewrite PoolCounting.deliver_cons in Hj.
  destruct (IH _ _ _ Hj) as [[Hin Hnot] | (d' & Hd' & ->)].
  - apply list_lookup_insert_Some in Hin as [(Heq & <- & _) | [Hne Hin]].
    + right. exists d. split; [left | done].
    + left. split; [done |]. cbn [map]. by apply not_elem_of_cons.
  - right. exists d'. split; [by right | done].
Qed.

Section Tracking.
Variable processor : QueueItem -> Outcome.
Hypothesis Hprocessor : failsRecoverably processor.
Variable x : string.
Variable prio : Z.
Variable m : nat.

(** the item of the run, in one of its attempts *)
Definition ours (it : QueueItem) : Prop :=
  id it = x /\ priority it = prio /\ maxAttempts it = m /\ attempts it < m.

(** the item as [requeue] has failed it *)
Definition givenUp (fi : QueueItem) : Prop :=
  status fi = Failed
  /\ code <$> error fi = Some "MAX_ATTEMPTS"
  /\ attempts fi = m
  /\ priority fi = prio.

(** Where the item is between two turns of the event loop: with the
    loop [h], which has received it or awaits the processor, or among
    the failed items. *)
Inductive Place :=
  | InLoop (h : nat) (it : QueueItem) (busy : bool)
  | InFailed.

Definition holder (busy : bool) (it : QueueItem) : Worker :=
  if busy then Busy it else Resumed (Some it).

(** the turns that the item still takes: two for each attempt, to the
    processor and back *)
Definition toGo (loc : Place) : nat :=
  match loc with
  | InLoop _ it busy => 2 * (m - attempts it) - PoolCounting.one busy
  | InFailed => 0
  end.

Definition noOtherHolder (h : option nat) (ws : list Worker) : Prop :=
  forall i w, ws !! i = Some w -> holdsItem w = true -> h = Some i.

Definition isSentinel (w : Worker) : Prop := w = Exited \/ w = Resumed None.

(** Only a closed queue hands out the sentinel. *)
Definition closedIfSentinel (q : AsyncQueue.t) (ws : list Worker) : Prop :=
  forall i w, ws !! i = Some w -> isSentinel w -> AsyncQueue.closed q = true.

Definition placed (n : nat) (loc : Place) (q : AsyncQueue.t) (ws : list Worker) : Prop :=
  match loc with
  | InLoop h it busy =>
      ours it /\ n = attempts it + PoolCounting.one busy
      /\ AsyncQueue.processing q = {[x]}
      /\ ws !! h = Some (holder busy it)
      /\ noOtherHolder (Some h) ws
  | InFailed =>
      n = m /\ noOtherHolder None ws
      /\ exists fi, AsyncQueue.failed q !! x = Some fi /\ givenUp fi
  end.

(** The state of a started pool that works on the one item, after [n]
    acquisitions of it. *)
Definition tracked (n : nat) (loc : Place) (p : t) : Prop :=
  PoolCounting.good p
  /\ running p = true
  /\ 1 <= AsyncQueue.maxConcurrent (queue p)
  /\ 1 <= length (workers p)
  /\ closedIfSentinel (queue p) (workers p)
  /\ AsyncQueue.items (queue p) = []
  /\ placed n loc (queue p) (workers p).

(** The turns of a run: the calls of [start] and [waitForCompletion],
    and the continuations of the loops, where a loop that awaits the
    processor continues with what the processor makes of its item. *)
Definition permitted (a : Action) (p : t) : Prop :=
  match a with
  | AStart | AWaitForCompletion | AResume _ => True
  | AFinish i o => forall held, workers p !! i = Some (Busy held) -> o = processor held
  | _ => False
  end.

Fixpoint permittedTrace (tr : list Action) (p : t) : Prop :=
  match tr with
  | [] => True
  | a :: tr' => permitted a p /\ permittedTrace tr' (step a p)
  end.

(** Loops that hold no item come, go or change, on a queue with the
    same contents. *)
Lemma tracked_idle n loc p p' :
  tracked n loc p -> PoolCounting.good p' ->
  running p' = true ->
  AsyncQueue.items (queue p') = [] ->
  AsyncQueue.processing (queue p') = AsyncQueue.processing (queue p) ->
  AsyncQueue.failed (queue p') = AsyncQueue.failed (queue p) ->
  AsyncQueue.maxConcurrent (queue p') = AsyncQueue.maxConcurrent (queue p) ->
  (AsyncQueue.closed (queue p) = true -> AsyncQueue.closed (queue p') = true) ->
  length (workers p) <= length (workers p') ->
  (forall j w, workers p' !! j = Some w ->
               workers p !! j = Some w
               \/ (holdsItem w = false
                   /\ (isSentinel w -> AsyncQueue.closed (queue p') = true))) ->
  (forall j w, workers p !! j = Some w -> holdsItem w = true -> workers p' !! j = Some w) ->
  tracked n loc p'.
Proof.
  intros (Hg & Hr & Hm & Hl & Hs & Hi & Hp) Hg' Hr' Hi' Hproc Hf Hmax Hc Hlen Hnew Hold.
  split; [done |]. split; [done |]. split; [by rewrite Hmax |]. split; [lia |].
  split; [| split; [done |]].
  - intros j w Hj Hw. destruct (Hnew j w Hj) as [Hin | [_ Hcl]]; [| by apply Hcl].
    apply Hc. by apply (Hs j w).
  - destruct loc as [h it busy |]; cbn [placed] in *.
    + destruct Hp as (Ho & Hn & Hpr & Hh & Hno).
      split; [done |]. split; [done |]. split; [by rewrite Hproc |].
      split; [apply Hold; [done | by destruct busy] |].
      intros j w Hj Hw. destruct (Hnew j w Hj) as [Hin | [Hid _]]; [| congruence].
      by apply (Hno j w).
    + destruct Hp as (Hn & Hno & fi & Hfi & Hgu).
      split; [done |]. split; [| exists fi; by rewrite Hf].
      intros j w Hj Hw. destruct (Hnew j w Hj) as [Hin | [Hid _]]; [| congruence].
      by apply (Hno j w).
Qed.

Lemma holder_inj h it busy ws (w : Worker) i :
  ws !! h = Some (holder busy it) -> noOtherHolder (Some h) ws ->
  ws !! i = Some w -> holdsItem w = true ->
  h = i /\ w = holder busy it.
Proof.
  intros Hh Hno Hi Hw. pose proof (Hno i w Hi Hw) as [= ->].
  split; [done |]. congruence.
Qed.

(** A loop continues after [await dequeue()]. *)
Lemma tracked_resume i n loc p :
  tracked n loc p -> PoolCounting.good (resume i p) ->
  exists loc',
    tracked (n + acquisitionsOf x (observe (AResume i) p)) loc' (resume i p)
    /\ PoolCounting.acquiredCount (observe (AResume i) p)
       = acquisitionsOf x (observe (AResume i) p)
    /\ (forall r, workers p !! i = Some (Resumed r) ->
        toGo loc' + alive (workers (resume i p)) < toGo loc + alive (workers p)).
Proof.
  intros Ht Hg'. pose proof Ht as (Hg & Hr & Hm & Hl & Hs & Hi & Hp).
  unfold resume in *. cbn [observe].
  destruct (workers p !! i) as [[| [it' |] | held |] |] eqn:Hw;
    try (exists loc; rewrite Nat.add_0_r; by split).
  - destruct loc as [h it busy |]; cbn [placed] in Hp.
    + destruct Hp as (Ho & Hn & Hpr & Hh & Hno).
      destruct (holder_inj _ _ _ _ _ _ Hh Hno Hw eq_refl) as [-> Heq].
      destruct busy; [done |]. injection Heq as ->.
      destruct Ho as (Hid & Hprio & Hmax & Hatt).
      exists (InLoop i (setStatus Processing it) true).
      rewrite acquisitionsOf_acquired by done.
      split; [| split; [done |]];
        [| intros ? _; cbn [withQueue workers toGo PoolCounting.one];
           pose proof (alive_insert (workers p) i _ (Busy (setStatus Processing it)) Hw);
           cbn in *; lia].
      split; [done |]. split; [done |]. split; [done |].
      cbn [withQueue queue workers].
      split; [by rewrite length_insert |]. split; [| split; [done |]].
      * intros j w Hj Hsen. destruct (decide (i = j)) as [<- | Hne].
        -- rewrite list_lookup_insert_eq in Hj by (by eapply lookup_lt_Some).
           injection Hj as <-. by destruct Hsen.
        -- rewrite list_lookup_insert_ne in Hj by done. by apply (Hs j w).
      * split; [done |]. split; [cbn in *; lia |]. split; [done |].
        split; [apply list_lookup_insert_eq; by eapply lookup_lt_Some |].
        intros j w Hj Hhold. destruct (decide (i = j)) as [<- | Hne]; [done |].
        rewrite list_lookup_insert_ne in Hj by done. by apply (Hno j w).
    + destruct Hp as (_ & Hno & _). by pose proof (Hno i _ Hw eq_refl).
  - exists loc. rewrite Nat.add_0_r.
    split; [| split; [done |]];
      [| intros ? _; cbn [withQueue workers];
         pose proof (alive_insert (workers p) i _ Exited Hw); cbn in *; lia].
    assert (Hc : AsyncQueue.closed (queue p) = true) by (apply (Hs i _ Hw); by right).
    apply (tracked_idle n loc p); try done.
    + cbn [withQueue workers]. by rewrite length_insert.
    + cbn [withQueue workers queue]. intros j w Hj.
      destruct (decide (i = j)) as [<- | Hne].
      * rewrite list_lookup_insert_eq in Hj by (by eapply lookup_lt_Some).
        injection Hj as <-. by right.
      * rewrite list_lookup_insert_ne in Hj by done. by left.
    + cbn [withQueue workers]. intros j w Hj Hhold.
      destruct (decide (i = j)) as [<- | Hne]; [rewrite Hw in Hj; by injection Hj as <- |].
      by rewrite list_lookup_insert_ne.
Qed.

(** [waitForCompletion] closes the queue and releases the suspended
    loops with the sentinel. *)
Lemma tracked_close n loc p :
  tracked n loc p -> PoolCounting.good (closeQueue p) -> tracked n loc (closeQueue p).
Proof.
  intros Ht Hg'. pose proof Ht as (Hg & Hr & Hm & Hl & Hs & Hi & Hp).
  unfold closeQueue, AsyncQueue.close in *.
  apply (tracked_idle n loc p); try done;
    cbn [withQueue workers queue AsyncQueue.closed].
  - by rewrite PoolCounting.deliver_length.
  - intros j w Hj. destruct (deliver_lookup _ _ _ _ Hj) as [[Hin _] | (d & Hd & ->)]; [by left |].
    right. apply list_elem_of_fmap in Hd as (w0 & -> & _). by split.
  - intros j w Hj Hhold. rewrite PoolCounting.deliver_lookup_other; [done |].
    rewrite map_map. cbn [fst]. rewrite map_id. intros Hin.
    destruct Hg as [_ Hwait]. rewrite (Hwait j Hin) in Hj. by injection Hj as <-.
Qed.

Lemma closedIfSentinel_insert q q' ws i w :
  closedIfSentinel q ws ->
  (AsyncQueue.closed q = true -> AsyncQueue.closed q' = true) ->
  (isSentinel w -> AsyncQueue.closed q' = true) ->
  closedIfSentinel q' (<[i := w]> ws).
Proof.
  intros Hs Hc Hw j w' Hj Hsen.
  apply list_lookup_insert_Some in Hj as [(_ & <- & _) | [_ Hj]]; [by apply Hw |].
  apply Hc. by apply (Hs j w').
Qed.

Lemma noOtherHolder_insert h ws i w :
  noOtherHolder h ws -> (holdsItem w = true -> h = Some i) ->
  noOtherHolder h (<[i := w]> ws).
Proof.
  intros Hno Hw j w' Hj Hhold.
  apply list_lookup_insert_Some in Hj as [(<- & <- & _) | [_ Hj]]; [by apply Hw |].
  by apply (Hno j w').
Qed.

(** A loop continues after the processor has failed the item. *)
Lemma tracked_finish i o n loc p :
  tracked n loc p -> permitted (AFinish i o) p -> PoolCounting.good (finish i o p) ->
  exists loc',
    tracked n loc' (finish i o p)
    /\ PoolCounting.acquiredCount (observe (AFinish i o) p) = 0
    /\ acquisitionsOf x (observe (AFinish i o) p) = 0
    /\ (forall held, workers p !! i = Some (Busy held) ->
        toGo loc' + alive (workers (finish i o p)) < toGo loc + alive (workers p))
    /\ (awake p -> awake (finish i o p)).
Proof.
  intros Ht Ha Hg'. pose proof Ht as (Hg & Hr & Hm & Hl & Hs & Hi & Hp).
  cbn [permitted observe] in *.
  destruct (workers p !! i) as [[| r0 | held |] |] eqn:Hw;
    try (exists loc; unfold finish in *; by rewrite Hw in * ).
  destruct loc as [h it busy |]; cbn [placed] in Hp;
    [| destruct Hp as (_ & Hno & _); by pose proof (Hno i _ Hw eq_refl)].
  destruct Hp as (Ho & Hn & Hpr & Hh & Hno).
  destruct (holder_inj _ _ _ _ _ _ Hh Hno Hw eq_refl) as [-> Heq].
  destruct busy; [| done]. injection Heq as ->.
  destruct Ho as (Hid & Hprio & Hmax & Hatt).
  rewrite (Ha it eq_refl) in *. clear Ha.
  destruct (Hprocessor it) as (r & e & Hproc & Hsucc & Hrec).
  set (it' := setError (Some e) it) in *.
  assert (Hfin : finish i (processor it) p
                 = let '(q, ds) := AsyncQueue.requeue it' (queue p) in
                   loopHead i {| queue := q; workers := deliver ds (workers p);
                                 results := results p ++ [r]; running := running p;
                                 workerCount := workerCount p |}).
  { unfold finish. rewrite Hw, Hproc. cbn [settle]. unfold updateQueue, isRecoverable.
    rewrite Hsucc. cbn [it' error setError attempts maxAttempts].
    by rewrite Hrec, Hmax, (proj2 (Nat.ltb_lt _ _) Hatt). }
  rewrite Hfin in *. clear Hfin.
  assert (Hi' : i < length (workers p)) by (by eapply lookup_lt_Some).
  assert (Hpr' : AsyncQueue.processing (queue p) = {[id it']}) by (by rewrite Hpr, <- Hid).
  destruct (decide (attempts it + 1 < m)) as [Hlt | Hge].
  - assert (Hlt' : attempts it' + 1 < maxAttempts it') by (cbn; lia).
    pose proof (requeue_one_retry (queue p) it' Hi Hpr' Hm Hlt') as Hreq.
    rewrite Hreq in *. clear Hreq.
    destruct (AsyncQueue.waiters (queue p)) as [| w ws] eqn:Hws.
    + match type of Hg' with
      | PoolCounting.good (loopHead i ?p1) =>
          pose proof (loopHead_one i p1 (retried it') Hr eq_refl eq_refl Hm) as Hhead
      end.
      rewrite Hhead in *. clear Hhead.
      cbn [queue workers deliver foldl withQueue AsyncQueue.withPending] in *.
      exists (InLoop i (retried it') false).
      split; [| split; [done |]; split; [done |]; split];
        [| intros ? _; cbn [withQueue workers toGo PoolCounting.one];
           rewrite (alive_swap _ i _ _ Hw) by done; cbn; lia
         | intros [Hcl Hfa]; split; [done | by apply Forall_insert]].
      split; [done |]. split; [done |]. split; [done |].
      cbn [withQueue queue workers AsyncQueue.withPending AsyncQueue.items
           AsyncQueue.processing AsyncQueue.maxConcurrent].
      split; [by rewrite length_insert |].
      split; [apply (closedIfSentinel_insert (queue p)); [done | done | by intros []] |].
      split; [done |].
      split; [by repeat split; cbn; try lia |].
      split; [cbn in *; lia |].
      split; [by rewrite <- Hid |].
      split; [by apply list_lookup_insert_eq |].
      by apply noOtherHolder_insert.
    + assert (Hw0 : workers p !! w = Some Waiting).
      { destruct Hg as [_ Hwait]. apply Hwait. rewrite Hws. left. }
      assert (Hne : w <> i) by (intros ->; congruence).
      assert (Hwl : w < length (workers p)) by (by eapply lookup_lt_Some).
      match type of Hg' with
      | PoolCounting.good (loopHead i ?p1) =>
          pose proof (loopHead_empty i p1 Hr eq_refl) as Hhead
      end.
      rewrite Hhead in *. clear Hhead.
      cbn [queue workers deliver foldl withQueue AsyncQueue.withPending
           AsyncQueue.closed fst snd] in *.
      exists (InLoop w (retried it') false).
      assert (Hal : forall idle, isAlive idle = true ->
                 alive (<[i := idle]> (<[w := Resumed (Some (retried it'))]> (workers p)))
                 = alive (workers p)).
      { intros idle Hidle. rewrite (alive_swap _ i (Busy it)); [| | done | done].
        - by rewrite (alive_swap _ w Waiting).
        - by rewrite list_lookup_insert_ne. }
      split; [| split; [done |]; split; [done |]; split];
        [| intros ? _; cbn [toGo PoolCounting.one];
           destruct (AsyncQueue.closed (queue p)); cbn [withQueue workers];
           rewrite Hal by done; cbn; lia
         | intros [_ Hfa]; by destruct (Forall_lookup_1 _ _ _ _ Hfa Hw0)].
      assert (Hrest : forall q' idle,
                 AsyncQueue.closed q' = AsyncQueue.closed (queue p) ->
                 AsyncQueue.items q' = [] ->
                 AsyncQueue.processing q' = {[id it']} ->
                 AsyncQueue.maxConcurrent q' = AsyncQueue.maxConcurrent (queue p) ->
                 holdsItem idle = false ->
                 (isSentinel idle -> AsyncQueue.closed q' = true) ->
                 let ws' := <[i := idle]> (<[w := Resumed (Some (retried it'))]> (workers p)) in
                 1 <= AsyncQueue.maxConcurrent q'
                 /\ 1 <= length ws'
                 /\ closedIfSentinel q' ws'
                 /\ AsyncQueue.items q' = []
                 /\ placed n (InLoop w (retried it') false) q' ws').
      { intros q' idle Hc' Hi2 Hp2 Hm2 Hidle Hsen ws'. unfold ws'.
        split; [by rewrite Hm2 |]. split; [by rewrite !length_insert |].
        split.
        { apply (closedIfSentinel_insert q'); [| done | done].
          apply (closedIfSentinel_insert (queue p)); [done | by rewrite Hc' | by intros []]. }
        split; [done |].
        split; [by repeat split; cbn; try lia |].
        split; [cbn in *; lia |].
        split; [by rewrite Hp2, <- Hid |].
        split.
        { rewrite list_lookup_insert_ne by done. by apply list_lookup_insert_eq. }
        intros j w' Hj Hhold.
        apply list_lookup_insert_Some in Hj as [(_ & <- & _) | [Hji Hj]]; [congruence |].
        apply list_lookup_insert_Some in Hj as [(<- & _ & _) | [_ Hj]]; [done |].
        pose proof (Hno j w' Hj Hhold) as [= ->]. done. }
      destruct (AsyncQueue.closed (queue p)) eqn:Hc.
      * split; [done |]. split; [done |]. by apply Hrest.
      * split; [done |]. split; [done |]. apply Hrest; try done. by intros [].
  - assert (Hge' : maxAttempts it' <= attempts it' + 1) by (cbn; lia).
    pose proof (requeue_one_exhausted (queue p) it' Hi Hpr' Hge') as Hreq.
    rewrite Hreq in *. clear Hreq.
    match type of Hg' with
    | PoolCounting.good (loopHead i ?p1) =>
        pose proof (loopHead_empty i p1 Hr eq_refl) as Hhead
    end.
    rewrite Hhead in *. clear Hhead.
    cbn [queue workers deliver foldl withQueue AsyncQueue.withPending
         AsyncQueue.closed fst snd] in *.
    exists InFailed.
    split; [| split; [done |]; split; [done |]; split];
      [| intros ? _; cbn [toGo PoolCounting.one];
         destruct (AsyncQueue.closed (queue p)); cbn [withQueue workers];
         rewrite (alive_swap _ i _ _ Hw) by done; lia
       | intros [Hcl Hfa]; rewrite Hcl; split; [done | by apply Forall_insert]].
    assert (Hrest : forall q' idle,
               AsyncQueue.closed q' = AsyncQueue.closed (queue p) ->
               AsyncQueue.items q' = [] ->
               AsyncQueue.failed q' = <[id it' := exhausted it']> (AsyncQueue.failed (queue p)) ->
               AsyncQueue.maxConcurrent q' = AsyncQueue.maxConcurrent (queue p) ->
               holdsItem idle = false ->
               (isSentinel idle -> AsyncQueue.closed q' = true) ->
               let ws' := <[i := idle]> (workers p) in
               1 <= AsyncQueue.maxConcurrent q'
               /\ 1 <= length ws'
               /\ closedIfSentinel q' ws'
               /\ AsyncQueue.items q' = []
               /\ placed n InFailed q' ws').
    { intros q' idle Hc' Hi2 Hf2 Hm2 Hidle Hsen ws'. unfold ws'.
      split; [by rewrite Hm2 |]. split; [by rewrite length_insert |].
      split; [apply (closedIfSentinel_insert (queue p)); [done | by rewrite Hc' | done] |].
      split; [done |].
      split; [cbn in *; lia |].
      split.
      { intros j w' Hj Hhold.
        apply list_lookup_insert_Some in Hj as [(_ & <- & _) | [Hji Hj]]; [congruence |].
        pose proof (Hno j w' Hj Hhold) as [= ->]. done. }
      exists (exhausted it'). split; [by rewrite Hf2, <- Hid, lookup_insert_eq |].
      by repeat split; cbn; try lia. }
    destruct (AsyncQueue.closed (queue p)) eqn:Hc.
    * split; [done |]. split; [done |]. by apply Hrest.
    * split; [done |]. split; [done |]. apply Hrest; try done. by intros [].
Qed.

(** [start] pushes one more loop; it finds nothing pending. *)
Lemma tracked_spawn n loc p : tracked n loc p -> tracked n loc (spawn p).
Proof.
  intros Ht. pose proof Ht as (Hg & Hr & Hm & Hl & Hs & Hi & Hp).
  destruct (PoolCounting.spawn_good p Hg) as (Hg' & _ & _).
  unfold spawn in *.
  match type of Hg' with
  | PoolCounting.good (loopHead ?i ?p1) =>
      pose proof (loopHead_empty i p1 Hr Hi) as Hhead
  end.
  rewrite Hhead in *. clear Hhead. cbn [queue withQueue workers] in *.
  assert (Hnew : forall idle j w,
             <[length (workers p) := idle]> (workers p ++ [Waiting])%list !! j = Some w ->
             workers p !! j = Some w \/ w = idle).
  { intros idle j w Hj.
    apply list_lookup_insert_Some in Hj as [(_ & <- & _) | [Hne Hj]]; [by right |].
    apply lookup_app_Some in Hj as [Hj | [Hge Hj]]; [by left |].
    apply list_lookup_singleton_Some in Hj as [Hj _]. lia. }
  assert (Hold : forall idle j w,
             workers p !! j = Some w ->
             <[length (workers p) := idle]> (workers p ++ [Waiting])%list !! j = Some w).
  { intros idle j w Hj. pose proof (lookup_lt_Some _ _ _ Hj) as Hlt.
    rewrite list_lookup_insert_ne by lia. by rewrite lookup_app_l. }
  destruct (AsyncQueue.closed (queue p)) eqn:Hc.
  - apply (tracked_idle n loc p); try done; cbn [withQueue workers queue].
    + rewrite length_insert, length_app. lia.
    + intros j w Hj. destruct (Hnew _ _ _ Hj) as [Hin | ->]; [by left | by right].
    + intros j w Hj _. by apply Hold.
  - apply (tracked_idle n loc p); try done;
      cbn [withQueue workers queue AsyncQueue.withPending AsyncQueue.closed].
    + rewrite length_insert, length_app. lia.
    + intros j w Hj. destruct (Hnew _ _ _ Hj) as [Hin | ->]; [by left |].
      right. split; [done |]. by intros [].
    + intros j w Hj _. by apply Hold.
Qed.

Lemma tracked_spawns k n loc p : tracked n loc p -> tracked n loc (Nat.iter k spawn p).
Proof.
  intros Ht. induction k as [| k IH]; [done |]. rewrite Nat.iter_succ.
  by apply tracked_spawn.
Qed.

(** The pool after [submit(item)] and [start()]: the first loop has
    received the item, the others are suspended. *)
Lemma tracked_started W item :
  1 <= W -> ours item ->
  tracked (attempts item) (InLoop 0 item false) (start (submit item (new W))).
Proof.
  intros HW Ho. unfold submit. cbn [new queue].
  rewrite PendingOrder.enqueue_as_many, PendingOrder.enqueueMany_new, sort_one.
  cbn [withQueue deliver foldl workers results running workerCount new].
  unfold start. cbn [running workerCount queue workers results withQueue new].
  destruct W as [| k]; [lia |]. rewrite Nat.iter_succ_r.
  apply tracked_spawns.
  match goal with
  | |- tracked _ _ (spawn ?p1) =>
      assert (Hg : PoolCounting.good p1)
        by (split; [apply NoDup_nil_2 | by intros w Hin%elem_of_nil]);
      destruct (PoolCounting.spawn_good p1 Hg) as (Hg' & _ & _)
  end.
  unfold spawn in *. cbn [workers withQueue queue app length] in *.
  match type of Hg' with
  | PoolCounting.good (loopHead 0 ?p1) =>
      pose proof (loopHead_one 0 p1 item eq_refl eq_refl eq_refl) as Hhead
  end.
  rewrite Hhead in * by (cbn; lia). clear Hhead.
  cbn [withQueue queue workers AsyncQueue.withPending AsyncQueue.waiters AsyncQueue.new] in *.
  destruct Ho as (Hid & Hprio & Hmax & Hatt).
  split; [done |]. split; [done |]. split; [cbn; lia |]. split; [cbn; lia |].
  split.
  { intros j w Hj Hsen. destruct j as [| j]; [| done].
    injection Hj as <-. by destruct Hsen. }
  split; [done |].
  split; [done |]. split; [cbn; lia |]. split; [by rewrite <- Hid |]. split; [done |].
  intros j w Hj Hhold. destruct j as [| j]; done.
Qed.

(** The turns that the scheduler takes. *)
Lemma nextAction_cases p a :
  nextAction processor p = Some a ->
  (exists i r, a = AResume i /\ workers p !! i = Some (Resumed r))
  \/ (exists i it, a = AFinish i (processor it) /\ workers p !! i = Some (Busy it)).
Proof.
  unfold nextAction. intros H.
  destruct (list_find _ (workers p)) as [[i w] |] eqn:Hf; [| done].
  apply list_find_Some in Hf as (Hi & Hw & _).
  destruct w as [| r | it |]; try done; injection H as <-.
  - left. by exists i, r.
  - right. by exists i, it.
Qed.

Lemma nextAction_none p :
  nextAction processor p = None -> awake p -> allExited p = true.
Proof.
  unfold nextAction. intros H [_ Ha].
  destruct (list_find _ (workers p)) as [[i w] |] eqn:Hf; [by destruct w |].
  apply list_find_None in Hf. unfold allExited. apply forallb_forall.
  intros w Hw%list_elem_of_In.
  pose proof (proj1 (Forall_forall _ _) Hf w Hw) as H1.
  pose proof (proj1 (Forall_forall _ _) Ha w Hw) as H2.
  by destruct w.
Qed.

Lemma nextAction_permitted p a : nextAction processor p = Some a -> permitted a p.
Proof.
  intros [(i & r & -> & Hi) | (i & it & -> & Hi)]%nextAction_cases; [done |].
  cbn [permitted]. intros held Hh. congruence.
Qed.

(** One turn of a run. A turn that the scheduler takes brings the run
    closer to its end. *)
Lemma tracked_step a n loc p :
  tracked n loc p -> permitted a p ->
  exists loc',
    tracked (n + acquisitionsOf x (observe a p)) loc' (step a p)
    /\ PoolCounting.acquiredCount (observe a p) = acquisitionsOf x (observe a p)
    /\ (nextAction processor p = Some a ->
        toGo loc' + alive (workers (step a p)) < toGo loc + alive (workers p)
        /\ (awake p -> awake (step a p))).
Proof.
  intros Ht Ha. destruct (PoolCounting.step_counts a p (proj1 Ht)) as (Hg' & _ & _).
  destruct a as [item | its | | i | i o | | |]; try done.
  - exists loc. cbn [step observe] in *. unfold start.
    rewrite (proj1 (proj2 Ht)), Nat.add_0_r. split; [done |]. split; [done |].
    by intros [(i & r & [=] & _) | (i & it & [=] & _)]%nextAction_cases.
  - destruct (tracked_resume i n loc p Ht Hg') as (loc' & Ht' & Hc & Hprog).
    exists loc'. split; [done |]. split; [done |].
    intros [(j & r & [= <-] & Hj) | (j & it & [=] & _)]%nextAction_cases.
    split; [by apply (Hprog r) | apply resume_awake].
  - destruct (tracked_finish i o n loc p Ht Ha Hg') as (loc' & Ht' & Hc & -> & Hprog & Haw).
    exists loc'. rewrite Nat.add_0_r. split; [done |]. split; [done |].
    intros [(j & r & [=] & _) | (j & it & [= <- _] & Hj)]%nextAction_cases.
    split; [by apply (Hprog it) | done].
  - exists loc. rewrite Nat.add_0_r. split; [by apply tracked_close |]. split; [done |].
    by intros [(i & r & [=] & _) | (i & it & [=] & _)]%nextAction_cases.
Qed.

(** A run of such turns. *)
Lemma tracked_run tr :
  forall n loc p,
    tracked n loc p -> permittedTrace tr p ->
    exists loc',
      tracked (n + acquisitionsOf x (exec tr p).2) loc' (exec tr p).1
      /\ PoolCounting.acquiredCount (exec tr p).2 = acquisitionsOf x (exec tr p).2.
Proof.
  induction tr as [| a tr IH]; intros n loc p Ht Htr.
  - exists loc. rewrite Nat.add_0_r. by split.
  - destruct Htr as [Ha Htr]. rewrite exec_cons. cbn [fst snd].
    destruct (tracked_step a n loc p Ht Ha) as (loc1 & Ht1 & Hc1 & _).
    destruct (IH _ loc1 _ Ht1 Htr) as (loc' & Ht' & Hc').
    exists loc'. rewrite PoolCounting.acquiredCount_app, acquisitionsOf_app, Hc1, Hc'.
    split; [| done]. by rewrite Nat.add_assoc.
Qed.

Lemma tracked_bound n loc p : tracked n loc p -> n <= m.
Proof.
  intros (_ & _ & _ & _ & _ & _ & Hp). destruct loc as [h it busy |]; cbn [placed] in Hp.
  - destruct Hp as ((_ & _ & _ & Hatt) & -> & _). destruct busy; cbn; lia.
  - by destruct Hp as (-> & _).
Qed.

Lemma allExited_lookup p j w : allExited p = true -> workers p !! j = Some w -> w = Exited.
Proof.
  unfold allExited. intros H Hj.
  apply list_elem_of_lookup_2, list_elem_of_In in Hj.
  pose proof (proj1 (forallb_forall _ _) H w Hj) as Hw. by destruct w.
Qed.

(** Once every loop has exited, the item is given up and the pool is
    drained. *)
Lemma tracked_exited n loc p :
  tracked n loc p -> allExited p = true ->
  n = m
  /\ (exists fi, AsyncQueue.failed (queue p) !! x = Some fi /\ givenUp fi)
  /\ drained p.
Proof.
  intros (Hg & Hr & Hm & Hl & Hs & Hi & Hp) Hex.
  destruct loc as [h it busy |]; cbn [placed] in Hp.
  - destruct Hp as (_ & _ & _ & Hh & _).
    pose proof (allExited_lookup p h _ Hex Hh). by destruct busy.
  - destruct Hp as (-> & _ & Hf). split; [done |]. split; [done |].
    destruct (lookup_lt_is_Some_2 (workers p) 0) as [w0 Hw0]; [lia |].
    pose proof (allExited_lookup p 0 w0 Hex Hw0) as ->.
    split; [apply (Hs 0 Exited); [done | by left] |]. split; [done |].
    split.
    + destruct (AsyncQueue.waiters (queue p)) as [| w wts] eqn:Hwt; [done |].
      destruct Hg as [_ Hwait].
      assert (Hw : workers p !! w = Some Waiting) by (apply Hwait; rewrite Hwt; left).
      by pose proof (allExited_lookup p w _ Hex Hw).
    + apply Forall_forall. intros w Hw. left.
      apply list_elem_of_lookup in Hw as [j Hj].
      by apply (allExited_lookup p j).
Qed.

(** The run of the scheduler is one of the runs. *)
Lemma schedule_permitted fuel : forall p, permittedTrace (schedule processor fuel p) p.
Proof.
  induction fuel as [| fuel IH]; intros p; [done |]. cbn [schedule].
  destruct (nextAction processor p) as [a |] eqn:Hn; [| done].
  split; [by apply nextAction_permitted | apply IH].
Qed.

Lemma permittedTrace_app tr1 :
  forall tr2 p,
    permittedTrace tr1 p -> permittedTrace tr2 (exec tr1 p).1 -> permittedTrace (tr1 ++ tr2) p.
Proof.
  induction tr1 as [| a tr1 IH]; intros tr2 p H1 H2; [done |].
  destruct H1 as [Ha H1]. rewrite exec_cons in H2. split; [done |]. by apply IH.
Qed.

Lemma permittedTrace_wait tr p :
  permittedTrace tr (closeQueue p) -> permittedTrace (AWaitForCompletion :: tr) p.
Proof. intros H. split; [exact I | exact H]. Qed.

(** With a closed queue and no loop suspended, the scheduler runs the
    pool until every loop has exited. *)
Lemma schedule_completes fuel :
  forall n loc p,
    tracked n loc p -> awake p -> toGo loc + alive (workers p) <= fuel ->
    permittedTrace (schedule processor fuel p) p
    /\ allExited (exec (schedule processor fuel p) p).1 = true.
Proof.
  induction fuel as [| fuel IH]; intros n loc p Ht Haw Hfuel.
  - split; [done |]. cbn [schedule exec fst]. apply alive_none. lia.
  - cbn [schedule]. destruct (nextAction processor p) as [a |] eqn:Hnext.
    + pose proof (nextAction_permitted p a Hnext) as Ha.
      destruct (tracked_step a n loc p Ht Ha) as (loc' & Ht' & _ & Hprog).
      destruct (Hprog Hnext) as [Hlt Haw'].
      destruct (IH _ loc' (step a p) Ht' (Haw' Haw)) as [Htr Hex]; [lia |].
      split; [by split |]. by rewrite exec_cons.
    + split; [done |]. by apply nextAction_none.
Qed.

(** Every suspended loop is known to the queue. *)
Definition registered (p : t) : Prop :=
  forall i, workers p !! i = Some Waiting -> i ∈ AsyncQueue.waiters (queue p).

Lemma spawn_registered p : registered p -> registered (spawn p).
Proof.
  intros Hreg. unfold spawn, loopHead. cbn [withQueue running queue workers].
  assert (Hold : forall i w, i <> length (workers p) ->
             (workers p ++ [Waiting])%list !! i = Some w -> workers p !! i = Some w).
  { intros i w Hne Hi. apply lookup_app_Some in Hi as [Hi | [Hge Hi]]; [done |].
    apply list_lookup_singleton_Some in Hi as [Hi _]. lia. }
  destruct (running p).
  - pose proof (PoolCounting.dequeue_waiters (length (workers p)) (queue p)) as Hws.
    destruct (AsyncQueue.dequeue _ (queue p)) as [q d]. cbn [fst snd] in Hws.
    unfold registered. cbn [withQueue queue workers]. intros i Hi.
    apply list_lookup_insert_Some in Hi as [(<- & Hw & _) | [Hne Hi]].
    + destruct d; try done. rewrite Hws. apply elem_of_app. right. left.
    + apply Hold, Hreg in Hi; [| done]. rewrite Hws.
      destruct d; try done. apply elem_of_app. by left.
  - unfold registered. cbn [withQueue queue workers]. intros i Hi.
    apply list_lookup_insert_Some in Hi as [(_ & [=] & _) | [Hne Hi]].
    apply Hreg. by apply Hold.
Qed.

Lemma spawns_registered k p : registered p -> registered (Nat.iter k spawn p).
Proof.
  intros H. induction k as [| k IH]; [done |]. rewrite Nat.iter_succ.
  by apply spawn_registered.
Qed.

Lemma started_registered W item : registered (start (submit item (new W))).
Proof.
  unfold submit. cbn [new queue].
  rewrite PendingOrder.enqueue_as_many, PendingOrder.enqueueMany_new.
  cbn [withQueue deliver foldl workers results running workerCount new].
  unfold start. cbn [running workerCount queue workers results withQueue new].
  apply spawns_registered. by intros i Hi.
Qed.

(** [waitForCompletion] wakes every suspended loop. *)
Lemma closeQueue_awake p : registered p -> awake (closeQueue p).
Proof.
  intros Hreg. unfold closeQueue, AsyncQueue.close. split; [done |].
  cbn [withQueue workers]. apply Forall_lookup. intros j w Hj ->.
  destruct (deliver_lookup _ _ _ _ Hj) as [[Hin Hnot] | (d & _ & [=])].
  apply Hnot. rewrite map_map. cbn [fst]. rewrite map_id. by apply Hreg.
Qed.

End Tracking.

Lemma alive_le ws : alive ws <= length ws.
Proof. unfold alive. apply length_filter. Qed.

Lemma loopHead_length i p : length (workers (loopHead i p)) = length (workers p).
Proof.
  unfold loopHead. destruct (running p).
  - destruct (AsyncQueue.dequeue i (queue p)) as [q d]. cbn [withQueue workers].
    by rewrite length_insert.
  - cbn [withQueue workers]. by rewrite length_insert.
Qed.

Lemma spawns_length k p :
  length (workers (Nat.iter k spawn p)) = length (workers p) + k.
Proof.
  induction k as [| k IH]; [by rewrite Nat.add_0_r |]. rewrite Nat.iter_succ.
  unfold spawn at 1. rewrite loopHead_length. cbn [withQueue workers].
  rewrite length_app, IH. cbn [length]. lia.
Qed.

(** The pool after [submit(item)] and [start()] on a new pool. *)
Lemma started_pool W item :
  let p0 := start (submit item (new W)) in
  exec [ASubmit item; AStart] (new W) = (p0, [])
  /\ length (workers p0) = W
  /\ results p0 = []
  /\ PoolCounting.busyCount (workers p0) = 0
  /\ PoolCounting.good p0.
Proof.
  intros p0. split; [by rewrite !exec_cons |].
  split.
  - unfold p0, submit. cbn [new queue].
    rewrite PendingOrder.enqueue_as_many, PendingOrder.enqueueMany_new.
    cbn [withQueue deliver foldl workers results running workerCount new].
    unfold start. cbn [running workerCount queue workers results withQueue new].
    by rewrite spawns_length.
  - destruct (PoolCounting.exec_counts [ASubmit item; AStart] (new W)
                (PoolCounting.new_good W)) as (Hg & Hb & Hr).
    rewrite !exec_cons in Hg, Hb, Hr.
    cbn [exec fst snd step observe app] in Hg, Hb, Hr.
    split; [exact Hr |]. split; [| exact Hg].
    change (PoolCounting.busyCount (workers p0) + 0 = 0) in Hb. lia.
Qed.

(** Every run of a started pool of any size on the one item that the
    processor fails recoverably each time. *)
Lemma retry_runs processor W item tr :
  failsRecoverably processor -> 1 <= W -> attempts item < maxAttempts item ->
  let p0 := start (submit item (new W)) in
  permittedTrace processor tr p0 ->
  let final := (exec tr p0).1 in
  let evs := (exec tr p0).2 in
  attempts item + acquisitionsOf (id item) evs <= maxAttempts item
  /\ length (results final) + PoolCounting.busyCount (workers final)
     = acquisitionsOf (id item) evs
  /\ (allExited final = true ->
      attempts item + acquisitionsOf (id item) evs = maxAttempts item
      /\ (exists fi, AsyncQueue.failed (queue final) !! id item = Some fi
                     /\ givenUp (priority item) (maxAttempts item) fi)
      /\ drained final).
Proof.
  intros Hp HW Hatt p0 Htr final evs.
  pose proof (tracked_started (id item) (priority item) (maxAttempts item) W item HW) as Ht0.
  destruct (tracked_run processor Hp _ _ _ tr _ _ _ (Ht0 ltac:(done)) Htr)
    as (loc & Ht & Hc).
  fold p0 final evs in Ht, Hc.
  destruct (started_pool W item) as (_ & _ & Hr0 & Hb0 & Hg0). fold p0 in Hr0, Hb0, Hg0.
  destruct (PoolCounting.exec_counts tr p0 Hg0) as (_ & Hb & Hr).
  fold final evs in Hb, Hr. rewrite Hr0 in Hr. rewrite Hb0 in Hb. cbn [app] in Hr.
  split; [by apply (tracked_bound _ _ _ _ _ _ Ht) |].
  split; [rewrite Hr, <- Hc; lia |].
  intros Hex. by destruct (tracked_exited _ _ _ _ _ _ Ht Hex) as (Hn & Hf & Hd).
Qed.

(** A run to the end: [waitForCompletion], and the turns of the
    scheduler. *)
Lemma retry_completes processor W item fuel :
  failsRecoverably processor -> 1 <= W -> attempts item < maxAttempts item ->
  2 * (maxAttempts item - attempts item) + W <= fuel ->
  let p0 := start (submit item (new W)) in
  let tr := AWaitForCompletion :: schedule processor fuel (closeQueue p0) in
  permittedTrace processor tr p0 /\ allExited (exec tr p0).1 = true.
Proof.
  intros Hp HW Hatt Hfuel p0 tr.
  pose proof (tracked_started (id item) (priority item) (maxAttempts item) W item HW
                ltac:(done)) as Ht0.
  fold p0 in Ht0.
  destruct (PoolCounting.step_counts AWaitForCompletion p0 (proj1 Ht0)) as (Hg & _ & _).
  pose proof (tracked_close _ _ _ _ _ _ Ht0 Hg) as Ht.
  assert (Hlen : alive (workers (closeQueue p0)) <= W).
  { etransitivity; [apply alive_le |]. unfold closeQueue, AsyncQueue.close.
    cbn [withQueue workers]. rewrite PoolCounting.deliver_length.
    destruct (started_pool W item) as (_ & Hl & _). fold p0 in Hl. by rewrite Hl. }
  destruct (schedule_completes processor Hp _ _ _ fuel _ _ (closeQueue p0) Ht)
    as [Htr Hex]; [apply closeQueue_awake, started_registered | cbn [toGo PoolCounting.one]; lia |].
  split; [by split |]. unfold tr. by rewrite exec_cons.
Qed.

End RetryAnyPool.

Module RetrySamples.
Import Types WorkerPool.

(** A processor that fails every item with a recoverable error. *)
Definition alwaysFails (item : QueueItem) : Outcome :=
  Returned {| queueItem := id item; success := false; resultPath := None;
              duration := 1; warnings := ["Skill invocation failed"] |}
           (setError (Some {| code := "E103"; message := "Skill invocation failed";
                              recoverable := true |}) item).

Lemma alwaysFails_recoverably : RetryRun.failsRecoverably alwaysFails.
Proof. intros item. by eexists _, _. Qed.

(** the item of scenario B: fresh, at most three attempts *)
Definition itemX : QueueItem := Samples.item "X" 0 3.

(** Scenario B as a run of the pool: the opening, then the turns that
    the scheduler takes until no loop can run. *)
Definition scenarioB : list Action :=
  RetryRun.opening itemX
  ++ schedule alwaysFails 7 (exec (RetryRun.opening itemX) (new 1)).1.

End RetrySamples.

(** ** Retry policy *)

Module RetryPolicy.
Import Types WorkerPool RetryRun RetryInterleavings.

(** C4. A pool with one worker loop, a fresh item of at most 3
    attempts, submitted before the pool is started, and a processor
    that always returns a result without success and leaves a
    recoverable error on the item (the loop reads the error from the
    item). In every run in which the loop takes its turns and
    [waitForCompletion] is called at any time, the loop receives the
    item from [dequeue] at most 3 times; once the loop has exited it
    has received it exactly 3 times and reported 3 results, the item is
    in [failed] with status [failed], error code [MAX_ATTEMPTS] and 3
    attempts counted, nothing is pending, and whatever happens to the
    pool afterwards no loop acquires or processes anything again. Such
    a run to the end exists: [waitForCompletion] and then the turns of
    the scheduler. While attempts remain ([attempts + 1 <
    maxAttempts]) [requeue] increments the counter and sorts the item
    into the pending items under its unchanged priority; at the last
    attempt it fails the item with [MAX_ATTEMPTS] and leaves the
    pending items as they are. *)
Theorem retry_until_max_attempts :
  (forall (processor : QueueItem -> Outcome) (item : QueueItem) (tr : list Action),
      failsRecoverably processor ->
      attempts item = 0 -> maxAttempts item = 3 ->
      let p0 := (exec [ASubmit item; AStart] (new 1)).1 in
      allowedTrace processor tr p0 ->
      let final := (exec tr p0).1 in
      let evs := (exec tr p0).2 in
      acquisitionsOf (id item) evs <= 3
      /\ (allExited final = true ->
          acquisitionsOf (id item) evs = 3
          /\ length (results final) = 3
          /\ (exists failedItem,
                 AsyncQueue.failed (queue final) !! id item = Some failedItem
                 /\ status failedItem = Failed
                 /\ code <$> error failedItem = Some "MAX_ATTEMPTS"
                 /\ attempts failedItem = 3
                 /\ priority failedItem = priority item)
          /\ AsyncQueue.items (queue final) = []
          /\ forall tr', (exec tr' final).2 = []))
  /\ (forall (processor : QueueItem -> Outcome) (item : QueueItem) (fuel : nat),
        failsRecoverably processor ->
        attempts item = 0 -> maxAttempts item = 3 -> 7 <= fuel ->
        let p0 := (exec [ASubmit item; AStart] (new 1)).1 in
        let tr := AWaitForCompletion :: schedule processor fuel (closeQueue p0) in
        allowedTrace processor tr p0 /\ allExited (exec tr p0).1 = true)
  /\ (forall (item : QueueItem) (q : AsyncQueue.t),
        let after := AsyncQueue.requeue item q in
        let handled :=
          (QueueDelivery.delivered after.2 ++ AsyncQueue.items after.1)%list in
        (attempts item + 1 < maxAttempts item ->
         handled = AsyncQueue.sortByPriority (AsyncQueue.items q ++ [retried item])
         /\ attempts (retried item) = attempts item + 1
         /\ priority (retried item) = priority item
         /\ status (retried item) = Pending
         /\ AsyncQueue.failed after.1 = AsyncQueue.failed q)
        /\ (maxAttempts item <= attempts item + 1 ->
            handled = AsyncQueue.items q
            /\ AsyncQueue.failed after.1 !! id item = Some (exhausted item)
            /\ code <$> error (exhausted item) = Some "MAX_ATTEMPTS")).
Proof.
  split; [| split].
  - intros processor item tr Hp Ha Hm p0 Htr final evs.
    unfold final, evs, p0 in *. clear final evs p0.
    rewrite started_state in *. cbn [fst] in *.
    destruct (allowed_run processor Hp (id item) (priority item) 3 tr
                (PhResumed item) false ∅ []) as (ph & b & f & rs & He & Hc & Hn & Hr);
      [cbn; repeat split; lia | done |].
    cbn [toCome toReport length] in Hn, Hr. rewrite Ha in Hn, Hr.
    split; [lia |]. rewrite He. intros Hex.
    apply stage_allExited in Hex as ->. cbn [toCome toReport] in Hn, Hr.
    destruct Hc as (-> & fi & Hfi & Hst & Hcode & Hatt & Hprio).
    split; [lia |]. split; [cbn [stage solo results]; lia |].
    split; [by exists fi |]. split; [done |].
    intros tr'. apply exec_drained. by repeat split; try (repeat constructor; auto).
  - intros processor item fuel Hp Ha Hm Hfuel p0 tr. unfold tr, p0.
    split.
    + split; [by left | apply schedule_allowed].
    + rewrite started_state. cbn [fst]. rewrite exec_cons. cbn [step fst stage].
      rewrite closeQueue_solo.
      destruct (exhaustion_run processor item 3 fuel Hp Ha Hm) as
        (fi & rs & evs' & Hrun & _); [lia | lia |].
      rewrite opening_state in Hrun. cbn [fst] in Hrun. by rewrite Hrun.
  - intros item q after handled. split.
    + intros Hlt. destruct (requeue_retry item q Hlt) as [Hi Hf]. by repeat split.
    + intros Hge. destruct (requeue_exhaust item q Hge) as [Hi Hf].
      split; [done |]. split; [| done].
      unfold after. by rewrite Hf, lookup_insert_eq.
Qed.

(** Scenario B on the sample item and processor, in the order in which
    the event loop takes the turns: the loop looks at the item before
    [waitForCompletion] is called. *)
Definition sampleRun : list Action :=
  let p0 := (exec [ASubmit RetrySamples.itemX; AStart] (new 1)).1 in
  AResume 0 :: AWaitForCompletion
  :: schedule RetrySamples.alwaysFails 7 (closeQueue (resume 0 p0)).

Lemma retry_until_max_attempts_witness :
  let p0 := (exec [ASubmit RetrySamples.itemX; AStart] (new 1)).1 in
  (failsRecoverably RetrySamples.alwaysFails
   /\ attempts RetrySamples.itemX = 0 /\ maxAttempts RetrySamples.itemX = 3
   /\ allowedTrace RetrySamples.alwaysFails sampleRun p0
   /\ allExited (exec sampleRun p0).1 = true)
  /\ acquisitionsOf (id RetrySamples.itemX) (exec sampleRun p0).2 = 3.
Proof.
  intros p0.
  assert (Htr : allowedTrace RetrySamples.alwaysFails sampleRun p0).
  { split; [right; vm_compute; reflexivity |]. split; [by left |].
    apply schedule_allowed. }
  assert (Hex : allExited (exec sampleRun p0).1 = true) by (vm_compute; reflexivity).
  split.
  - split; [apply RetrySamples.alwaysFails_recoverably |].
    split; [reflexivity |]. split; [reflexivity |]. split; assumption.
  - pose proof (proj1 retry_until_max_attempts RetrySamples.alwaysFails
                  RetrySamples.itemX sampleRun RetrySamples.alwaysFails_recoverably
                  eq_refl eq_refl Htr) as H.
    destruct H as [_ H]. specialize (H Hex). destruct H as [H _]. exact H.
Defined.

End RetryPolicy.

(** ** A processor that throws *)

Module ProcessorThrows.
Import Types WorkerPool.
Import QueueDelivery.

#[local] Abbreviation size := base.size (only parsing).
#[local] Set Warnings "-clear-no-such-hyp".

Lemma markFailed_processor_error item msg q :
  AsyncQueue.failed (AsyncQueue.markFailed item "PROCESSOR_ERROR" msg q).1
  = <[id item := setError (Some {| code := "PROCESSOR_ERROR"; message := msg;
                                   recoverable := false |})
                          (setStatus Failed item)]> (AsyncQueue.failed q).
Proof. unfold AsyncQueue.markFailed. by rewrite RetryRun.notifyWaiters_failed. Qed.

Lemma markFailed_items item c m q :
  AsyncQueue.items q
  = (delivered (AsyncQueue.markFailed item c m q).2
     ++ AsyncQueue.items (AsyncQueue.markFailed item c m q).1)%list.
Proof.
  unfold AsyncQueue.markFailed.
  match goal with
  | |- context [AsyncQueue.notifyWaiters ?r] => exact (notifyWaiters_items r)
  end.
Qed.

Lemma dequeue_failed w q :
  AsyncQueue.failed (AsyncQueue.dequeue w q).1 = AsyncQueue.failed q.
Proof.
  unfold AsyncQueue.dequeue.
  destruct (AsyncQueue.closed q && bool_decide (AsyncQueue.items q = [])); [done |].
  destruct (AsyncQueue.items q) as [| item rest].
  - by destruct (AsyncQueue.closed q).
  - destruct (_ <? _)%nat; [done |]. by destruct (AsyncQueue.closed q).
Qed.

(** [dequeue] takes at most the first pending item and adds none. *)
Lemma dequeue_items w q :
  exists taken, AsyncQueue.items q = (taken ++ AsyncQueue.items (AsyncQueue.dequeue w q).1)%list.
Proof.
  unfold AsyncQueue.dequeue.
  destruct (AsyncQueue.closed q && bool_decide (AsyncQueue.items q = [])); [by exists [] |].
  destruct (AsyncQueue.items q) as [| item rest] eqn:Hi.
  - destruct (AsyncQueue.closed q); exists []; cbn; by rewrite ?Hi.
  - destruct (_ <? _)%nat; [by exists [item] |].
    destruct (AsyncQueue.closed q); exists []; cbn; by rewrite ?Hi.
Qed.

(** the error that the [catch] block of the loop leaves on the item *)
Definition processorError (msg : string) : ProcessingError :=
  {| code := "PROCESSOR_ERROR"; message := msg; recoverable := false |}.

(** the result that the [catch] block builds; [elapsed] is its
    [Date.now() - startTime] *)
Definition thrownResult (item : QueueItem) (elapsed : Z) : ProcessingResult :=
  {| queueItem := id item; success := false; resultPath := None; duration := elapsed;
     warnings := [] |}.

(** The queue when [markFailed] has recorded the failure of the item
    and served the suspended callers, before the loop calls
    [dequeue] again. *)
Definition afterFailure (item : QueueItem) (msg : string) (q : AsyncQueue.t) : AsyncQueue.t :=
  (AsyncQueue.markFailed (setError (Some (processorError msg)) item)
                         "PROCESSOR_ERROR" msg q).1.

(** What the loop has in hand after a call of [dequeue] that answered
    [d]. *)
Definition awaiting (d : AsyncQueue.Dequeued) : Worker :=
  match d with
  | AsyncQueue.Got next => Resumed (Some next)
  | AsyncQueue.Sentinel => Resumed None
  | AsyncQueue.Suspended => Waiting
  end.

Lemma finish_threw p i held item msg elapsed :
  workers p !! i = Some (Busy held) ->
  finish i (Threw msg elapsed item) p
  = loopHead i
      {| queue := afterFailure item msg (queue p);
         workers := deliver (AsyncQueue.markFailed (setError (Some (processorError msg)) item)
                                                   "PROCESSOR_ERROR" msg (queue p)).2
                            (workers p);
         results := results p ++ [thrownResult item elapsed];
         running := running p; workerCount := workerCount p |}.
Proof.
  intros Hi. unfold finish, afterFailure. rewrite Hi.
  cbn [settle]. unfold updateQueue.
  cbn [success isRecoverable error setError recoverable andb code message].
  by destruct (AsyncQueue.markFailed _ _ _ _).
Qed.

(** The answers of [dequeue]. *)
Lemma dequeue_answers w q :
  match (AsyncQueue.dequeue w q).2 with
  | AsyncQueue.Got next =>
      exists rest, AsyncQueue.items q = next :: rest
                   /\ size (AsyncQueue.processing q) < AsyncQueue.maxConcurrent q
                   /\ AsyncQueue.items (AsyncQueue.dequeue w q).1 = rest
                   /\ id next ∈ AsyncQueue.processing (AsyncQueue.dequeue w q).1
  | AsyncQueue.Sentinel =>
      AsyncQueue.closed q = true /\ (AsyncQueue.dequeue w q).1 = q
      /\ (AsyncQueue.items q = []
          \/ AsyncQueue.maxConcurrent q <= size (AsyncQueue.processing q))
  | AsyncQueue.Suspended =>
      AsyncQueue.closed (AsyncQueue.dequeue w q).1 = false
      /\ AsyncQueue.waiters (AsyncQueue.dequeue w q).1 = (AsyncQueue.waiters q ++ [w])%list
      /\ AsyncQueue.items (AsyncQueue.dequeue w q).1 = AsyncQueue.items q
      /\ AsyncQueue.processing (AsyncQueue.dequeue w q).1 = AsyncQueue.processing q
      /\ AsyncQueue.maxConcurrent (AsyncQueue.dequeue w q).1 = AsyncQueue.maxConcurrent q
      /\ (AsyncQueue.items q = []
          \/ AsyncQueue.maxConcurrent q <= size (AsyncQueue.processing q))
  end.
Proof.
  unfold AsyncQueue.dequeue.
  destruct (AsyncQueue.closed q) eqn:Hc; cbn [andb].
  - case_bool_decide as Hnil.
    { cbn [fst snd]. split; [done |]. split; [done |]. by left. }
    destruct (AsyncQueue.items q) as [| next rest] eqn:Hi; [done |].
    destruct (size _ <? _)%nat eqn:Hlt; cbn [fst snd].
    + apply Nat.ltb_lt in Hlt. exists rest. cbn.
      split; [done |]. split; [done |]. split; [done | set_solver].
    + apply Nat.ltb_ge in Hlt. split; [done |]. split; [done |]. by right.
  - destruct (AsyncQueue.items q) as [| next rest] eqn:Hi.
    + cbn. split; [done |]. split; [done |]. split; [done |]. split; [done |].
      split; [done |]. by left.
    + destruct (size _ <? _)%nat eqn:Hlt; cbn [fst snd].
      * apply Nat.ltb_lt in Hlt. exists rest. cbn.
        split; [done |]. split; [done |]. split; [done | set_solver].
      * apply Nat.ltb_ge in Hlt. cbn.
        split; [done |]. split; [done |]. split; [done |]. split; [done |].
        split; [done |]. by right.
Qed.

(** C9. When the processor of loop [i] throws, whatever the attempts
    left on the item: the item is put in [failed] with status [failed]
    and the error [PROCESSOR_ERROR], not recoverable, its attempt
    counter untouched; no item is added to the pending ones (the item
    is not requeued); one result without success is pushed, with the
    time that the attempt took. The loop then goes on: in a running
    pool it calls [dequeue] again on the queue in which the failure is
    recorded, and has what that call answers. So when an item is
    pending there and fewer than [maxConcurrent] ids are in
    [processing], the loop receives the first pending item, which
    leaves the pending ones for [processing]; the loop is left
    suspended only as a registered waiter of an open queue in which
    nothing is pending or the limit is reached, and it is given the
    sentinel only by a closed queue. In particular, with no other
    caller suspended, an item pending behind the failed one is what
    the loop receives next. A loop of a pool that was told to stop
    exits. *)
Theorem thrown_processor_fails_item
    (p : t) (i : nat) (held item : QueueItem) (msg : string) (elapsed : Z) :
  workers p !! i = Some (Busy held) ->
  let p' := finish i (Threw msg elapsed item) p in
  let q1 := afterFailure item msg (queue p) in
  (exists failedItem,
      AsyncQueue.failed (queue p') !! id item = Some failedItem
      /\ id failedItem = id item
      /\ status failedItem = Failed
      /\ error failedItem = Some (processorError msg)
      /\ attempts failedItem = attempts item
      /\ maxAttempts failedItem = maxAttempts item)
  /\ (exists handedOut,
         AsyncQueue.items (queue p) = (handedOut ++ AsyncQueue.items (queue p'))%list)
  /\ results p' = (results p ++ [thrownResult item elapsed])%list
  /\ (running p = true ->
      queue p' = (AsyncQueue.dequeue i q1).1
      /\ workers p' !! i = Some (awaiting (AsyncQueue.dequeue i q1).2)
      /\ (forall next rest,
             AsyncQueue.items q1 = next :: rest ->
             size (AsyncQueue.processing q1) < AsyncQueue.maxConcurrent q1 ->
             workers p' !! i = Some (Resumed (Some next))
             /\ AsyncQueue.items (queue p') = rest
             /\ id next ∈ AsyncQueue.processing (queue p'))
      /\ (workers p' !! i = Some Waiting ->
          AsyncQueue.closed (queue p') = false
          /\ i ∈ AsyncQueue.waiters (queue p')
          /\ (AsyncQueue.items (queue p') = []
              \/ AsyncQueue.maxConcurrent (queue p')
                 <= size (AsyncQueue.processing (queue p'))))
      /\ (workers p' !! i = Some (Resumed None) -> AsyncQueue.closed (queue p') = true)
      /\ (AsyncQueue.waiters (queue p) = [] ->
          forall next rest,
            AsyncQueue.items (queue p) = next :: rest ->
            size (AsyncQueue.processing (queue p) ∖ {[id item]})
            < AsyncQueue.maxConcurrent (queue p) ->
            workers p' !! i = Some (Resumed (Some next))
            /\ AsyncQueue.items (queue p') = rest))
  /\ (running p = false -> workers p' !! i = Some Exited /\ queue p' = q1).
Proof.
  intros Hi p' q1.
  set (item' := setError (Some (processorError msg)) item).
  pose proof (markFailed_processor_error item' msg (queue p)) as Hf.
  pose proof (markFailed_items item' "PROCESSOR_ERROR" msg (queue p)) as Hit.
  pose proof (finish_threw p i held item msg elapsed Hi) as Hp'.
  assert (Hq1 : q1 = (AsyncQueue.markFailed item' "PROCESSOR_ERROR" msg (queue p)).1)
    by reflexivity.
  fold p' item' q1 in Hp'. rewrite <- Hq1 in Hf, Hit.
  set (ds := (AsyncQueue.markFailed item' "PROCESSOR_ERROR" msg (queue p)).2) in *.
  set (p1 := {| queue := q1; workers := deliver ds (workers p);
                results := results p ++ [thrownResult item elapsed];
                running := running p; workerCount := workerCount p |}) in *.
  assert (Hlen : i < length (workers p1)).
  { cbn [workers p1]. rewrite PoolCounting.deliver_length. by eapply lookup_lt_Some. }
  pose proof (dequeue_failed i q1) as Hdf.
  destruct (dequeue_items i q1) as [taken Hdi].
  pose proof (dequeue_answers i q1) as Hans.
  assert (Hrun : running p = true ->
                 queue p' = (AsyncQueue.dequeue i q1).1
                 /\ workers p' !! i = Some (awaiting (AsyncQueue.dequeue i q1).2)
                 /\ results p' = (results p ++ [thrownResult item elapsed])%list).
  { intros Hr. rewrite Hp'. unfold loopHead. cbn [running queue p1]. rewrite Hr.
    destruct (AsyncQueue.dequeue i q1) as [q2 d]. cbn [fst snd queue workers results withQueue p1].
    split; [done |]. split; [| done].
    rewrite list_lookup_insert_eq by done. by destruct d. }
  assert (Hstop : running p = false ->
                  queue p' = q1 /\ workers p' !! i = Some Exited
                  /\ results p' = (results p ++ [thrownResult item elapsed])%list).
  { intros Hr. rewrite Hp'. unfold loopHead. cbn [running queue p1]. rewrite Hr.
    cbn [queue workers results withQueue p1]. split; [done |]. split; [| done].
    by rewrite list_lookup_insert_eq. }
  assert (Hfailed : AsyncQueue.failed (queue p') = <[id item' := setError (Some (processorError msg)) (setStatus Failed item')]> (AsyncQueue.failed (queue p))).
  { destruct (running p) eqn:Hr.
    - destruct (Hrun eq_refl) as (-> & _). by rewrite Hdf.
    - by destruct (Hstop eq_refl) as (-> & _). }
  split; [| split; [| split; [| split]]].
  - eexists. rewrite Hfailed. change (id item') with (id item). rewrite lookup_insert_eq.
    split; [reflexivity |]. by repeat split.
  - destruct (running p) eqn:Hr.
    + destruct (Hrun eq_refl) as (-> & _). exists (QueueDelivery.delivered ds ++ taken)%list.
      by rewrite Hit, Hdi, app_assoc.
    + destruct (Hstop eq_refl) as (-> & _). by exists (QueueDelivery.delivered ds).
  - destruct (running p) eqn:Hr; [by destruct (Hrun eq_refl) as (_ & _ & ?) |
                                  by destruct (Hstop eq_refl) as (_ & _ & ?)].
  - intros Hr. destruct (Hrun Hr) as (Hq & Hw & _).
    split; [done |]. split; [done |]. rewrite Hq, Hw.
    assert (Hgot : forall next rest,
               AsyncQueue.items q1 = next :: rest ->
               size (AsyncQueue.processing q1) < AsyncQueue.maxConcurrent q1 ->
               Some (awaiting (AsyncQueue.dequeue i q1).2) = Some (Resumed (Some next))
               /\ AsyncQueue.items (AsyncQueue.dequeue i q1).1 = rest
               /\ id next ∈ AsyncQueue.processing (AsyncQueue.dequeue i q1).1).
    { intros next rest Hn Hlt. rewrite (RetryAnyPool.dequeue_got i q1 next rest Hn Hlt).
      cbn. split; [done |]. split; [done | set_solver]. }
    split; [exact Hgot |]. split; [| split].
    + destruct (AsyncQueue.dequeue i q1) as [q2 d]. cbn [fst snd] in *.
      destruct d as [next | |]; try done. intros _.
      destruct Hans as (Hc & Hws & Hi2 & Hp2 & Hm2 & Hfull).
      split; [done |]. split; [rewrite Hws; apply elem_of_app; right; by left |].
      by rewrite Hi2, Hp2, Hm2.
    + destruct (AsyncQueue.dequeue i q1) as [q2 d]. cbn [fst snd] in *.
      destruct d as [next | |]; try done. intros _.
      destruct Hans as (Hc & -> & _). done.
    + intros Hnone next rest Hn Hlt.
      assert (Hrec : q1 = {| AsyncQueue.items := AsyncQueue.items (queue p);
                            AsyncQueue.processing :=
                              AsyncQueue.processing (queue p) ∖ {[id item]};
                            AsyncQueue.completed := AsyncQueue.completed (queue p);
                            AsyncQueue.failed :=
                              <[id item := setError (Some (processorError msg))
                                             (setStatus Failed item')]>
                                (AsyncQueue.failed (queue p));
                            AsyncQueue.skipped := AsyncQueue.skipped (queue p);
                            AsyncQueue.closed := AsyncQueue.closed (queue p);
                            AsyncQueue.waiters := AsyncQueue.waiters (queue p);
                            AsyncQueue.maxConcurrent :=
                              AsyncQueue.maxConcurrent (queue p) |}).
      { rewrite Hq1. unfold AsyncQueue.markFailed.
        by rewrite QueueDelivery.notifyWaiters_idle. }
      destruct (Hgot next rest) as (H1 & H2 & _).
      * by rewrite Hrec.
      * by rewrite Hrec.
      * done.
  - intros Hr. by destruct (Hstop Hr) as (? & ? & _).
Qed.

(** The pool of scenario B when its loop has received the item for
    the first time: attempts remain. *)
Definition busyPool : t :=
  (exec (RetryRun.opening RetrySamples.itemX ++ [AResume 0]) (new 1)).1.

Definition heldX : QueueItem := setStatus Processing RetrySamples.itemX.

(** A pool of one loop that has received [X] while [Y] is pending. *)
Definition itemY : QueueItem := Samples.item "Y" 0 3.

Definition busyWithPending : t :=
  (exec [ASubmitMany [RetrySamples.itemX; itemY]; AStart; AResume 0] (new 1)).1.

Lemma thrown_processor_fails_item_witness :
  (workers busyPool !! 0 = Some (Busy heldX)
   /\ attempts heldX < maxAttempts heldX
   /\ workers busyWithPending !! 0 = Some (Busy heldX)
   /\ running busyWithPending = true
   /\ AsyncQueue.waiters (queue busyWithPending) = []
   /\ AsyncQueue.items (queue busyWithPending) = [itemY])
  /\ results (finish 0 (Threw "boom" 5 heldX) busyPool)
     = (results busyPool ++ [thrownResult heldX 5])%list
  /\ workers (finish 0 (Threw "boom" 5 heldX) busyWithPending) !! 0
     = Some (Resumed (Some itemY))
  /\ AsyncQueue.items (queue (finish 0 (Threw "boom" 5 heldX) busyWithPending)) = [].
Proof.
  assert (Hb : workers busyWithPending !! 0 = Some (Busy heldX)) by reflexivity.
  split; [repeat split; try reflexivity; cbn; lia |].
  split.
  - apply (thrown_processor_fails_item busyPool 0 heldX heldX "boom" 5). reflexivity.
  - refine (proj2 (proj2 (proj2 (proj2 (proj2
              (proj1 (proj2 (proj2 (proj2
                 (thrown_processor_fails_item busyWithPending 0 heldX heldX "boom" 5 Hb))))
                 eq_refl))))) eq_refl itemY [] eq_refl _).
    vm_compute. lia.
Defined.

End ProcessorThrows.

(** ** One result per attempt *)

Module ResultsPerAttempt.
Import Types WorkerPool PoolCounting.

(** C10. In every run of a pool, [results] holds exactly the results
    of the attempts finished so far, one for each turn in which a loop
    came back from its processor and in the order of these turns; the
    number of items that the loops received from [dequeue] is the
    number of results plus the number of loops that still await their
    processor. When [waitForCompletion] returns (every loop has
    exited) the returned list therefore has one entry per acquisition,
    not per item: in scenario B one item was submitted, and the
    returned list has 3 entries, all for this item. *)
Theorem one_result_per_attempt :
  (forall (W : nat) (tr : list Action),
      let final := (exec tr (new W)).1 in
      let evs := (exec tr (new W)).2 in
      results final = processedResults evs
      /\ acquiredCount evs = length (results final) + busyCount (workers final)
      /\ match completion final with
         | Some (_, returned) =>
             returned = processedResults evs /\ length returned = acquiredCount evs
         | None => True
         end)
  /\ (let final := (exec RetrySamples.scenarioB (new 1)).1 in
      total (getStats final) = 1
      /\ (map queueItem <$> (snd <$> completion final)) = Some ["X"; "X"; "X"]).
Proof.
  split.
  - intros W tr final evs.
    destruct (exec_counts tr (new W) (new_good W)) as (Hg & Hb & Hr).
    fold final in Hg, Hb, Hr. fold evs in Hb, Hr.
    cbn [results new workers app] in Hb, Hr.
    change (busyCount []) with 0 in Hb.
    assert (Hacq : acquiredCount evs = length (results final) + busyCount (workers final)).
    { rewrite Hr. lia. }
    split; [done |]. split; [done |].
    unfold completion. destruct (allExited final) eqn:He; [| done].
    split; [done |]. rewrite Hacq, (allExited_not_busy final He). lia.
  - vm_compute. by split.
Qed.

End ResultsPerAttempt.

(** ** Retry exhaustion in a pool of any size *)

Module RetryGeneral.
Import Types WorkerPool RetryRun RetryAnyPool.

(** X1. A pool with any number [W >= 1] of worker loops works on one
    item that still has attempts left, with a processor that fails
    every attempt with a recoverable error. In every run, whatever the
    order in which the loops take their turns and whenever
    [waitForCompletion] is called, the loops together receive the item
    at most [maxAttempts - attempts] times, and every acquisition is
    either reported as a result or still with its processor. Once
    every loop has exited the item has been received exactly
    [maxAttempts - attempts] times, it is in [failed] with status
    [failed], code [MAX_ATTEMPTS] and [attempts = maxAttempts], the
    queue is closed with nothing pending, and no later call acquires
    or processes anything. *)
Theorem retries_bounded_any_pool :
  forall (W : nat) (processor : QueueItem -> Outcome) (item : QueueItem)
         (tr : list Action),
    1 <= W -> failsRecoverably processor -> attempts item < maxAttempts item ->
    let p0 := start (submit item (new W)) in
    permittedTrace processor tr p0 ->
    let final := (exec tr p0).1 in
    let evs := (exec tr p0).2 in
    attempts item + acquisitionsOf (id item) evs <= maxAttempts item
    /\ length (results final) + PoolCounting.busyCount (workers final)
       = acquisitionsOf (id item) evs
    /\ (allExited final = true ->
        attempts item + acquisitionsOf (id item) evs = maxAttempts item
        /\ (exists failedItem,
               AsyncQueue.failed (queue final) !! id item = Some failedItem
               /\ status failedItem = Failed
               /\ code <$> error failedItem = Some "MAX_ATTEMPTS"
               /\ attempts failedItem = maxAttempts item)
        /\ AsyncQueue.closed (queue final) = true
        /\ AsyncQueue.items (queue final) = []
        /\ forall tr', (exec tr' final).2 = []).
Proof.
  intros W processor item tr HW Hp Hatt p0 Htr final evs.
  destruct (retry_runs processor W item tr Hp HW Hatt Htr) as (Hle & Hres & Hend).
  fold p0 final evs in Hle, Hres, Hend.
  split; [done |]. split; [done |]. intros Hex.
  destruct (Hend Hex) as (Hn & (fi & Hfi & Hst & Hcode & Hat & _) & Hd).
  split; [done |]. split; [by exists fi |].
  split; [apply Hd |]. split; [apply Hd |].
  intros tr'. by apply exec_drained.
Qed.

(** A run of two loops on the sample item of three attempts: the
    loops hand the item to each other twice before
    [waitForCompletion] is called, then the scheduler runs the pool to
    the end. *)
Definition handOverRun : list Action :=
  let p0 := start (submit RetrySamples.itemX (new 2)) in
  let handOver := schedule RetrySamples.alwaysFails 4 p0 in
  (handOver
   ++ AWaitForCompletion
      :: schedule RetrySamples.alwaysFails 8 (closeQueue (exec handOver p0).1))%list.

Lemma retries_bounded_any_pool_witness :
  let p0 := start (submit RetrySamples.itemX (new 2)) in
  (1 <= 2
   /\ failsRecoverably RetrySamples.alwaysFails
   /\ attempts RetrySamples.itemX < maxAttempts RetrySamples.itemX
   /\ permittedTrace RetrySamples.alwaysFails handOverRun p0
   /\ allExited (exec handOverRun p0).1 = true)
  /\ attempts RetrySamples.itemX
     + acquisitionsOf (id RetrySamples.itemX) (exec handOverRun p0).2
     = maxAttempts RetrySamples.itemX.
Proof.
  intros p0.
  assert (Htr : permittedTrace RetrySamples.alwaysFails handOverRun p0).
  { apply permittedTrace_app; [apply schedule_permitted |].
    apply permittedTrace_wait, schedule_permitted. }
  assert (Hex : allExited (exec handOverRun p0).1 = true) by (vm_compute; reflexivity).
  assert (Hatt : attempts RetrySamples.itemX < maxAttempts RetrySamples.itemX)
    by (vm_compute; lia).
  split.
  - split; [lia |]. split; [apply RetrySamples.alwaysFails_recoverably |].
    split; [exact Hatt |]. split; assumption.
  - pose proof (retries_bounded_any_pool 2 RetrySamples.alwaysFails
                  RetrySamples.itemX handOverRun (le_S 1 1 (le_n 1))
                  RetrySamples.alwaysFails_recoverably Hatt Htr) as H.
    destruct H as (_ & _ & H). specialize (H Hex). destruct H as [H _]. exact H.
Defined.

(** X2. Such a run to the end always exists: after
    [waitForCompletion], the scheduler that serves the runnable loop
    of least index needs at most two turns for each remaining attempt
    and one for each loop until every loop has exited. *)
Theorem retry_run_completes :
  forall (W : nat) (processor : QueueItem -> Outcome) (item : QueueItem) (fuel : nat),
    1 <= W -> failsRecoverably processor -> attempts item < maxAttempts item ->
    2 * (maxAttempts item - attempts item) + W <= fuel ->
    let p0 := start (submit item (new W)) in
    let tr := AWaitForCompletion :: schedule processor fuel (closeQueue p0) in
    permittedTrace processor tr p0 /\ allExited (exec tr p0).1 = true.
Proof.
  intros W processor item fuel HW Hp Hatt Hfuel. by apply retry_completes.
Qed.

Lemma retry_run_completes_witness :
  (1 <= 4
   /\ failsRecoverably RetrySamples.alwaysFails
   /\ attempts RetrySamples.itemX < maxAttempts RetrySamples.itemX
   /\ 2 * (maxAttempts RetrySamples.itemX - attempts RetrySamples.itemX) + 4 <= 10)
  /\ allExited
       (exec (AWaitForCompletion
              :: schedule RetrySamples.alwaysFails 10
                   (closeQueue (start (submit RetrySamples.itemX (new 4)))))
             (start (submit RetrySamples.itemX (new 4)))).1 = true.
Proof.
  assert (Hatt : attempts RetrySamples.itemX < maxAttempts RetrySamples.itemX)
    by (vm_compute; lia).
  assert (Hfuel : 2 * (maxAttempts RetrySamples.itemX - attempts RetrySamples.itemX) + 4
                  <= 10) by (vm_compute; lia).
  split.
  - split; [lia |]. split; [apply RetrySamples.alwaysFails_recoverably |]. by split.
  - exact (proj2 (retry_run_completes 4 RetrySamples.alwaysFails RetrySamples.itemX 10
                    (le_S 1 3 (le_S 1 2 (le_S 1 1 (le_n 1))))
                    RetrySamples.alwaysFails_recoverably Hatt Hfuel)).
Defined.

End RetryGeneral.


(** ** Queue: no caller waits for work it could take *)

Module QueueWakeups.
Import Types AsyncQueue QueueBound.

#[local] Abbreviation size := base.size (only parsing).

(** Nobody is suspended, or nothing is pending, or the limit is
    reached. *)
Definition attentive (q : t) : Prop :=
  waiters q = [] \/ items q = [] \/ maxConcurrent q <= size (processing q).

Lemma notifyLoop_attentive maxC ws :
  forall its proc,
    (notifyLoop maxC ws its proc).1.1.1 = []
    \/ (notifyLoop maxC ws its proc).1.1.2 = []
    \/ maxC <= size (notifyLoop maxC ws its proc).1.2.
Proof.
  induction ws as [| w ws IH]; intros its proc; [by left |].
  destruct its as [| item its]; [right; by left |].
  cbn [notifyLoop]. destruct (size proc <? maxC)%nat eqn:Hlt.
  - specialize (IH its ({[id item]} ∪ proc)).
    by destruct (notifyLoop maxC ws its ({[id item]} ∪ proc)) as [[[ws2 its2] proc2] ds].
  - right. right. cbn. by apply Nat.ltb_ge.
Qed.

Lemma notifyWaiters_attentive q : attentive (notifyWaiters q).1.
Proof.
  unfold notifyWaiters, attentive.
  pose proof (notifyLoop_attentive (maxConcurrent q) (waiters q) (items q) (processing q)) as H.
  by destruct (notifyLoop _ _ _ _) as [[[ws2 its2] proc2] ds].
Qed.

Lemma dequeue_attentive w q : attentive q -> attentive (dequeue w q).1.
Proof.
  intros H. unfold dequeue, attentive.
  destruct (closed q && bool_decide (items q = [])); [exact H |].
  destruct (items q) as [| item rest] eqn:Hi.
  - destruct (closed q); cbn [fst]; [by rewrite Hi; right; left |].
    right. by left.
  - destruct (size (processing q) <? maxConcurrent q)%nat eqn:Hlt.
    + left. cbn. destruct H as [H | [H | H]]; [done | by rewrite Hi in H |].
      apply Nat.ltb_lt in Hlt. lia.
    + apply Nat.ltb_ge in Hlt. destruct (closed q); cbn; by right; right.
Qed.

Lemma requeue_attentive item q : attentive (requeue item q).1.
Proof.
  unfold requeue.
  destruct (attempts _ <? maxAttempts _)%nat.
  - match goal with
    | |- context [notifyWaiters ?r] =>
        pose proof (notifyWaiters_attentive r) as H; by destruct (notifyWaiters r)
    end.
  - destruct (markFailed _ _ _ _) as [q2 ds1].
    pose proof (notifyWaiters_attentive q2) as H. by destruct (notifyWaiters q2).
Qed.

Lemma call_attentive c q : attentive q -> attentive (call c q).
Proof.
  intros H. destruct c as [item | its | w | item | item c m | item r | item |]; cbn [call].
  - unfold enqueue. destruct (closed q); [done |]. apply notifyWaiters_attentive.
  - unfold enqueueMany. destruct (closed q); [done |]. apply notifyWaiters_attentive.
  - by apply dequeue_attentive.
  - apply notifyWaiters_attentive.
  - apply notifyWaiters_attentive.
  - apply notifyWaiters_attentive.
  - apply requeue_attentive.
  - by left.
Qed.

(** X3. After any sequence of calls on a new queue, a caller is left
    suspended in [dequeue] only if nothing is pending or the number of
    ids in [processing] has reached the limit: no consumer waits while
    there is work that it could take. *)
Theorem no_consumer_waits_for_available_work (limit : nat) (cs : list Call) :
  let q := calls cs (new limit) in
  waiters q = [] \/ items q = [] \/ maxConcurrent q <= size (processing q).
Proof.
  cbn zeta. unfold calls.
  assert (H : attentive (new limit)) by (by left).
  revert H. generalize (new limit).
  induction cs as [| c cs IH]; intros q H; [exact H |].
  cbn [foldl]. by apply IH, call_attentive.
Qed.

(** A queue that has been closed, with nobody suspended. *)
Definition shut (q : t) : Prop := closed q = true /\ waiters q = [].

Lemma notifyWaiters_shut q : shut q -> shut (notifyWaiters q).1.
Proof. intros [Hc Hw]. by rewrite QueueDelivery.notifyWaiters_idle. Qed.

Lemma call_shut c q : shut q -> shut (call c q).
Proof.
  intros [Hc Hw]. destruct c as [item | its | w | item | item c m | item r | item |];
    cbn [call].
  - unfold enqueue. by rewrite Hc.
  - unfold enqueueMany. by rewrite Hc.
  - unfold dequeue. rewrite Hc. cbn [andb].
    destruct (bool_decide (items q = [])); [done |].
    destruct (items q); [done |]. by destruct (size (processing q) <? maxConcurrent q)%nat.
  - by apply notifyWaiters_shut.
  - by apply notifyWaiters_shut.
  - by apply notifyWaiters_shut.
  - unfold requeue. destruct (attempts _ <? maxAttempts _)%nat.
    + match goal with
      | |- context [notifyWaiters ?r] =>
          pose proof (notifyWaiters_shut r (conj Hc Hw)) as H; by destruct (notifyWaiters r)
      end.
    + unfold markFailed.
      match goal with
      | |- context [notifyWaiters ?r] =>
          pose proof (notifyWaiters_shut r (conj Hc Hw)) as H;
          destruct (notifyWaiters r) as [q2 ds1]
      end.
      pose proof (notifyWaiters_shut q2 H) as H2. by destruct (notifyWaiters q2).
  - done.
Qed.

(** X4. [close()] is final: whatever calls came before and whatever
    calls follow, the queue stays closed, [enqueue] and [enqueueMany]
    throw "Queue is closed" and leave the queue as it is, and no call
    of [dequeue] is suspended any more: it answers at once with an
    item or with the sentinel. *)
Theorem close_is_final (limit : nat) (before after : list Call) (w : Waiter)
    (item : QueueItem) (its : list QueueItem) :
  let q := calls after (call CClose (calls before (new limit))) in
  closed q = true
  /\ waiters q = []
  /\ enqueue item q = Throw "Queue is closed"
  /\ enqueueMany its q = Throw "Queue is closed"
  /\ call (CEnqueue item) q = q
  /\ (dequeue w q).2 <> Suspended.
Proof.
  cbn zeta.
  assert (H : shut (calls after (call CClose (calls before (new limit))))).
  { unfold calls at 1.
    assert (H0 : shut (call CClose (calls before (new limit)))) by done.
    revert H0. generalize (call CClose (calls before (new limit))).
    induction after as [| c cs IH]; intros q H0; [exact H0 |].
    cbn [foldl]. by apply IH, call_shut. }
  revert H. generalize (calls after (call CClose (calls before (new limit)))).
  intros q [Hc Hw].
  split; [done |]. split; [done |].
  cbn [call]. unfold enqueue, enqueueMany. rewrite Hc.
  split; [done |]. split; [done |]. split; [done |].
  unfold dequeue. rewrite Hc. cbn [andb].
  destruct (bool_decide (items q = [])); [done |].
  destruct (items q); [done |]. by destruct (size (processing q) <? maxConcurrent q)%nat.
Qed.

End QueueWakeups.


(** ** Pool: starting, an empty pool, and shutting down *)

Module PoolLifecycle.
Import Types WorkerPool RetryRun.

#[local] Abbreviation size := base.size (only parsing).

Lemma loopHead_running i p : running (loopHead i p) = running p.
Proof.
  unfold loopHead. destruct (running p) eqn:Hr; [| done].
  by destruct (AsyncQueue.dequeue i (queue p)) as [q d].
Qed.

Lemma loopHead_results i p : results (loopHead i p) = results p.
Proof.
  unfold loopHead. destruct (running p); [| done].
  by destruct (AsyncQueue.dequeue i (queue p)) as [q d].
Qed.

Lemma loopHead_workerCount i p : workerCount (loopHead i p) = workerCount p.
Proof.
  unfold loopHead. destruct (running p); [| done].
  by destruct (AsyncQueue.dequeue i (queue p)) as [q d].
Qed.

Lemma spawns_kept k p :
  running (Nat.iter k spawn p) = running p
  /\ results (Nat.iter k spawn p) = results p
  /\ workerCount (Nat.iter k spawn p) = workerCount p.
Proof.
  induction k as [| k (IH1 & IH2 & IH3)]; [done |]. rewrite Nat.iter_succ.
  unfold spawn at 1 3 5.
  by rewrite loopHead_running, loopHead_results, loopHead_workerCount.
Qed.

(** X5. [start()] sets the pool running and pushes exactly
    [workerCount] loops; on a pool that is running already it does
    nothing, so that a second [start()] has no effect. It never
    touches the results. *)
Theorem start_spawns_once (p : t) :
  running (start p) = true
  /\ length (workers (start p))
     = length (workers p) + (if running p then 0 else workerCount p)
  /\ results (start p) = results p
  /\ start (start p) = start p.
Proof.
  assert (Hrun : running (start p) = true).
  { unfold start. destruct (running p) eqn:Hr; [done |].
    by rewrite (proj1 (spawns_kept _ _)). }
  split; [done |]. split; [| split].
  - unfold start. destruct (running p); [lia |].
    by rewrite RetryAnyPool.spawns_length.
  - unfold start. destruct (running p); [done |].
    by rewrite (proj1 (proj2 (spawns_kept _ _))).
  - unfold start at 1. by rewrite Hrun.
Qed.

(** *** A pool to which nothing is submitted *)

(** [start (new W)] after [k] of its loops were pushed: each loop is
    suspended in [dequeue], in the order of its index. *)
Definition emptyStarted (W k : nat) : t :=
  {| queue := AsyncQueue.withPending (AsyncQueue.new W) [] ∅ (seq 0 k);
     workers := replicate k Waiting; results := []; running := true;
     workerCount := W |}.

Lemma spawn_emptyStarted W k : spawn (emptyStarted W k) = emptyStarted W (S k).
Proof.
  unfold spawn. rewrite RetryAnyPool.loopHead_empty by done.
  cbn [emptyStarted queue workers withQueue AsyncQueue.closed AsyncQueue.withPending
       AsyncQueue.new AsyncQueue.processing AsyncQueue.waiters results running workerCount].
  rewrite length_replicate.
  rewrite list_insert_id.
  - unfold emptyStarted, withQueue, AsyncQueue.withPending.
    cbn [results running workerCount AsyncQueue.completed AsyncQueue.failed
         AsyncQueue.skipped AsyncQueue.closed AsyncQueue.maxConcurrent].
    by rewrite seq_S, replicate_S_end.
  - rewrite lookup_app_r by (by rewrite length_replicate).
    by rewrite length_replicate, Nat.sub_diag.
Qed.

Lemma start_new W : start (new W) = emptyStarted W W.
Proof.
  unfold start. cbn [new running workerCount queue workers results].
  change {| queue := AsyncQueue.new W; workers := []; results := []; running := true;
            workerCount := W |} with (emptyStarted W 0).
  generalize W at 1 4. intros k.
  induction k as [| k IH]; [done |]. rewrite Nat.iter_succ, IH. apply spawn_emptyStarted.
Qed.

Lemma deliver_sentinels n :
  forall k,
    deliver (map (fun w => (w, None)) (seq k n))
            (replicate k (Resumed None) ++ replicate n Waiting)
    = replicate (k + n) (Resumed None).
Proof.
  induction n as [| n IH]; intros k.
  - cbn. by rewrite app_nil_r, Nat.add_0_r.
  - cbn [seq map]. rewrite PoolCounting.deliver_cons. cbn [fst snd replicate].
    rewrite insert_app_r_alt by (by rewrite length_replicate).
    rewrite length_replicate, Nat.sub_diag. cbn [insert list_insert].
    rewrite (cons_middle (Resumed None)), app_assoc, <- replicate_S_end.
    rewrite IH. f_equal. lia.
Qed.

Lemma resume_sentinels q rs b W n :
  forall k,
    exec (map AResume (seq k n))
         {| queue := q; workers := replicate k Exited ++ replicate n (Resumed None);
            results := rs; running := b; workerCount := W |}
    = ({| queue := q; workers := replicate (k + n) Exited; results := rs; running := b;
          workerCount := W |}, []).
Proof.
  induction n as [| n IH]; intros k.
  - cbn. by rewrite app_nil_r, Nat.add_0_r.
  - cbn [seq map]. rewrite exec_cons. cbn [step observe]. unfold resume.
    cbn [workers queue]. rewrite lookup_app_r by (by rewrite length_replicate).
    rewrite length_replicate, Nat.sub_diag. cbn [replicate lookup list_lookup].
    cbn [withQueue results running workerCount queue].
    rewrite insert_app_r_alt by (by rewrite length_replicate).
    rewrite length_replicate, Nat.sub_diag. cbn [insert list_insert].
    rewrite (cons_middle Exited), app_assoc, <- replicate_S_end.
    rewrite IH. cbn [fst snd app]. do 3 f_equal. lia.
Qed.

Definition isSubmit (a : Action) : bool :=
  match a with ASubmit _ | ASubmitMany _ => true | _ => false end.

(** Nothing is pending, no loop holds an item and no result is
    reported. *)
Definition vacant (p : t) : Prop :=
  AsyncQueue.items (queue p) = []
  /\ Forall (fun w => holdsItem w = false) (workers p)
  /\ results p = [].

Lemma loopHead_vacant i p : vacant p -> vacant (loopHead i p).
Proof.
  intros (Hi & Hw & Hr). unfold loopHead, AsyncQueue.dequeue. rewrite Hi.
  destruct (running p).
  - rewrite bool_decide_eq_true_2 by done. rewrite andb_true_r.
    destruct (AsyncQueue.closed (queue p));
      (split; [done |]; split; [by apply Forall_insert | done]).
  - split; [done |]. split; [by apply Forall_insert | done].
Qed.

Lemma spawns_vacant k p : vacant p -> vacant (Nat.iter k spawn p).
Proof.
  intros H. induction k as [| k IH]; [done |]. rewrite Nat.iter_succ.
  apply loopHead_vacant. destruct IH as (Hi & Hw & Hr).
  split; [done |]. split; [| done]. apply Forall_app. split; [done |]. by constructor.
Qed.

Lemma deliver_none_vacant ds :
  forall ws,
    Forall (fun d : AsyncQueue.Delivery => d.2 = None) ds ->
    Forall (fun w => holdsItem w = false) ws ->
    Forall (fun w => holdsItem w = false) (deliver ds ws).
Proof.
  induction ds as [| d ds IH]; intros ws Hd Hw; [done |].
  rewrite PoolCounting.deliver_cons. apply Forall_cons in Hd as [Hd1 Hd].
  apply IH; [done |]. apply Forall_insert; [done |]. by rewrite Hd1.
Qed.

Lemma closeQueue_vacant p : vacant p -> vacant (closeQueue p).
Proof.
  intros (Hi & Hw & Hr). split; [done |]. split; [| done].
  apply deliver_none_vacant; [| done].
  apply Forall_forall. by intros d (w & -> & _)%list_elem_of_fmap.
Qed.

Lemma step_vacant a p :
  isSubmit a = false -> vacant p -> vacant (step a p) /\ observe a p = [].
Proof.
  intros Ha Hv. pose proof Hv as (Hi & Hw & Hr).
  destruct a as [item | its | | i | i o | | |]; try done; cbn [step observe].
  - split; [| done]. unfold start. destruct (running p); [done |].
    by apply spawns_vacant.
  - unfold resume. destruct (workers p !! i) as [w |] eqn:Hl; [| done].
    pose proof (Forall_lookup_1 _ _ _ _ Hw Hl) as Hh.
    destruct w as [| [it |] | it |]; try done.
    split; [| done]. split; [done |]. split; [by apply Forall_insert | done].
  - unfold finish. destruct (workers p !! i) as [w |] eqn:Hl; [| done].
    pose proof (Forall_lookup_1 _ _ _ _ Hw Hl) as Hh.
    by destruct w as [| [it |] | it |].
  - split; [by apply closeQueue_vacant | done].
  - split; [| done]. unfold completion. by destruct (allExited p).
  - split; [| done]. by apply (closeQueue_vacant (stop p)).
Qed.

Lemma exec_vacant tr :
  forall p, vacant p ->
    vacant (exec (filter (fun a => isSubmit a = false) tr) p).1
    /\ (exec (filter (fun a => isSubmit a = false) tr) p).2 = [].
Proof.
  induction tr as [| a tr IH]; intros p Hv; [done |].
  rewrite filter_cons. case_decide as Ha; [| by apply IH].
  rewrite exec_cons. cbn [fst snd].
  destruct (step_vacant a p Ha Hv) as [Hv' ->]. by apply IH.
Qed.

(** X6. A pool of [W] loops is started and nothing is submitted. The
    [W] loops are suspended in [dequeue]; [waitForCompletion] resolves
    all of them with the sentinel, and after one turn of each loop
    every loop has exited: [waitForCompletion] returns the empty list
    and the statistics are all zero. Moreover, in no run of this pool
    without a submission does a loop receive an item or report a
    result. *)
Theorem empty_pool_wakes_and_exits (W : nat) :
  let p0 := start (new W) in
  let tr := AWaitForCompletion :: map AResume (seq 0 W) in
  workers p0 = replicate W Waiting
  /\ workers (closeQueue p0) = replicate W (Resumed None)
  /\ workers (exec tr p0).1 = replicate W Exited
  /\ (exec tr p0).2 = []
  /\ completion (exec tr p0).1 = Some (stop (exec tr p0).1, [])
  /\ getStats (exec tr p0).1
     = {| total := 0; pending := 0; processing := 0; completed := 0; failed := 0;
          skipped := 0 |}
  /\ (forall tr' : list Action,
         let run := exec (filter (fun a => isSubmit a = false) tr') p0 in
         run.2 = [] /\ results run.1 = []).
Proof.
  cbn zeta. rewrite start_new.
  assert (Hclose : closeQueue (emptyStarted W W)
                   = {| queue := (AsyncQueue.close (queue (emptyStarted W W))).1;
                        workers := replicate 0 Exited ++ replicate W (Resumed None);
                        results := []; running := true; workerCount := W |}).
  { unfold closeQueue, AsyncQueue.close.
    cbn [emptyStarted queue workers withQueue AsyncQueue.waiters AsyncQueue.withPending
         results running workerCount fst replicate app].
    pose proof (deliver_sentinels W 0) as H. cbn [replicate app Nat.add] in H.
    by rewrite H. }
  split; [done |]. split; [by rewrite Hclose |].
  rewrite exec_cons. cbn [step observe fst snd app]. rewrite Hclose, resume_sentinels.
  cbn [fst snd workers Nat.add].
  split; [done |]. split; [done |]. split.
  { unfold completion, allExited. cbn [workers results].
    rewrite (proj2 (forallb_forall _ _)); [done |].
    by intros w ->%list_elem_of_In%elem_of_replicate_inv. }
  split; [done |].
  intros tr'.
  destruct (exec_vacant tr' (emptyStarted W W)) as ((Hi & Hw & Hr) & He).
  { split; [done |]. split; [| done]. apply Forall_forall.
    by intros w ->%elem_of_replicate_inv. }
  by split.
Qed.

(** *** Shutting down *)

Definition isStart (a : Action) : bool :=
  match a with AStart => true | _ => false end.

Definition isReceived (w : Worker) : bool :=
  match w with Resumed (Some _) => true | _ => false end.

(** the loops that have received an item and not yet looked at it *)
Definition received (ws : list Worker) : nat :=
  length (filter (fun w => isReceived w = true) ws).

Lemma received_cons w ws :
  received (w :: ws) = PoolCounting.one (isReceived w) + received ws.
Proof.
  unfold received. rewrite filter_cons.
  case_decide as H; [by rewrite H |].
  apply not_true_is_false in H. by rewrite H.
Qed.

Lemma received_insert ws i w0 w :
  ws !! i = Some w0 ->
  received (<[i := w]> ws) + PoolCounting.one (isReceived w0)
  = received ws + PoolCounting.one (isReceived w).
Proof.
  revert i. induction ws as [| v ws IH]; intros i Hi; [done |].
  destruct i as [| i]; simpl in *.
  - injection Hi as ->. rewrite !received_cons. lia.
  - rewrite !received_cons. specialize (IH i Hi). lia.
Qed.

(** The pool is stopped and its queue closed, with nobody suspended. *)
Definition halted (p : t) : Prop :=
  running p = false /\ QueueWakeups.shut (queue p).

Lemma updateQueue_shut r item q :
  QueueWakeups.shut q ->
  QueueWakeups.shut (updateQueue r item q).1
  /\ (updateQueue r item q).2 = []
  /\ (forall x, x ∈ AsyncQueue.items q -> x ∈ AsyncQueue.items (updateQueue r item q).1).
Proof.
  intros [Hc Hw].
  assert (Hmark : forall q', AsyncQueue.closed q' = true -> AsyncQueue.waiters q' = [] ->
            AsyncQueue.items q' = AsyncQueue.items q ->
            QueueWakeups.shut (AsyncQueue.notifyWaiters q').1
            /\ (AsyncQueue.notifyWaiters q').2 = []
            /\ (forall x, x ∈ AsyncQueue.items q ->
                          x ∈ AsyncQueue.items (AsyncQueue.notifyWaiters q').1)).
  { intros q' Hc' Hw' Hi'. rewrite QueueDelivery.notifyWaiters_idle by done.
    cbn [fst snd]. rewrite Hi'. by repeat split. }
  unfold updateQueue. destruct (success r); [by apply Hmark |].
  destruct (isRecoverable item && _)%bool; [| destruct (error item); by apply Hmark].
  unfold AsyncQueue.requeue.
  destruct (attempts _ <? maxAttempts _)%nat.
  - rewrite QueueDelivery.notifyWaiters_idle by done. cbn [fst snd app].
    split; [done |]. split; [done |]. intros x Hx.
    cbn [AsyncQueue.items AsyncQueue.withPending].
    rewrite (QueueOrder.sortByPriority_perm _). apply elem_of_app. by left.
  - unfold AsyncQueue.markFailed.
    rewrite QueueDelivery.notifyWaiters_idle by done.
    rewrite QueueDelivery.notifyWaiters_idle by done. by repeat split.
Qed.

Lemma step_halted a p :
  isStart a = false -> halted p ->
  halted (step a p)
  /\ PoolCounting.acquiredCount (observe a p) + received (workers (step a p))
     <= received (workers p)
  /\ (forall x, x ∈ AsyncQueue.items (queue p) -> x ∈ AsyncQueue.items (queue (step a p))).
Proof.
  intros Ha (Hr & Hc & Hw).
  destruct a as [item | its | | i | i o | | |]; try done; cbn [step observe].
  - unfold submit, AsyncQueue.enqueue. rewrite Hc. by repeat split.
  - unfold submitMany, AsyncQueue.enqueueMany. rewrite Hc. by repeat split.
  - unfold resume. destruct (workers p !! i) as [w |] eqn:Hl; [| by repeat split].
    destruct w as [| [it |] | it |]; try (by repeat split).
    + split; [done |]. split; [| done]. cbn [withQueue workers].
      pose proof (received_insert _ i _ (Busy (setStatus Processing it)) Hl) as H.
      cbn [PoolCounting.one isReceived] in H.
      change (PoolCounting.acquiredCount [Acquired i it]) with 1. lia.
    + split; [done |]. split; [| done]. cbn [withQueue workers].
      pose proof (received_insert _ i _ Exited Hl) as H.
      cbn [PoolCounting.one isReceived] in H.
      change (PoolCounting.acquiredCount []) with 0. lia.
  - unfold finish. destruct (workers p !! i) as [w |] eqn:Hl; [| by repeat split].
    destruct w as [| r0 | it |]; try (by repeat split).
    destruct (settle o) as [r item'].
    destruct (updateQueue_shut r item' (queue p) (conj Hc Hw)) as (Hs & Hd & Hi).
    destruct (updateQueue r item' (queue p)) as [q ds]. cbn [fst snd] in *. subst ds.
    unfold loopHead. cbn [running queue workers deliver foldl withQueue]. rewrite Hr.
    split; [done |]. split; [| done].
    pose proof (received_insert _ i _ Exited Hl) as H.
    cbn [PoolCounting.one isReceived] in H.
    change (PoolCounting.acquiredCount [Processed i r]) with 0.
    cbn [withQueue workers]. lia.
  - unfold closeQueue, AsyncQueue.close. rewrite Hw.
    cbn [map deliver foldl withQueue workers queue running].
    change (PoolCounting.acquiredCount []) with 0. by repeat split.
  - unfold completion. destruct (allExited p); by repeat split.
  - unfold shutdown, closeQueue, stop, AsyncQueue.close. cbn [queue workers]. rewrite Hw.
    cbn [map deliver foldl withQueue workers queue running].
    change (PoolCounting.acquiredCount []) with 0. by repeat split.
Qed.

(** X7. [shutdown()] abandons what is pending. After it, as long as
    [start()] is not called again, the pool stays stopped and the
    queue closed, no item leaves the pending items (a failing item
    that is requeued joins them), and the loops only look at items
    whose delivery had been resolved before: the number of items
    received afterwards is at most the number of loops that had an
    item waiting for them at the time of the call. *)
Theorem shutdown_abandons_pending (p : t) (tr : list Action) :
  let after := shutdown p in
  let run := exec (filter (fun a => isStart a = false) tr) after in
  running run.1 = false
  /\ AsyncQueue.closed (queue run.1) = true
  /\ PoolCounting.acquiredCount run.2 <= received (workers after)
  /\ (forall x, x ∈ AsyncQueue.items (queue after) -> x ∈ AsyncQueue.items (queue run.1)).
Proof.
  cbn zeta.
  assert (Hh : halted (shutdown p)) by done.
  revert Hh. generalize (shutdown p). intros q.
  induction tr as [| a tr IH] in q |- *; intros Hh.
  - cbn. split; [apply Hh |]. split; [apply Hh |]. split; [lia | done].
  - rewrite filter_cons. case_decide as Ha; [| by apply IH].
    rewrite exec_cons. cbn [fst snd].
    destruct (step_halted a q Ha Hh) as (Hh' & Hacq & Hit).
    destruct (IH _ Hh') as (H1 & H2 & H3 & H4).
    split; [done |]. split; [done |].
    split; [rewrite PoolCounting.acquiredCount_app; lia |].
    intros x Hx. by apply H4, Hit.
Qed.

End PoolLifecycle.


(** ** Pool: every item is in one place *)

Module PoolAccounting.
Import Types WorkerPool RetryRun.

#[local] Abbreviation size := base.size (only parsing).
#[local] Set Warnings "-clear-no-such-hyp".

(** the item that a loop has received and not yet reported *)
Definition itemOf (w : Worker) : option QueueItem :=
  match w with
  | Resumed (Some it) | Busy it => Some it
  | _ => None
  end.

(** Loop [j] holds [it]. The loop [flux], if any, is in the middle of
    its turn: what [workers] says of it is out of date and is not
    counted. *)
Definition holds (flux : option nat) (ws : list Worker) (j : nat) (it : QueueItem) : Prop :=
  flux <> Some j /\ exists w, ws !! j = Some w /\ itemOf w = Some it.

Definition pendingIds (q : AsyncQueue.t) : list string := map id (AsyncQueue.items q).

(** the ids that the queue knows *)
Definition known (q : AsyncQueue.t) : gset string :=
  list_to_set (pendingIds q) ∪ AsyncQueue.processing q
  ∪ dom (AsyncQueue.completed q) ∪ dom (AsyncQueue.failed q)
  ∪ dom (AsyncQueue.skipped q).

(** The books of the queue agree with the loops: the suspended callers
    are the waiting loops, [processing] holds the ids of the items
    that the loops hold, and no id is in two places. *)
Record accounted (flux : option nat) (q : AsyncQueue.t) (ws : list Worker) : Prop := {
  acc_nodup : NoDup (AsyncQueue.waiters q);
  acc_waiting : forall w, w ∈ AsyncQueue.waiters q -> ws !! w = Some Waiting /\ flux <> Some w;
  acc_registered : forall j, flux <> Some j -> ws !! j = Some Waiting ->
                             j ∈ AsyncQueue.waiters q;
  acc_sentinel : forall j, flux <> Some j ->
                           ws !! j = Some Exited \/ ws !! j = Some (Resumed None) ->
                           AsyncQueue.closed q = true;
  acc_pending : NoDup (pendingIds q);
  acc_unique : forall j1 j2 it1 it2,
      holds flux ws j1 it1 -> holds flux ws j2 it2 -> id it1 = id it2 -> j1 = j2;
  acc_apart : forall j it, holds flux ws j it -> id it ∉ pendingIds q;
  acc_processing : forall x,
      x ∈ AsyncQueue.processing q <-> exists j it, holds flux ws j it /\ id it = x;
  acc_terminal : forall x,
      x ∈ dom (AsyncQueue.completed q) ∪ dom (AsyncQueue.failed q) ->
      (x ∉ pendingIds q) /\ (x ∉ AsyncQueue.processing q);
  acc_exclusive : dom (AsyncQueue.completed q) ## dom (AsyncQueue.failed q);
  acc_skipped : AsyncQueue.skipped q = ∅;
  acc_limit : 1 <= AsyncQueue.maxConcurrent q;
}.

Lemma holds_insert flux ws i v j it :
  holds flux (<[i := v]> ws) j it
  <-> (j = i /\ flux <> Some i /\ i < length ws /\ itemOf v = Some it)
      \/ (j <> i /\ holds flux ws j it).
Proof.
  unfold holds. split.
  - intros (Hf & w & Hl & Hw).
    apply list_lookup_insert_Some in Hl as [(-> & -> & Hlt) | [Hne Hl]].
    + left. by repeat split.
    + right. split; [done |]. split; [done |]. by exists w.
  - intros [(-> & Hf & Hlt & Hv) | (Hne & Hf & w & Hl & Hw)].
    + split; [done |]. exists v. split; [by apply list_lookup_insert_eq | done].
    + split; [done |]. exists w. split; [by rewrite list_lookup_insert_ne | done].
Qed.

Lemma holds_flux i ws j it : holds (Some i) ws j it <-> j <> i /\ holds None ws j it.
Proof.
  unfold holds. split.
  - intros (Hf & H). split; [congruence |]. by split.
  - intros (Hne & _ & H). split; [congruence | done].
Qed.

(** One pass of the loop of [notifyWaiters]: the first suspended loop
    receives the first pending item. *)
Lemma hand_over_accounted flux q ws w wr item ir :
  accounted flux q ws ->
  AsyncQueue.waiters q = w :: wr -> AsyncQueue.items q = item :: ir ->
  accounted flux
    (AsyncQueue.withPending q ir ({[id item]} ∪ AsyncQueue.processing q) wr)
    (<[w := Resumed (Some item)]> ws).
Proof.
  intros H Hw Hi.
  destruct (acc_waiting _ _ _ H w) as [Hlw Hfw]; [rewrite Hw; left |].
  pose proof (lookup_lt_Some _ _ _ Hlw) as Hlen.
  pose proof (acc_nodup _ _ _ H) as Hnd. rewrite Hw in Hnd.
  apply NoDup_cons in Hnd as [Hnw Hnd].
  pose proof (acc_pending _ _ _ H) as Hnp. unfold pendingIds in Hnp. rewrite Hi in Hnp.
  cbn [map] in Hnp. apply NoDup_cons in Hnp as [Hni Hnp].
  assert (Hold : forall j it, j <> w -> holds flux ws j it -> id it <> id item).
  { intros j it _ Hh Heq. apply (acc_apart _ _ _ H j it Hh).
    unfold pendingIds. rewrite Hi, Heq. left. }
  split; cbn [AsyncQueue.withPending AsyncQueue.waiters AsyncQueue.items
              AsyncQueue.processing AsyncQueue.closed AsyncQueue.completed
              AsyncQueue.failed AsyncQueue.skipped AsyncQueue.maxConcurrent pendingIds].
  - done.
  - intros w' Hin. destruct (acc_waiting _ _ _ H w') as [Hl Hf]; [rewrite Hw; by right |].
    split; [| done]. rewrite list_lookup_insert_ne; [done |]. by intros <-.
  - intros j Hf Hl. apply list_lookup_insert_Some in Hl as [(_ & [=] & _) | [Hne Hl]].
    pose proof (acc_registered _ _ _ H j Hf Hl) as Hin. rewrite Hw in Hin.
    apply elem_of_cons in Hin as [-> | Hin]; done.
  - intros j Hf [Hl | Hl];
      apply list_lookup_insert_Some in Hl as [(_ & [=] & _) | [Hne Hl]];
      apply (acc_sentinel _ _ _ H j Hf); auto.
  - done.
  - intros j1 j2 it1 it2 H1 H2 Heq.
    apply holds_insert in H1 as [(-> & _ & _ & [= <-]) | (Hn1 & H1)];
      apply holds_insert in H2 as [(-> & _ & _ & [= <-]) | (Hn2 & H2)]; try done.
    + by destruct (Hold j2 it2 Hn2 H2).
    + by destruct (Hold j1 it1 Hn1 H1).
    + by apply (acc_unique _ _ _ H j1 j2 it1 it2).
  - intros j it Hh. apply holds_insert in Hh as [(-> & _ & _ & [= <-]) | (Hn & Hh)]; [done |].
    intros Hin. apply (acc_apart _ _ _ H j it Hh). unfold pendingIds. rewrite Hi. by right.
  - intros x. rewrite elem_of_union, elem_of_singleton, (acc_processing _ _ _ H x). split.
    + intros [-> | (j & it & Hh & <-)].
      * exists w, item. split; [| done]. apply holds_insert. left. by repeat split.
      * exists j, it. split; [| done]. apply holds_insert. right. split; [| done].
        intros ->. destruct Hh as (_ & w0 & Hl0 & Hit). rewrite Hlw in Hl0.
        by injection Hl0 as <-.
    + intros (j & it & Hh & <-).
      apply holds_insert in Hh as [(-> & _ & _ & [= <-]) | (Hn & Hh)]; [by left |].
      right. by exists j, it.
  - intros x Hx. destruct (acc_terminal _ _ _ H x Hx) as [Hp Hq].
    unfold pendingIds in Hp. rewrite Hi in Hp. cbn [map] in Hp.
    apply not_elem_of_cons in Hp as [Hne Hp]. split; [done |].
    rewrite elem_of_union, elem_of_singleton. by intros [-> | Hin].
  - apply (acc_exclusive _ _ _ H).
  - apply (acc_skipped _ _ _ H).
  - apply (acc_limit _ _ _ H).
Qed.

Lemma withPending_self q :
  AsyncQueue.withPending q (AsyncQueue.items q) (AsyncQueue.processing q)
    (AsyncQueue.waiters q) = q.
Proof. by destruct q. Qed.

Lemma notifyLoop_accounted flux q wsw :
  forall its proc ws,
    accounted flux (AsyncQueue.withPending q its proc wsw) ws ->
    accounted flux
      (AsyncQueue.withPending q
         (AsyncQueue.notifyLoop (AsyncQueue.maxConcurrent q) wsw its proc).1.1.2
         (AsyncQueue.notifyLoop (AsyncQueue.maxConcurrent q) wsw its proc).1.2
         (AsyncQueue.notifyLoop (AsyncQueue.maxConcurrent q) wsw its proc).1.1.1)
      (deliver (AsyncQueue.notifyLoop (AsyncQueue.maxConcurrent q) wsw its proc).2 ws)
    /\ list_to_set
         (map id (AsyncQueue.notifyLoop (AsyncQueue.maxConcurrent q) wsw its proc).1.1.2)
       ∪ (AsyncQueue.notifyLoop (AsyncQueue.maxConcurrent q) wsw its proc).1.2
       = list_to_set (map id its) ∪ proc.
Proof.
  induction wsw as [| w wr IH]; intros its proc ws H; [done |].
  destruct its as [| item ir]; [done |].
  cbn [AsyncQueue.notifyLoop].
  destruct (size proc <? AsyncQueue.maxConcurrent q)%nat; [| done].
  pose proof (hand_over_accounted flux _ ws w wr item ir H eq_refl eq_refl) as H1.
  destruct (IH ir ({[id item]} ∪ proc) _ H1) as [H2 H3].
  destruct (AsyncQueue.notifyLoop _ wr ir _) as [[[ws2 its2] proc2] ds].
  cbn [fst snd] in *. rewrite PoolCounting.deliver_cons. cbn [fst snd].
  split; [exact H2 |]. rewrite H3. cbn [map list_to_set]. set_solver.
Qed.

(** [notifyWaiters], with the promises it resolves delivered to the
    loops. *)
Lemma notify_accounted flux q ws :
  accounted flux q ws ->
  accounted flux (AsyncQueue.notifyWaiters q).1 (deliver (AsyncQueue.notifyWaiters q).2 ws)
  /\ known (AsyncQueue.notifyWaiters q).1 = known q
  /\ AsyncQueue.closed (AsyncQueue.notifyWaiters q).1 = AsyncQueue.closed q
  /\ AsyncQueue.completed (AsyncQueue.notifyWaiters q).1 = AsyncQueue.completed q
  /\ AsyncQueue.failed (AsyncQueue.notifyWaiters q).1 = AsyncQueue.failed q.
Proof.
  intros H. rewrite <- (withPending_self q) in H.
  destruct (notifyLoop_accounted flux q _ _ _ ws H) as [H1 H2].
  unfold AsyncQueue.notifyWaiters, known, pendingIds.
  destruct (AsyncQueue.notifyLoop _ _ _ _) as [[[ws2 its2] proc2] ds].
  cbn [fst snd AsyncQueue.withPending AsyncQueue.items AsyncQueue.processing
       AsyncQueue.completed AsyncQueue.failed AsyncQueue.skipped AsyncQueue.closed] in *.
  split; [exact H1 |]. by rewrite H2.
Qed.

(** The loop [i] arrives at [await dequeue()]. *)
Lemma dequeue_accounted i q ws :
  accounted (Some i) q ws -> i < length ws ->
  let w := match (AsyncQueue.dequeue i q).2 with
           | AsyncQueue.Got item => Resumed (Some item)
           | AsyncQueue.Sentinel => Resumed None
           | AsyncQueue.Suspended => Waiting
           end in
  accounted None (AsyncQueue.dequeue i q).1 (<[i := w]> ws)
  /\ known (AsyncQueue.dequeue i q).1 = known q
  /\ (AsyncQueue.items q <> [] -> AsyncQueue.processing (AsyncQueue.dequeue i q).1 <> ∅).
Proof.
  intros H Hlt.
  assert (Hidle : forall q' v,
             itemOf v = None ->
             AsyncQueue.items q' = AsyncQueue.items q ->
             AsyncQueue.processing q' = AsyncQueue.processing q ->
             AsyncQueue.completed q' = AsyncQueue.completed q ->
             AsyncQueue.failed q' = AsyncQueue.failed q ->
             AsyncQueue.skipped q' = AsyncQueue.skipped q ->
             AsyncQueue.maxConcurrent q' = AsyncQueue.maxConcurrent q ->
             AsyncQueue.closed q' = AsyncQueue.closed q ->
             NoDup (AsyncQueue.waiters q') ->
             (forall w, w ∈ AsyncQueue.waiters q' <->
                        w ∈ AsyncQueue.waiters q \/ (v = Waiting /\ w = i)) ->
             (v = Exited \/ v = Resumed None -> AsyncQueue.closed q = true) ->
             accounted None q' (<[i := v]> ws) /\ known q' = known q).
  { intros q' v Hv Hi Hp Hc Hf Hs Hm Hcl Hnd Hw Hsen.
    assert (Hh : forall j it, holds None (<[i := v]> ws) j it <-> holds (Some i) ws j it).
    { intros j it. rewrite holds_insert, holds_flux. rewrite Hv. naive_solver. }
    split; [| unfold known, pendingIds; by rewrite Hi, Hp, Hc, Hf, Hs].
    split; unfold pendingIds; rewrite ?Hi, ?Hp, ?Hc, ?Hf, ?Hs, ?Hm, ?Hcl.
    - done.
    - intros w [Hin | [-> ->]]%Hw.
      + destruct (acc_waiting _ _ _ H w Hin) as [Hl Hne].
        split; [| done]. rewrite list_lookup_insert_ne; [done | congruence].
      + split; [by apply list_lookup_insert_eq | done].
    - intros j _ Hl. apply Hw.
      apply list_lookup_insert_Some in Hl as [(-> & -> & _) | [Hne Hl]]; [by right |].
      left. apply (acc_registered _ _ _ H); [congruence | done].
    - intros j _ Hl.
      destruct (decide (i = j)) as [<- | Hne].
      + rewrite list_lookup_insert_eq in Hl by done. apply Hsen. naive_solver.
      + rewrite list_lookup_insert_ne in Hl by done.
        apply (acc_sentinel _ _ _ H j); [congruence | done].
    - apply (acc_pending _ _ _ H).
    - intros j1 j2 it1 it2 H1%Hh H2%Hh. by apply (acc_unique _ _ _ H).
    - intros j it Hj%Hh. by apply (acc_apart _ _ _ H j it).
    - intros x. rewrite (acc_processing _ _ _ H x). by setoid_rewrite Hh.
    - apply (acc_terminal _ _ _ H).
    - apply (acc_exclusive _ _ _ H).
    - apply (acc_skipped _ _ _ H).
    - apply (acc_limit _ _ _ H). }
  assert (Hni : i ∉ AsyncQueue.waiters q).
  { intros Hin. by destruct (acc_waiting _ _ _ H i Hin) as [_ Hne]. }
  assert (Hsame : forall Hc : AsyncQueue.closed q = true,
             accounted None q (<[i := Resumed None]> ws) /\ known q = known q).
  { intros Hc. apply Hidle; try done; [apply (acc_nodup _ _ _ H) | naive_solver]. }
  assert (Hsusp : AsyncQueue.closed q = false ->
             accounted None
               (AsyncQueue.withPending q (AsyncQueue.items q) (AsyncQueue.processing q)
                  (AsyncQueue.waiters q ++ [i])) (<[i := Waiting]> ws)
             /\ known (AsyncQueue.withPending q (AsyncQueue.items q)
                         (AsyncQueue.processing q) (AsyncQueue.waiters q ++ [i]))
                = known q).
  { intros Hc. apply Hidle; try done.
    - apply NoDup_app. split; [apply (acc_nodup _ _ _ H) |].
      split; [| apply NoDup_singleton]. intros w Hin ->%list_elem_of_singleton. done.
    - intros w. cbn [AsyncQueue.waiters AsyncQueue.withPending].
      rewrite elem_of_app, list_elem_of_singleton. naive_solver.
    - by intros [|]. }
  assert (Hgot : forall item rest,
             AsyncQueue.items q = item :: rest ->
             accounted None
               (AsyncQueue.withPending q rest ({[id item]} ∪ AsyncQueue.processing q)
                  (AsyncQueue.waiters q)) (<[i := Resumed (Some item)]> ws)
             /\ known (AsyncQueue.withPending q rest ({[id item]} ∪ AsyncQueue.processing q)
                         (AsyncQueue.waiters q)) = known q
             /\ {[id item]} ∪ AsyncQueue.processing q <> (∅ : gset string)).
  { intros item rest Hit.
    destruct (Hidle (AsyncQueue.withPending q (AsyncQueue.items q) (AsyncQueue.processing q)
                       (i :: AsyncQueue.waiters q)) Waiting) as [H1 _]; try done.
    - apply NoDup_cons. split; [done | apply (acc_nodup _ _ _ H)].
    - intros w. cbn [AsyncQueue.waiters AsyncQueue.withPending].
      rewrite elem_of_cons. naive_solver.
    - by intros [|].
    - pose proof (hand_over_accounted None _ _ i (AsyncQueue.waiters q) item rest H1
                    eq_refl Hit) as H2.
      rewrite list_insert_insert_eq in H2.
      split; [exact H2 |]. split; [| set_solver].
      unfold known, pendingIds.
      cbn [AsyncQueue.withPending AsyncQueue.items AsyncQueue.processing
           AsyncQueue.completed AsyncQueue.failed AsyncQueue.skipped].
      rewrite Hit. cbn [map list_to_set]. set_solver. }
  assert (Hfull : AsyncQueue.maxConcurrent q <= size (AsyncQueue.processing q) ->
                  AsyncQueue.processing q <> ∅).
  { intros Hlim Hemp. rewrite Hemp, size_empty in Hlim.
    pose proof (acc_limit _ _ _ H). lia. }
  cbn zeta. unfold AsyncQueue.dequeue.
  destruct (AsyncQueue.closed q) eqn:Hc; cbn [andb].
  - case_bool_decide as Hi.
    + cbn [fst snd]. destruct (Hsame eq_refl) as [H1 H2].
      split; [done |]. split; [done |]. by intros.
    + destruct (AsyncQueue.items q) as [| item rest] eqn:Hit; [done |].
      destruct (size (AsyncQueue.processing q) <? AsyncQueue.maxConcurrent q)%nat eqn:Hlim.
      * cbn [fst snd]. destruct (Hgot item rest eq_refl) as (H1 & H2 & H3).
        split; [done |]. split; [done |]. by intros _.
      * cbn [fst snd]. destruct (Hsame eq_refl) as [H1 H2].
        split; [done |]. split; [done |]. intros _. by apply Hfull, Nat.ltb_ge.
  - destruct (AsyncQueue.items q) as [| item rest] eqn:Hit.
    + cbn [fst snd]. destruct (Hsusp eq_refl) as [H1 H2].
      split; [done |]. split; [done |]. by intros.
    + destruct (size (AsyncQueue.processing q) <? AsyncQueue.maxConcurrent q)%nat eqn:Hlim.
      * cbn [fst snd]. destruct (Hgot item rest eq_refl) as (H1 & H2 & H3).
        split; [done |]. split; [done |]. by intros _.
      * cbn [fst snd]. destruct (Hsusp eq_refl) as [H1 H2].
        split; [done |]. split; [done |]. intros _. by apply Hfull, Nat.ltb_ge.
Qed.

(** The loop [i] gives back the item it holds: its id leaves
    [processing] and goes to the pending items, to [completed] or to
    [failed]. *)
Lemma release_accounted i q ws held q' (pe : list string) (ce fe : gset string) :
  accounted None q ws -> ws !! i = Some (Busy held) ->
  pendingIds q' ≡ₚ pendingIds q ++ pe ->
  AsyncQueue.processing q' = AsyncQueue.processing q ∖ {[id held]} ->
  dom (AsyncQueue.completed q') = dom (AsyncQueue.completed q) ∪ ce ->
  dom (AsyncQueue.failed q') = dom (AsyncQueue.failed q) ∪ fe ->
  (pe = [id held] /\ ce = ∅ /\ fe = ∅)
  \/ (pe = [] /\ ce = {[id held]} /\ fe = ∅)
  \/ (pe = [] /\ ce = ∅ /\ fe = {[id held]}) ->
  AsyncQueue.skipped q' = AsyncQueue.skipped q ->
  AsyncQueue.closed q' = AsyncQueue.closed q ->
  AsyncQueue.waiters q' = AsyncQueue.waiters q ->
  AsyncQueue.maxConcurrent q' = AsyncQueue.maxConcurrent q ->
  accounted (Some i) q' ws /\ known q' = known q.
Proof.
  intros H Hi Hpend Hproc Hcomp Hfail Hdest Hs Hc Hw Hm.
  assert (Hheld : holds None ws i held) by (split; [done |]; by exists (Busy held)).
  assert (Hin : id held ∈ AsyncQueue.processing q).
  { apply (acc_processing _ _ _ H). by exists i, held. }
  assert (Hnp : id held ∉ pendingIds q) by (by apply (acc_apart _ _ _ H i held)).
  assert (Hnt : id held ∉ dom (AsyncQueue.completed q) ∪ dom (AsyncQueue.failed q)).
  { intros Hx. by destruct (acc_terminal _ _ _ H _ Hx). }
  assert (Hother : forall j it, holds (Some i) ws j it -> id it <> id held).
  { intros j it [Hne Hh]%holds_flux Heq. by apply Hne, (acc_unique _ _ _ H j i it held). }
  split.
  - split; rewrite ?Hs, ?Hc, ?Hw, ?Hm.
    + apply (acc_nodup _ _ _ H).
    + intros w Hwin. destruct (acc_waiting _ _ _ H w Hwin) as [Hl _].
      split; [done |]. intros [= ->]. congruence.
    + intros j Hne Hl. by apply (acc_registered _ _ _ H).
    + intros j Hne Hl. by apply (acc_sentinel _ _ _ H j).
    + rewrite Hpend. apply NoDup_app. split; [apply (acc_pending _ _ _ H) |].
      destruct Hdest as [(-> & _) | [(-> & _) | (-> & _)]].
      * split; [| apply NoDup_singleton]. by intros x Hx ->%list_elem_of_singleton.
      * split; [| apply NoDup_nil_2]. by intros x Hx Hnil%elem_of_nil.
      * split; [| apply NoDup_nil_2]. by intros x Hx Hnil%elem_of_nil.
    + intros j1 j2 it1 it2 [_ H1]%holds_flux [_ H2]%holds_flux.
      by apply (acc_unique _ _ _ H).
    + intros j it Hh. rewrite Hpend, elem_of_app. intros [Hx | Hx].
      * apply holds_flux in Hh as [_ Hh]. by apply (acc_apart _ _ _ H j it).
      * destruct Hdest as [(-> & _) | [(-> & _) | (-> & _)]].
        -- apply list_elem_of_singleton in Hx. by apply (Hother j it).
        -- by apply elem_of_nil in Hx.
        -- by apply elem_of_nil in Hx.
    + intros x. rewrite Hproc, elem_of_difference, elem_of_singleton.
      rewrite (acc_processing _ _ _ H x). split.
      * intros [(j & it & Hh & <-) Hne]. exists j, it. split; [| done].
        apply holds_flux. split; [| done]. intros ->.
        destruct Hh as (_ & w & Hl & Hit). rewrite Hi in Hl. injection Hl as <-.
        by injection Hit as <-.
      * intros (j & it & Hh & <-). split; [| by apply (Hother j it)].
        apply holds_flux in Hh as [_ Hh]. by exists j, it.
    + intros x. rewrite Hcomp, Hfail, Hproc, Hpend.
      rewrite elem_of_app, elem_of_difference, elem_of_singleton.
      intros Hx.
      assert (Hcase : x ∈ dom (AsyncQueue.completed q) ∪ dom (AsyncQueue.failed q)
                      \/ (x = id held /\ pe = [])).
      { destruct Hdest as [(-> & -> & ->) | [(-> & -> & ->) | (-> & -> & ->)]];
          set_solver. }
      destruct Hcase as [Hold | [-> ->]].
      * destruct (acc_terminal _ _ _ H x Hold) as [Hp Hq]. split; [| tauto].
        intros [Hin' | Hin']; [done |].
        destruct Hdest as [(-> & _) | [(-> & _) | (-> & _)]].
        -- apply list_elem_of_singleton in Hin' as ->. done.
        -- by apply elem_of_nil in Hin'.
        -- by apply elem_of_nil in Hin'.
      * split; [| tauto]. intros [Hin' | Hin']; [done | by apply elem_of_nil in Hin'].
    + rewrite Hcomp, Hfail. pose proof (acc_exclusive _ _ _ H) as Hex.
      destruct Hdest as [(-> & -> & ->) | [(-> & -> & ->) | (-> & -> & ->)]]; set_solver.
    + apply (acc_skipped _ _ _ H).
    + apply (acc_limit _ _ _ H).
  - unfold known. rewrite Hproc, Hcomp, Hfail, Hs.
    assert (Hl : list_to_set (pendingIds q') = (list_to_set (pendingIds q ++ pe) : gset string))
      by (by rewrite Hpend).
    rewrite Hl, list_to_set_app_L.
    apply set_eq. intros x.
    destruct (decide (x = id held)) as [-> | Hne];
      destruct Hdest as [(-> & -> & ->) | [(-> & -> & ->) | (-> & -> & ->)]]; set_solver.
Qed.

Lemma mark_accounted i q ws held qm (ce fe : gset string) :
  accounted None q ws -> ws !! i = Some (Busy held) ->
  AsyncQueue.items qm = AsyncQueue.items q ->
  AsyncQueue.processing qm = AsyncQueue.processing q ∖ {[id held]} ->
  dom (AsyncQueue.completed qm) = dom (AsyncQueue.completed q) ∪ ce ->
  dom (AsyncQueue.failed qm) = dom (AsyncQueue.failed q) ∪ fe ->
  (ce = {[id held]} /\ fe = ∅) \/ (ce = ∅ /\ fe = {[id held]}) ->
  AsyncQueue.skipped qm = AsyncQueue.skipped q ->
  AsyncQueue.closed qm = AsyncQueue.closed q ->
  AsyncQueue.waiters qm = AsyncQueue.waiters q ->
  AsyncQueue.maxConcurrent qm = AsyncQueue.maxConcurrent q ->
  accounted (Some i) (AsyncQueue.notifyWaiters qm).1
            (deliver (AsyncQueue.notifyWaiters qm).2 ws)
  /\ known (AsyncQueue.notifyWaiters qm).1 = known q.
Proof.
  intros H Hi Hit Hproc Hcomp Hfail Hdest Hs Hc Hw Hm.
  destruct (release_accounted i q ws held qm [] ce fe H Hi) as [Hacc Hk]; try done.
  { unfold pendingIds. by rewrite Hit, app_nil_r. }
  { right. destruct Hdest as [[-> ->] | [-> ->]]; [by left | by right]. }
  destruct (notify_accounted _ _ _ Hacc) as (Hacc' & Hk' & _).
  split; [done | by rewrite Hk'].
Qed.

Lemma markCompleted_accounted i q ws held item :
  accounted None q ws -> ws !! i = Some (Busy held) -> id item = id held ->
  accounted (Some i) (AsyncQueue.markCompleted item q).1
            (deliver (AsyncQueue.markCompleted item q).2 ws)
  /\ known (AsyncQueue.markCompleted item q).1 = known q.
Proof.
  intros H Hi Hid. unfold AsyncQueue.markCompleted.
  apply (mark_accounted i q ws held _ {[id held]} ∅); try done; cbn.
  - by rewrite Hid.
  - rewrite dom_insert_L, Hid. set_solver.
  - set_solver.
  - by left.
Qed.

Lemma markFailed_accounted i q ws held item c m :
  accounted None q ws -> ws !! i = Some (Busy held) -> id item = id held ->
  accounted (Some i) (AsyncQueue.markFailed item c m q).1
            (deliver (AsyncQueue.markFailed item c m q).2 ws)
  /\ known (AsyncQueue.markFailed item c m q).1 = known q.
Proof.
  intros H Hi Hid. unfold AsyncQueue.markFailed.
  apply (mark_accounted i q ws held _ ∅ {[id held]}); try done; cbn.
  - by rewrite Hid.
  - set_solver.
  - rewrite dom_insert_L, Hid. set_solver.
  - by right.
Qed.

Lemma deliver_app ds1 ds2 ws : deliver (ds1 ++ ds2) ws = deliver ds2 (deliver ds1 ws).
Proof. unfold deliver. by rewrite foldl_app. Qed.

Lemma requeue_accounted i q ws held item :
  accounted None q ws -> ws !! i = Some (Busy held) -> id item = id held ->
  accounted (Some i) (AsyncQueue.requeue item q).1
            (deliver (AsyncQueue.requeue item q).2 ws)
  /\ known (AsyncQueue.requeue item q).1 = known q.
Proof.
  intros H Hi Hid. unfold AsyncQueue.requeue.
  destruct (attempts _ <? maxAttempts _)%nat.
  - match goal with
    | |- context [AsyncQueue.notifyWaiters ?r] =>
        destruct (release_accounted i q ws held r [id held] ∅ ∅ H Hi) as [Hacc Hk];
          try done
    end.
    { unfold pendingIds. cbn [AsyncQueue.items AsyncQueue.withPending].
      rewrite (QueueOrder.sortByPriority_perm _), map_app. cbn [map]. by rewrite <- Hid. }
    { cbn. by rewrite Hid. }
    { cbn. set_solver. }
    { cbn. set_solver. }
    { by left. }
    destruct (notify_accounted _ _ _ Hacc) as (Hacc' & Hk' & _).
    match goal with
    | |- context [AsyncQueue.notifyWaiters ?r] => destruct (AsyncQueue.notifyWaiters r)
    end.
    cbn [fst snd app] in *. split; [done | by rewrite Hk'].
  - unfold AsyncQueue.markFailed.
    match goal with
    | |- context [AsyncQueue.notifyWaiters ?r] =>
        destruct (mark_accounted i q ws held r ∅ {[id held]} H Hi) as [Hacc Hk];
          try done
    end.
    { cbn. rewrite Hid. set_solver. }
    { cbn. set_solver. }
    { cbn. rewrite dom_insert_L. cbn. rewrite Hid. set_solver. }
    { by right. }
    match goal with
    | |- context [AsyncQueue.notifyWaiters ?r] =>
        destruct (AsyncQueue.notifyWaiters r) as [q2 ds1]
    end.
    cbn [fst snd] in Hacc, Hk.
    destruct (notify_accounted _ _ _ Hacc) as (Hacc' & Hk' & _).
    destruct (AsyncQueue.notifyWaiters q2) as [q3 ds2].
    cbn [fst snd] in *. rewrite deliver_app. split; [done | by rewrite Hk'].
Qed.

Lemma updateQueue_accounted i r item q ws held :
  accounted None q ws -> ws !! i = Some (Busy held) -> id item = id held ->
  accounted (Some i) (updateQueue r item q).1 (deliver (updateQueue r item q).2 ws)
  /\ known (updateQueue r item q).1 = known q.
Proof.
  intros H Hi Hid. unfold updateQueue.
  destruct (success r); [by apply (markCompleted_accounted i q ws held) |].
  destruct (isRecoverable item && _)%bool; [by apply (requeue_accounted i q ws held) |].
  destruct (error item); by apply (markFailed_accounted i q ws held).
Qed.

(** What the queue's books see of a loop: whether it is suspended,
    and the id of the item it holds. *)
Definition face (w : Worker) : bool * option string :=
  (match w with Waiting => true | _ => false end, id <$> itemOf w).

Definition sentinelSeen (w : Worker) : bool :=
  match w with Exited | Resumed None => true | _ => false end.

(** A loop moves on without a call to the queue. *)
Lemma retag_accounted q ws i w w' :
  accounted None q ws -> ws !! i = Some w -> face w' = face w ->
  (sentinelSeen w' = true -> sentinelSeen w = true) ->
  accounted None q (<[i := w']> ws).
Proof.
  intros H Hi Hface Hsent.
  assert (Hlt : i < length ws) by (by apply lookup_lt_Some in Hi).
  assert (Hholds : forall j it, holds None (<[i := w']> ws) j it ->
                                exists it0, holds None ws j it0 /\ id it0 = id it).
  { intros j it [[-> (_ & _ & Hit)] | [Hne Hh]]%holds_insert.
    - injection Hface as _ Hf. rewrite Hit in Hf. cbn in Hf.
      destruct (itemOf w) as [it0 |] eqn:Hw; [| done]. injection Hf as Hf.
      exists it0. split; [| done]. split; [done |]. by exists w.
    - by exists it. }
  assert (Hback : forall j it, holds None ws j it ->
                               exists it', holds None (<[i := w']> ws) j it' /\ id it' = id it).
  { intros j it Hh. destruct (decide (j = i)) as [-> | Hne].
    - destruct Hh as (_ & w0 & Hl & Hit). rewrite Hi in Hl. injection Hl as <-.
      injection Hface as _ Hf. rewrite Hit in Hf. cbn in Hf.
      destruct (itemOf w') as [it' |] eqn:Hw'; [| done]. injection Hf as Hf.
      exists it'. split; [| done]. apply holds_insert. left. by repeat split.
    - exists it. split; [| done]. apply holds_insert. by right. }
  split.
  - apply (acc_nodup _ _ _ H).
  - intros j Hj. destruct (acc_waiting _ _ _ H j Hj) as [Hl _]. split; [| done].
    destruct (decide (j = i)) as [-> | Hne]; [| by rewrite list_lookup_insert_ne].
    rewrite list_lookup_insert_eq by done. rewrite Hi in Hl. injection Hl as ->.
    injection Hface as Hf _. by destruct w'.
  - intros j _ Hl. apply (acc_registered _ _ _ H j); [done |].
    destruct (decide (j = i)) as [-> | Hne]; [| by rewrite list_lookup_insert_ne in Hl].
    rewrite list_lookup_insert_eq in Hl by done. injection Hl as ->.
    injection Hface as Hf _. rewrite Hi. by destruct w.
  - intros j _ Hl. destruct (decide (j = i)) as [-> | Hne].
    + rewrite list_lookup_insert_eq in Hl by done.
      apply (acc_sentinel _ _ _ H i); [done |]. rewrite Hi.
      assert (Hs : sentinelSeen w = true).
      { apply Hsent. by destruct Hl as [[= ->] | [= ->]]. }
      destruct w as [| [it |] | it |]; try done; [by right | by left].
    + rewrite list_lookup_insert_ne in Hl by done. by apply (acc_sentinel _ _ _ H j).
  - apply (acc_pending _ _ _ H).
  - intros j1 j2 it1 it2 (a1 & Ha1 & Hi1)%Hholds (a2 & Ha2 & Hi2)%Hholds Heq.
    apply (acc_unique _ _ _ H j1 j2 a1 a2); [done | done | congruence].
  - intros j it (a & Ha & Hia)%Hholds. rewrite <- Hia. by apply (acc_apart _ _ _ H j).
  - intros x. rewrite (acc_processing _ _ _ H x). split.
    + intros (j & it & (it' & Hh & Hid)%Hback & <-). by exists j, it'.
    + intros (j & it & (it0 & Hh & Hid)%Hholds & <-). by exists j, it0.
  - apply (acc_terminal _ _ _ H).
  - apply (acc_exclusive _ _ _ H).
  - apply (acc_skipped _ _ _ H).
  - apply (acc_limit _ _ _ H).
Qed.

Lemma resume_accounted i p :
  accounted None (queue p) (workers p) ->
  accounted None (queue (resume i p)) (workers (resume i p)).
Proof.
  intros H. unfold resume. destruct (workers p !! i) as [w |] eqn:Hi; [| done].
  destruct w as [| [it |] | it |]; try done; cbn [queue workers withQueue].
  - by apply (retag_accounted _ _ i (Resumed (Some it))).
  - by apply (retag_accounted _ _ i (Resumed None)).
Qed.

(** [close()] resolves every suspended caller with the sentinel. *)
Lemma close_accounted q ws :
  accounted None q ws ->
  accounted None (AsyncQueue.close q).1 (deliver (AsyncQueue.close q).2 ws)
  /\ known (AsyncQueue.close q).1 = known q.
Proof.
  intros H. split; [| done]. unfold AsyncQueue.close. cbn [fst snd].
  set (ds := map (fun w : nat => (w, None : option QueueItem)) (AsyncQueue.waiters q)).
  assert (Hfst : map fst ds = AsyncQueue.waiters q).
  { unfold ds. rewrite map_map. cbn. apply map_id. }
  assert (Hsnd : forall d, d ∈ ds -> d.2 = None).
  { intros d (w & -> & _)%list_elem_of_fmap. done. }
  assert (Hkeep : forall j w, ws !! j = Some w -> w <> Waiting -> deliver ds ws !! j = Some w).
  { intros j w Hl Hw. rewrite PoolCounting.deliver_lookup_other; [done |].
    rewrite Hfst. intros Hj. destruct (acc_waiting _ _ _ H j Hj) as [Hl' _]. congruence. }
  assert (Hfrom : forall j w, deliver ds ws !! j = Some w ->
                              w <> Resumed None -> ws !! j = Some w /\ w <> Waiting).
  { intros j w Hl Hw. apply RetryAnyPool.deliver_lookup in Hl as [[Hl Hj] | (d & Hd & ->)].
    - split; [done |]. intros ->. apply Hj. rewrite Hfst.
      by apply (acc_registered _ _ _ H j).
    - by rewrite (Hsnd d Hd) in Hw. }
  assert (Hholds : forall j it, holds None (deliver ds ws) j it <-> holds None ws j it).
  { intros j it. split.
    - intros (_ & w & Hl & Hit). split; [done |]. exists w. split; [| done].
      apply Hfrom; [done |]. by intros ->.
    - intros (_ & w & Hl & Hit). split; [done |]. exists w. split; [| done].
      apply Hkeep; [done |]. by intros ->. }
  split; cbn.
  - apply NoDup_nil_2.
  - by intros w Hw%elem_of_nil.
  - intros j _ Hl. by destruct (Hfrom j Waiting Hl).
  - done.
  - apply (acc_pending _ _ _ H).
  - intros j1 j2 it1 it2 H1%Hholds H2%Hholds. by apply (acc_unique _ _ _ H).
  - intros j it Hh%Hholds. by apply (acc_apart _ _ _ H j).
  - intros x. rewrite (acc_processing _ _ _ H x).
    split; intros (j & it & Hh & <-); exists j, it; (split; [by apply Hholds | done]).
  - apply (acc_terminal _ _ _ H).
  - apply (acc_exclusive _ _ _ H).
  - apply (acc_skipped _ _ _ H).
  - apply (acc_limit _ _ _ H).
Qed.

(** A new loop, about to make its first call of [dequeue]. *)
Lemma push_accounted q ws :
  accounted None q ws -> accounted (Some (length ws)) q (ws ++ [Waiting])%list.
Proof.
  intros H.
  assert (Hold : forall j, j <> length ws -> (ws ++ [Waiting])%list !! j = ws !! j).
  { intros j Hj. destruct (decide (j < length ws)) as [Hlt | Hge].
    - by rewrite lookup_app_l.
    - rewrite (lookup_ge_None_2 ws) by lia. apply lookup_ge_None_2.
      rewrite length_app. cbn. lia. }
  assert (Hholds : forall j it, holds (Some (length ws)) (ws ++ [Waiting])%list j it
                                <-> holds None ws j it).
  { intros j it. rewrite holds_flux. split.
    - intros (Hne & _ & w & Hl & Hit). rewrite Hold in Hl by done.
      split; [done |]. by exists w.
    - intros (_ & w & Hl & Hit).
      assert (Hne : j <> length ws) by (apply lookup_lt_Some in Hl; lia).
      split; [done |]. split; [done |]. exists w. by rewrite Hold. }
  split.
  - apply (acc_nodup _ _ _ H).
  - intros w Hw. destruct (acc_waiting _ _ _ H w Hw) as [Hl _].
    assert (Hne : w <> length ws) by (apply lookup_lt_Some in Hl; lia).
    split; [by rewrite Hold | congruence].
  - intros j Hne Hl. apply (acc_registered _ _ _ H j); [done |].
    rewrite <- Hold; [done | congruence].
  - intros j Hne Hl. apply (acc_sentinel _ _ _ H j); [done |].
    rewrite <- Hold; [done | congruence].
  - apply (acc_pending _ _ _ H).
  - intros j1 j2 it1 it2 H1%Hholds H2%Hholds. by apply (acc_unique _ _ _ H).
  - intros j it Hh%Hholds. by apply (acc_apart _ _ _ H j).
  - intros x. rewrite (acc_processing _ _ _ H x).
    split; intros (j & it & Hh & <-); exists j, it; (split; [by apply Hholds | done]).
  - apply (acc_terminal _ _ _ H).
  - apply (acc_exclusive _ _ _ H).
  - apply (acc_skipped _ _ _ H).
  - apply (acc_limit _ _ _ H).
Qed.

Lemma dequeue_busy i q :
  1 <= AsyncQueue.maxConcurrent q ->
  AsyncQueue.items (AsyncQueue.dequeue i q).1 <> [] ->
  AsyncQueue.processing (AsyncQueue.dequeue i q).1 <> ∅.
Proof.
  intros Hm. unfold AsyncQueue.dequeue.
  assert (Hfull : (size (AsyncQueue.processing q) <? AsyncQueue.maxConcurrent q)%nat = false ->
                  AsyncQueue.processing q <> ∅).
  { intros Hge%Nat.ltb_ge Hp. rewrite Hp, size_empty in Hge. lia. }
  destruct (AsyncQueue.closed q); cbn [andb].
  - case_bool_decide as Hit; [done |].
    destruct (AsyncQueue.items q) as [| item rest]; [done |].
    destruct (size _ <? _)%nat eqn:Hlt; cbn; [set_solver | by intros _; apply Hfull].
  - destruct (AsyncQueue.items q) as [| item rest]; [done |].
    destruct (size _ <? _)%nat eqn:Hlt; cbn; [set_solver | by intros _; apply Hfull].
Qed.

Lemma exited_lookup p i w : allExited p = true -> workers p !! i = Some w -> w = Exited.
Proof.
  unfold allExited. rewrite forallb_forall. intros H Hi.
  specialize (H w). rewrite <- list_elem_of_In in H.
  specialize (H (list_elem_of_lookup_2 _ _ _ Hi)). by destruct w.
Qed.

(** The state of a pool in which the loops run: [ids] are the ids that
    were submitted. *)
Definition orderly (ids : gset string) (p : t) : Prop :=
  accounted None (queue p) (workers p)
  /\ known (queue p) = ids
  /\ workers p <> []
  /\ (running p = false -> allExited p = true)
  /\ (AsyncQueue.items (queue p) <> [] -> AsyncQueue.processing (queue p) <> ∅).

Lemma spawn_orderly ids p :
  running p = true -> accounted None (queue p) (workers p) -> known (queue p) = ids ->
  running (spawn p) = true /\ orderly ids (spawn p).
Proof.
  intros Hr H Hk. unfold orderly, spawn, loopHead.
  cbn [running withQueue queue workers]. rewrite Hr.
  pose proof (push_accounted _ _ H) as Hpush.
  assert (Hlt : length (workers p) < length (workers p ++ [Waiting])%list)
    by (rewrite length_app; cbn; lia).
  destruct (dequeue_accounted _ _ _ Hpush Hlt) as (Hacc & Hk' & _).
  pose proof (dequeue_busy (length (workers p)) (queue p) (acc_limit _ _ _ H)) as Hbusy.
  destruct (AsyncQueue.dequeue (length (workers p)) (queue p)) as [q d].
  cbn [fst snd running withQueue queue workers] in *.
  split; [done |]. split; [done |]. split; [by rewrite Hk' |].
  split; [| split; [by rewrite Hr | done]].
  intros Hnil%(f_equal length). rewrite length_insert, length_app in Hnil. cbn in Hnil. lia.
Qed.

Lemma spawns_orderly ids k :
  forall p,
    running p = true -> accounted None (queue p) (workers p) -> known (queue p) = ids ->
    (workers p <> []
     /\ (AsyncQueue.items (queue p) <> [] -> AsyncQueue.processing (queue p) <> ∅))
    \/ 1 <= k ->
    running (Nat.iter k spawn p) = true /\ orderly ids (Nat.iter k spawn p).
Proof.
  induction k as [| k IH]; intros p Hr H Hk Hor.
  - destruct Hor as [[Hw Hb] | Hle]; [| lia]. cbn. split; [done |].
    split; [done |]. split; [done |]. split; [done |]. split; [by rewrite Hr | done].
  - rewrite Nat.iter_succ.
    assert (Hk1 : running (Nat.iter k spawn p) = true
                  /\ accounted None (queue (Nat.iter k spawn p)) (workers (Nat.iter k spawn p))
                  /\ known (queue (Nat.iter k spawn p)) = ids).
    { destruct k as [| k']; [done |].
      destruct (IH p Hr H Hk) as (Hr' & Ha' & Hk' & _); [right; lia | done]. }
    destruct Hk1 as (Hr' & Ha' & Hk'). by apply spawn_orderly.
Qed.

(** The steps of a run of the loops: nothing more is submitted, the
    pool is not shut down, and the processor leaves the id of the item
    it is given as it is. *)
Definition regular (a : Action) (p : t) : Prop :=
  match a with
  | AStart | AResume _ | AWaitForCompletion | AJoin => True
  | AFinish i o => forall held, workers p !! i = Some (Busy held) -> id (settle o).2 = id held
  | ASubmit _ | ASubmitMany _ | AShutdown => False
  end.

Fixpoint regularTrace (tr : list Action) (p : t) : Prop :=
  match tr with
  | [] => True
  | a :: tr' => regular a p /\ regularTrace tr' (step a p)
  end.

Lemma insert_nonempty (ws : list Worker) i w : ws <> [] -> <[i := w]> ws <> [].
Proof. intros H Hnil%(f_equal length). rewrite length_insert in Hnil. by destruct ws. Qed.

Lemma deliver_nonempty ds (ws : list Worker) : ws <> [] -> deliver ds ws <> [].
Proof.
  intros H Hnil%(f_equal length). rewrite PoolCounting.deliver_length in Hnil. by destruct ws.
Qed.

Lemma step_orderly ids a p : regular a p -> orderly ids p -> orderly ids (step a p).
Proof.
  intros Ha Ho. pose proof Ho as (Hacc & Hk & Hw & Hstop & Hbusy).
  assert (Hrun : forall i w, workers p !! i = Some w -> w <> Exited -> running p = true).
  { intros i w Hi Hne. destruct (running p) eqn:Hr; [done |].
    by pose proof (exited_lookup p i w (Hstop eq_refl) Hi). }
  destruct a as [item | its | | i | i o | | |]; try done; cbn [step].
  - (* start *)
    unfold start. destruct (running p) eqn:Hr; [done |].
    refine (proj2 (spawns_orderly ids _ _ _ _ _ _)); try done. by left.
  - (* resume *)
    pose proof (resume_accounted i p Hacc) as Hacc'. revert Hacc'.
    unfold resume. destruct (workers p !! i) as [w |] eqn:Hi; [| done].
    destruct w as [| [it |] | it |]; try done; intros Hacc';
      (split; [done |]); (split; [done |]); (split; [by apply insert_nonempty |]);
      (split; [| done]); cbn [running withQueue]; intros Hr;
      by rewrite (Hrun i _ Hi) in Hr.
  - (* finish *)
    unfold finish. destruct (workers p !! i) as [w |] eqn:Hi; [| done].
    destruct w as [| r0 | held |]; try done.
    specialize (Ha held Hi).
    destruct (settle o) as [r item]. cbn [snd] in Ha.
    destruct (updateQueue_accounted i r item _ _ held Hacc Hi Ha) as [Hacc1 Hk1].
    destruct (updateQueue r item (queue p)) as [q1 ds]. cbn [fst snd] in Hacc1, Hk1.
    unfold loopHead. cbn [running queue workers withQueue].
    rewrite (Hrun i _ Hi) by done.
    assert (Hlt : i < length (deliver ds (workers p))).
    { rewrite PoolCounting.deliver_length. by apply lookup_lt_Some in Hi. }
    destruct (dequeue_accounted _ _ _ Hacc1 Hlt) as (Hacc2 & Hk2 & _).
    pose proof (dequeue_busy i q1 (acc_limit _ _ _ Hacc1)) as Hbusy2.
    destruct (AsyncQueue.dequeue i q1) as [q2 d]. cbn [fst snd] in *.
    split; [done |]. split; [cbn; congruence |].
    split; [by apply insert_nonempty, deliver_nonempty |].
    split; [| done]. cbn [running withQueue]. by intros Hr.
  - (* waitForCompletion *)
    unfold closeQueue.
    destruct (close_accounted _ _ Hacc) as [Hacc' Hk'].
    assert (Hnone : running p = false -> AsyncQueue.waiters (queue p) = []).
    { intros Hr. destruct (AsyncQueue.waiters (queue p)) as [| w wl] eqn:Hwl; [done |].
      destruct (acc_waiting _ _ _ Hacc w) as [Hl _]; [rewrite Hwl; by left |].
      by pose proof (exited_lookup p w _ (Hstop Hr) Hl). }
    unfold AsyncQueue.close in *. cbn [fst snd] in *.
    split; [done |]. split; [exact (eq_trans Hk' Hk) |].
    split; [by apply deliver_nonempty |].
    split; [| done]. cbn [running withQueue workers]. intros Hr.
    rewrite (Hnone Hr). by apply Hstop.
  - (* the loops are joined *)
    unfold completion. destruct (allExited p) eqn:He; [| done].
    split; [exact Hacc |]. split; [exact Hk |]. split; [exact Hw |].
    split; [intros _; exact He | exact Hbusy].
Qed.

Lemma run_orderly ids tr :
  forall p, regularTrace tr p -> orderly ids p -> orderly ids (exec tr p).1.
Proof.
  induction tr as [| a tr IH]; intros p Htr Ho; [done |].
  destruct Htr as [Ha Htr]. rewrite exec_cons. cbn [fst].
  by apply IH, step_orderly.
Qed.

Lemma submitMany_new W its :
  submitMany its (new W)
  = {| queue := AsyncQueue.withPending (AsyncQueue.new W)
                  (AsyncQueue.sortByPriority its) ∅ [];
       workers := []; results := []; running := false; workerCount := W |}.
Proof. reflexivity. Qed.

Lemma submitted_accounted W its :
  1 <= W -> NoDup (map id its) ->
  accounted None (queue (submitMany its (new W))) []
  /\ known (queue (submitMany its (new W))) = list_to_set (map id its).
Proof.
  intros HW Hnd. rewrite submitMany_new. cbn [queue].
  assert (Hperm : map id (AsyncQueue.sortByPriority its) ≡ₚ map id its).
  { by rewrite (QueueOrder.sortByPriority_perm its). }
  split.
  - split; cbn.
    + apply NoDup_nil_2.
    + by intros w Hw%elem_of_nil.
    + by intros j _ Hl.
    + by intros j _ [Hl | Hl].
    + unfold pendingIds. cbn. by rewrite Hperm.
    + by intros j1 j2 it1 it2 (_ & w & Hl & _).
    + by intros j it (_ & w & Hl & _).
    + intros x. split; [set_solver |]. by intros (j & it & (_ & w & Hl & _) & _).
    + set_solver.
    + set_solver.
    + done.
    + done.
  - unfold known, pendingIds. cbn. apply set_eq. intros x.
    rewrite !elem_of_union, !elem_of_list_to_set, Hperm. set_solver.
Qed.

Lemma start_orderly W its :
  1 <= W -> NoDup (map id its) ->
  orderly (list_to_set (map id its)) (start (submitMany its (new W))).
Proof.
  intros HW Hnd. destruct (submitted_accounted W its HW Hnd) as [Hacc Hk].
  unfold start. rewrite submitMany_new in *. cbn [running workerCount queue workers results].
  refine (proj2 (spawns_orderly _ W _ _ _ _ _)); try done. by right.
Qed.

Lemma accounted_total q ws :
  accounted None q ws ->
  length (AsyncQueue.items q) + size (AsyncQueue.processing q)
  + size (AsyncQueue.completed q) + size (AsyncQueue.failed q) = size (known q)
  /\ size (AsyncQueue.skipped q) = 0.
Proof.
  intros H.
  assert (Hs : AsyncQueue.skipped q = ∅) by apply (acc_skipped _ _ _ H).
  split; [| by rewrite Hs, map_size_empty].
  unfold known. rewrite Hs, dom_empty_L, (right_id_L ∅ (∪)).
  assert (H1 : (list_to_set (pendingIds q) : gset string) ## AsyncQueue.processing q).
  { intros x Hx%elem_of_list_to_set Hp.
    apply (acc_processing _ _ _ H) in Hp as (j & it & Hh & <-).
    by apply (acc_apart _ _ _ H j it). }
  assert (H2 : (list_to_set (pendingIds q) ∪ AsyncQueue.processing q : gset string)
               ## dom (AsyncQueue.completed q)).
  { intros x Hx Hc. destruct (acc_terminal _ _ _ H x) as [Hp Hq]; [set_solver |].
    apply elem_of_union in Hx as [Hx%elem_of_list_to_set | Hx]; done. }
  assert (H3 : (list_to_set (pendingIds q) ∪ AsyncQueue.processing q
                ∪ dom (AsyncQueue.completed q) : gset string)
               ## dom (AsyncQueue.failed q)).
  { intros x Hx Hf. destruct (acc_terminal _ _ _ H x) as [Hp Hq]; [set_solver |].
    pose proof (acc_exclusive _ _ _ H) as Hex.
    apply elem_of_union in Hx as [[Hx%elem_of_list_to_set | Hx]%elem_of_union | Hx];
      [done | done | set_solver]. }
  rewrite (size_union _ _ H3), (size_union _ _ H2), (size_union _ _ H1).
  rewrite size_list_to_set by apply (acc_pending _ _ _ H).
  unfold pendingIds. by rewrite length_map, !size_dom.
Qed.

(** X8. A pool of [W >= 1] loops is given items with distinct ids and
    started. However the loops are scheduled, as long as nothing more
    is submitted, the pool is not shut down and the processor leaves
    the ids of the items alone, no item is lost and none is counted
    twice: every submitted id is in exactly one of the pending items,
    [processing], [completed] and [failed]; [total] in the statistics
    is the number of submitted items and [skipped] is zero; and
    [processing] holds exactly the ids of the items that the loops
    have in hand. *)
Theorem items_never_lost_nor_duplicated (W : nat) (its : list QueueItem) (tr : list Action) :
  1 <= W -> NoDup (map id its) ->
  regularTrace tr (start (submitMany its (new W))) ->
  let p := (exec tr (start (submitMany its (new W)))).1 in
  let q := queue p in
  total (getStats p) = length its
  /\ Types.skipped (getStats p) = 0
  /\ NoDup (map id (AsyncQueue.items q))
  /\ (forall x, x ∈ map id its
                <-> x ∈ map id (AsyncQueue.items q) \/ x ∈ AsyncQueue.processing q
                    \/ x ∈ dom (AsyncQueue.completed q) \/ x ∈ dom (AsyncQueue.failed q))
  /\ (forall x, x ∈ map id (AsyncQueue.items q) -> x ∉ AsyncQueue.processing q)
  /\ (forall x, x ∈ dom (AsyncQueue.completed q) ∪ dom (AsyncQueue.failed q) ->
                (x ∉ map id (AsyncQueue.items q)) /\ (x ∉ AsyncQueue.processing q))
  /\ dom (AsyncQueue.completed q) ## dom (AsyncQueue.failed q)
  /\ (forall x, x ∈ AsyncQueue.processing q
                <-> exists j w item, workers p !! j = Some w /\ itemOf w = Some item
                                     /\ id item = x).
Proof.
  intros HW Hnd Htr p q.
  pose proof (run_orderly _ tr _ Htr (start_orderly W its HW Hnd)) as Ho.
  fold p in Ho. destruct Ho as (Hacc & Hk & _). fold q in Hacc, Hk.
  destruct (accounted_total _ _ Hacc) as [Htot Hsk].
  assert (Hsize : size (known q) = length its).
  { rewrite Hk, size_list_to_set by done. by rewrite length_map. }
  split; [| split; [| split; [| split; [| split; [| split; [| split]]]]]].
  - unfold getStats, AsyncQueue.getStats. cbn [total]. fold q. lia.
  - exact Hsk.
  - apply (acc_pending _ _ _ Hacc).
  - intros x. rewrite <- (elem_of_list_to_set (C := gset string) x (map id its)), <- Hk.
    unfold known. rewrite (acc_skipped _ _ _ Hacc), dom_empty_L.
    rewrite !elem_of_union, elem_of_list_to_set. unfold pendingIds. set_solver.
  - intros x Hx Hp. apply (acc_processing _ _ _ Hacc) in Hp as (j & it & Hh & <-).
    by apply (acc_apart _ _ _ Hacc j it).
  - apply (acc_terminal _ _ _ Hacc).
  - apply (acc_exclusive _ _ _ Hacc).
  - intros x. rewrite (acc_processing _ _ _ Hacc x). split.
    + intros (j & it & (_ & w & Hl & Hit) & Hid). by exists j, w, it.
    + intros (j & w & it & Hl & Hit & Hid). exists j, it. split; [| done].
      split; [done |]. by exists w.
Qed.

(** The scheduler's runs are regular when the processor leaves the ids
    alone. *)
Lemma schedule_regular processor fuel :
  (forall item, id (settle (processor item)).2 = id item) ->
  forall p, regularTrace (schedule processor fuel p) p.
Proof.
  intros Hid. induction fuel as [| fuel IH]; intros p; [done |].
  cbn [schedule]. destruct (nextAction processor p) as [a |] eqn:Hn; [| done].
  split; [| apply IH].
  unfold nextAction in Hn.
  destruct (list_find _ (workers p)) as [[i w] |] eqn:Hf; [| done].
  apply list_find_Some in Hf as (Hi & _).
  destruct w as [| r | item |]; injection Hn as <-; try done.
  intros held Hh. rewrite Hi in Hh. injection Hh as <-. apply Hid.
Qed.

Lemma regularTrace_wait tr p :
  regularTrace tr (closeQueue p) -> regularTrace (AWaitForCompletion :: tr) p.
Proof. by split. Qed.

Lemma alwaysFails_keeps_id item :
  id (settle (RetrySamples.alwaysFails item)).2 = id item.
Proof. done. Qed.

(** Two sample items and a run of two loops to the end. *)
Definition twoItems : list QueueItem := [Samples.item "X" 0 3; Samples.item "Y" 0 2].

Definition twoItemsRun : list Action :=
  AWaitForCompletion
  :: schedule RetrySamples.alwaysFails 16 (closeQueue (start (submitMany twoItems (new 2)))).


(** X9. A pool of [W >= 1] loops is given items with distinct ids and
    started; nothing more is submitted, the pool is not shut down and
    the processor leaves the ids of the items alone. Once every loop
    has exited, so that [waitForCompletion] returns, every submitted
    item is settled: nothing is pending, nothing is in [processing],
    the queue is closed and complete, and each submitted id is in
    [completed] or in [failed], whose sizes add up to the number of
    submitted items. *)
Theorem completion_settles_every_item (W : nat) (its : list QueueItem) (tr : list Action) :
  1 <= W -> NoDup (map id its) ->
  regularTrace tr (start (submitMany its (new W))) ->
  allExited (exec tr (start (submitMany its (new W)))).1 = true ->
  let p := (exec tr (start (submitMany its (new W)))).1 in
  let q := queue p in
  completion p = Some (stop p, results p)
  /\ AsyncQueue.items q = []
  /\ AsyncQueue.processing q = ∅
  /\ AsyncQueue.isComplete q = true
  /\ (forall x, x ∈ map id its
                <-> x ∈ dom (AsyncQueue.completed q) \/ x ∈ dom (AsyncQueue.failed q))
  /\ Types.completed (getStats p) + Types.failed (getStats p) = length its.
Proof.
  intros HW Hnd Htr Hex p q. fold p in Hex.
  pose proof (run_orderly _ tr _ Htr (start_orderly W its HW Hnd)) as Ho.
  fold p in Ho. destruct Ho as (Hacc & Hk & Hw & _ & Hbusy). fold q in Hacc, Hk, Hbusy.
  assert (Hproc : AsyncQueue.processing q = ∅).
  { apply set_eq. intros x. split; [| set_solver].
    intros (j & it & (_ & w & Hl & Hit) & _)%(acc_processing _ _ _ Hacc).
    by rewrite (exited_lookup p j w Hex Hl) in Hit. }
  assert (Hitems : AsyncQueue.items q = []).
  { destruct (AsyncQueue.items q) as [| it l] eqn:Hi; [done |]. by destruct Hbusy. }
  assert (Hclosed : AsyncQueue.closed q = true).
  { destruct (workers p) as [| w ws] eqn:Hws; [done |].
    apply (acc_sentinel _ _ _ Hacc 0); [done |]. left.
    assert (Hl : workers p !! 0 = Some w) by (by rewrite Hws).
    rewrite Hws in Hl. by rewrite (exited_lookup p 0 w Hex) in Hl |- * by (by rewrite Hws). }
  destruct (accounted_total _ _ Hacc) as [Htot _].
  assert (Hsize : size (known q) = length its).
  { rewrite Hk, size_list_to_set by done. by rewrite length_map. }
  split; [unfold completion; by rewrite Hex |].
  split; [done |]. split; [done |].
  split; [unfold AsyncQueue.isComplete, AsyncQueue.isEmpty; rewrite Hclosed, Hitems, Hproc; done |].
  split.
  - intros x. rewrite <- (elem_of_list_to_set (C := gset string) x (map id its)), <- Hk.
    unfold known, pendingIds. rewrite (acc_skipped _ _ _ Hacc), dom_empty_L, Hitems, Hproc.
    set_solver.
  - unfold getStats, AsyncQueue.getStats. cbn [Types.completed Types.failed]. fold q.
    rewrite Hitems, Hproc, size_empty in Htot. cbn [length] in Htot. lia.
Qed.


Lemma items_never_lost_nor_duplicated_witness :
  (1 <= 2 /\ NoDup (map id twoItems)
   /\ regularTrace twoItemsRun (start (submitMany twoItems (new 2))))
  /\ total (getStats (exec twoItemsRun (start (submitMany twoItems (new 2)))).1)
     = length twoItems.
Proof.
  assert (Hnd : NoDup (map id twoItems)).
  { apply NoDup_cons. split; [by intros [=]%list_elem_of_singleton |]. apply NoDup_singleton. }
  assert (Htr : regularTrace twoItemsRun (start (submitMany twoItems (new 2)))).
  { apply regularTrace_wait, schedule_regular, alwaysFails_keeps_id. }
  split; [split; [lia | split; [exact Hnd | exact Htr]] |].
  exact (proj1 (items_never_lost_nor_duplicated 2 twoItems twoItemsRun
                  (le_S 1 1 (le_n 1)) Hnd Htr)).
Defined.

Lemma completion_settles_every_item_witness :
  (1 <= 2 /\ NoDup (map id twoItems)
   /\ regularTrace twoItemsRun (start (submitMany twoItems (new 2)))
   /\ allExited (exec twoItemsRun (start (submitMany twoItems (new 2)))).1 = true)
  /\ AsyncQueue.items (queue (exec twoItemsRun (start (submitMany twoItems (new 2)))).1) = [].
Proof.
  assert (Hnd : NoDup (map id twoItems)).
  { apply NoDup_cons. split; [by intros [=]%list_elem_of_singleton |]. apply NoDup_singleton. }
  assert (Htr : regularTrace twoItemsRun (start (submitMany twoItems (new 2)))).
  { apply regularTrace_wait, schedule_regular, alwaysFails_keeps_id. }
  assert (Hex : allExited (exec twoItemsRun (start (submitMany twoItems (new 2)))).1 = true).
  { vm_compute. reflexivity. }
  split; [split; [lia | split; [exact Hnd | split; [exact Htr | exact Hex]]] |].
  exact (proj1 (proj2 (completion_settles_every_item 2 twoItems twoItemsRun
                         (le_S 1 1 (le_n 1)) Hnd Htr Hex))).
Defined.

End PoolAccounting.
